(** * BugReducerTester: a shallow embedding of the SIL fault-injection pass

    Source: lib/SILOptimizer/UtilityPasses/BugReducerTester.cpp

    The pass visits one SIL function at a time.  It looks for the first
    [apply] whose callee is a [function_ref] to the function named by the
    option [-bug-reducer-tester-target-func] and, depending on
    [-bug-reducer-tester-failure-kind], crashes the optimizer there, deletes
    the call, or replaces it by a call to a trapping helper function.

    The pass object and the SIL module are mutable C++ objects; here they
    are one explicit state, threaded by a small state-and-abort monad. *)

From stdpp Require Import gmap strings list fin_maps.

Set Default Proof Using "Type".
Open Scope string_scope.
Open Scope list_scope.
Open Scope nat_scope.

(* ===================================================================== *)
(** ** SIL data, as far as the pass looks at it                           *)
(* ===================================================================== *)

(** Lowered SIL types.  The pass builds one type itself, the thin function
    type without parameters that returns the empty tuple; every other type
    is only copied from the matched [apply]. *)
Inductive SILType :=
| EmptyTupleType
| ThinFunctionType (result : SILType)
| NamedType (name : string).

(** A [SILValue] is a pointer to the node that defines it.  Instructions are
    named by an identifier that plays the part of the pointer. *)
Inductive SILValue :=
| InstResult (id : nat)
| BlockArgument (bb idx : nat)
| SILUndef (ty : SILType).

Inductive SILInstructionKind :=
| ApplyInst (callee : SILValue) (args : list SILValue) (nothrow : bool)
| FunctionRefInst (referenced : string)
| BuiltinTrapInst
| UnreachableInst
| OtherInst (opcode : string) (operands : list SILValue).

Record SILInstruction := mkInst {
  inst_id : nat;
  inst_kind : SILInstructionKind;
  inst_type : SILType
}.

(** A basic block is its instruction list, in program order. *)
Abbreviation SILBasicBlock := (list SILInstruction).

Inductive SILLinkage := LinkPublic | LinkHidden | LinkInternal | LinkPrivate.

Record SILFunction := mkFunction {
  fn_type : SILType;
  fn_linkage : SILLinkage;
  fn_bare : bool;
  fn_transparent : bool;
  fn_fragile : bool;
  fn_thunk : bool;
  fn_blocks : list SILBasicBlock
}.

(** [fmap] on lists, for instructions of a block and blocks of a function. *)
Abbreviation lmap := (@fmap list list_fmap).

(** A module owns its functions by name. *)
Abbreviation SILModule := (gmap string SILFunction).

#[global] Instance SILType_eq_dec : EqDecision SILType.
Proof. solve_decision. Defined.
#[global] Instance SILValue_eq_dec : EqDecision SILValue.
Proof. solve_decision. Defined.

(* ===================================================================== *)
(** ** Command line options and pass state                                *)
(* ===================================================================== *)

Inductive FailureKind :=
| OptimizerCrasher
| RuntimeMiscompile
| RuntimeCrasher
| None_.

#[global] Instance FailureKind_eq_dec : EqDecision FailureKind.
Proof. solve_decision. Defined.

(** [FunctionTarget] and [TargetFailureKind] are the two [llvm::cl::opt]s.
    [NDEBUG] records how the compiler itself was built: with [NDEBUG] the C
    macro [assert] expands to nothing. *)
Record Options := mkOptions {
  FunctionTarget : string;
  TargetFailureKind : FailureKind;
  NDEBUG : bool
}.

(** What the pass writes to [llvm::dbgs()]. *)
Inductive DebugOutput :=
| DbgText (text : string)
| DbgDump (name : string) (F : option SILFunction).

(** [CausedError] is the field of the pass object, [Mod] the module of the
    function the pass runs on, [dbgs] the debug stream (oldest first). *)
Record State := mkState {
  CausedError : bool;
  Mod : SILModule;
  dbgs : list DebugOutput
}.

Definition RuntimeCrasherFunctionName : string := "bug_reducer_runtime_crasher_func".

(* ===================================================================== *)
(** ** The monad: state, and the two ways the process can die             *)
(* ===================================================================== *)

Inductive Abort :=
| AssertionFailure (expr : string)
| LLVMUnreachable (msg : string).

Inductive Outcome (A : Type) :=
| Returned (a : A) (s : State)
| Aborted (why : Abort) (s : State).
Arguments Returned {A} a s.
Arguments Aborted {A} why s.

Definition Pass (A : Type) : Type := State → Outcome A.

#[global] Instance Pass_ret : MRet Pass := λ A a s, Returned a s.

#[global] Instance Pass_bind : MBind Pass := λ A B k m s,
  match m s with
  | Returned a s' => k a s'
  | Aborted why s' => Aborted why s'
  end.

Definition get : Pass State := λ s, Returned s s.
Definition modify (g : State → State) : Pass unit := λ s, Returned tt (g s).

(** C [assert]: nothing under [NDEBUG], otherwise the process aborts when
    the condition is false. *)
Definition assert_ (o : Options) (cond : bool) (expr : string) : Pass unit :=
  λ s, if NDEBUG o || cond then Returned tt s
       else Aborted (AssertionFailure expr) s.

(** Modelled from the spec: [llvm_unreachable], the LLVM macro behind the
    optimizer-abort kind, is missing from the sources at hand; the spec has it
    signal a fatal, unrecoverable failure at once (a process-terminating
    diagnostic), and execution does not continue. *)
Definition llvm_unreachable {A} (msg : string) : Pass A :=
  λ s, Aborted (LLVMUnreachable msg) s.

(* ===================================================================== *)
(** ** The SIL library operations the pass calls                          *)
(* ===================================================================== *)

(** The SIL library (SILModule, SILFunction, SILBuilder, ValueBase) is not
    part of the pass; what the pass calls of it is modelled here from the
    spec's data model, each operation under its C++ name. *)

Definition set_blocks (F : SILFunction) (bs : list SILBasicBlock) : SILFunction :=
  mkFunction (fn_type F) (fn_linkage F) (fn_bare F) (fn_transparent F)
             (fn_fragile F) (fn_thunk F) bs.

Definition set_Mod (s : State) (M : SILModule) : State :=
  mkState (CausedError s) M (dbgs s).

(** The blocks of the function called [name]; a name the module does not
    know has no blocks. *)
Definition getBlocks (name : string) (s : State) : list SILBasicBlock :=
  from_option fn_blocks [] (Mod s !! name).

Definition all_insts (blocks : list SILBasicBlock) : list SILInstruction :=
  concat blocks.

(** The values an instruction reads. *)
Definition operands (II : SILInstruction) : list SILValue :=
  match inst_kind II with
  | ApplyInst callee args _ => callee :: args
  | OtherInst _ ops => ops
  | _ => []
  end.

(** A new instruction is a new object: its identifier is one no instruction
    of the function has. *)
Definition fresh_id (blocks : list SILBasicBlock) : nat :=
  S (max_list (inst_id <$> all_insts blocks)).

(** Modelled from the spec: [dyn_cast<FunctionRefInst>] applied to a
    [SILValue] (SIL library, missing here).  The value is a direct
    FunctionReference when the node that defines it is a [function_ref]
    instruction; the answer is the name of the function it refers to. *)
Definition getDefiningInst (blocks : list SILBasicBlock) (v : SILValue)
  : option SILInstruction :=
  match v with
  | InstResult id => List.find (λ II, bool_decide (inst_id II = id)) (all_insts blocks)
  | _ => None
  end.

(** Modelled from the spec: [dyn_cast<FunctionRefInst>] together with
    [getReferencedFunction()->getName()] (SIL library, missing here): the
    name of the function a direct FunctionReference denotes, nothing for any
    other value. *)
Definition dyn_cast_FunctionRefInst (blocks : list SILBasicBlock) (v : SILValue)
  : option string :=
  match getDefiningInst blocks v with
  | Some FRI => match inst_kind FRI with
              | FunctionRefInst name => Some name
              | _ => None
              end
  | None => None
  end.

(** Modelled from the spec: [ValueBase::replaceAllUsesWith] (SIL library,
    missing here): every use of the old value, in every instruction of the
    function, reads the new value afterwards. *)
Definition subst_value (id : nat) (new : SILValue) (v : SILValue) : SILValue :=
  match v with
  | InstResult j => if decide (j = id) then new else v
  | _ => v
  end.

(** Modelled from the spec: the operands of an instruction (SIL library,
    missing here) are the places [replaceAllUsesWith] rewrites. *)
Definition subst_kind (id : nat) (new : SILValue) (k : SILInstructionKind)
  : SILInstructionKind :=
  match k with
  | ApplyInst callee args nt =>
      ApplyInst (subst_value id new callee) (subst_value id new <$> args) nt
  | OtherInst op ops => OtherInst op (subst_value id new <$> ops)
  | _ => k
  end.

Definition subst_inst (id : nat) (new : SILValue) (II : SILInstruction)
  : SILInstruction :=
  mkInst (inst_id II) (subst_kind id new (inst_kind II)) (inst_type II).

Definition modifyFunction (name : string) (g : list SILBasicBlock → list SILBasicBlock)
  : Pass unit :=
  modify (λ s, set_Mod s (alter (λ F, set_blocks F (g (fn_blocks F))) name (Mod s))).

(** Modelled from the spec: [ValueBase::replaceAllUsesWith] (SIL library,
    missing here), on the function [F] the old instruction lives in: its
    uses are all in that function. *)
Definition replaceAllUsesWith (F : string) (old : SILInstruction) (new : SILValue)
  : Pass unit :=
  modifyFunction F (lmap (lmap (subst_inst (inst_id old) new))).

(** Modelled from the spec: [SILInstruction::eraseFromParent] (SIL library,
    missing here) unlinks the instruction from the list of its block.  The
    list node is found by where it stands: block [bb], position [pos]. *)
Definition eraseFromParent (F : string) (bb pos : nat) : Pass unit :=
  modifyFunction F (alter (delete pos) bb).

(** Modelled from the spec: the [SILBuilder] (SIL library, missing here)
    links a new instruction in front of its insertion point, here position
    [pos] of block [bb] of function [F]; what stood at [pos] and after moves
    one place on.  The new instruction's identifier is returned. *)
Definition insertInst (F : string) (bb pos : nat) (k : SILInstructionKind)
  (ty : SILType) : Pass nat :=
  s ← get;
  let id := fresh_id (getBlocks F s) in
  modifyFunction F (alter (λ l, take pos l ++ mkInst id k ty :: drop pos l) bb);;
  mret id.

(** Modelled from the spec: [SILBuilder::createBuiltinTrap] (SIL library,
    missing here) builds the Trap instruction. *)
Definition createBuiltinTrap (F : string) (bb pos : nat) : Pass nat :=
  insertInst F bb pos BuiltinTrapInst EmptyTupleType.

(** Modelled from the spec: [SILBuilder::createUnreachable] (SIL library,
    missing here) builds the Unreachable terminator. *)
Definition createUnreachable (F : string) (bb pos : nat) : Pass nat :=
  insertInst F bb pos UnreachableInst EmptyTupleType.

(** Modelled from the spec: [SILBuilder::createFunctionRef] (SIL library,
    missing here) builds a FunctionReference to [callee], of the type of
    that function. *)
Definition createFunctionRef (F : string) (bb pos : nat) (callee : string)
  : Pass nat :=
  s ← get;
  insertInst F bb pos (FunctionRefInst callee)
             (from_option fn_type EmptyTupleType (Mod s !! callee)).

(** Modelled from the spec: [SILBuilder::createApply] (SIL library, missing
    here) builds a Call.  Of its arguments the model keeps the callee, the
    result type, the arguments and the no-throw bit; the substituted
    function type (line 143) and the substitutions (line 144, none) are not
    part of it. *)
Definition createApply (F : string) (bb pos : nat) (Fn : SILValue)
  (Result : SILType) (Args : list SILValue) (isNonThrowing : bool) : Pass nat :=
  insertInst F bb pos (ApplyInst Fn Args isNonThrowing) Result.

(** Modelled from the spec: [SILFunction::createBasicBlock] (SIL library,
    missing here) adds an empty block at the end of the function and returns
    it (its index). *)
Definition createBasicBlock (F : string) : Pass nat :=
  s ← get;
  modifyFunction F (λ bs, bs ++ [[]]);;
  mret (length (getBlocks F s)).

(** Modelled from the spec: the constructor [SILBuilder B(BB)] (SIL library,
    missing here) puts the insertion point at the end of the block. *)
Definition endOfBlock (F : string) (bb : nat) : Pass nat :=
  s ← get;
  mret (length (default [] (getBlocks F s !! bb))).

(** Modelled from the spec: [SILModule::getOrCreateSharedFunction] (SIL
    library, missing here) finds or creates a shared function by name: a
    function of that name already in the module is returned as it is;
    otherwise a declaration (no blocks) is created with the given type and
    attributes, and with the internal linkage the spec gives the stub. *)
Definition getOrCreateSharedFunction (name : string) (type : SILType)
  (isBare isTransparent isFragile isThunk : bool) : Pass string :=
  s ← get;
  match Mod s !! name with
  | Some _ => mret name
  | None =>
      modify (λ s, set_Mod s (<[name :=
        mkFunction type LinkInternal isBare isTransparent isFragile isThunk []]>
        (Mod s)));;
      mret name
  end.

(** Modelled from the spec: [SILFunction::isDefinition] (SIL library,
    missing here): the function has a body, at least one block; a
    declaration has none. *)
Definition is_definition (F : SILFunction) : bool :=
  match fn_blocks F with [] => false | _ => true end.

(** Modelled from the spec: [SILFunction::isDefinition], read off the module
    for the function called [F]. *)
Definition isDefinition (F : string) : Pass bool :=
  s ← get;
  mret (from_option is_definition false (Mod s !! F)).

(** [llvm::dbgs() << text], and [SILFunction::dump], as events on the debug
    stream. *)
Definition dbgs_print (text : string) : Pass unit :=
  modify (λ s, mkState (CausedError s) (Mod s) (dbgs s ++ [DbgText text])).

Definition dump (F : string) : Pass unit :=
  modify (λ s, mkState (CausedError s) (Mod s) (dbgs s ++ [DbgDump F (Mod s !! F)])).

Definition setCausedError (b : bool) : Pass unit :=
  modify (λ s, mkState b (Mod s) (dbgs s)).

(* ===================================================================== *)
(** ** The pass                                                           *)
(* ===================================================================== *)

Definition empty (str : string) : bool :=
  match str with EmptyString => true | _ => false end.

(** [getRuntimeCrasherFunction], lines 69-98. *)
Definition getRuntimeCrasherFunction (o : Options) : Pass string :=
  assert_ o (bool_decide (TargetFailureKind o = RuntimeCrasher))
          "TargetFailureKind == FailureKind::RuntimeCrasher";;
  let FuncType := ThinFunctionType EmptyTupleType in
  F ← getOrCreateSharedFunction RuntimeCrasherFunctionName FuncType
        true (* IsBare *) false (* IsNotTransparent *)
        true (* IsFragile *) false (* IsNotThunk *);
  def ← isDefinition F;
  if (def : bool) then mret F else
  (* Create a new block. *)
  BB ← createBasicBlock F;
  (* Insert a builtin int trap. Then return F. *)
  pos ← endOfBlock F BB;
  createBuiltinTrap F BB pos;;
  createUnreachable F BB (S pos);;
  mret F.

(** Lines 109-115: the instruction is an [apply] whose callee is a
    [function_ref] to a function named like the target. *)
Definition isTargetApply (blocks : list SILBasicBlock) (target : string)
  (II : SILInstruction) : bool :=
  match inst_kind II with
  | ApplyInst callee _ _ =>
      match dyn_cast_FunctionRefInst blocks callee with
      | Some name => String.eqb name target
      | None => false
      end
  | _ => false
  end.

(** Lines 117-151: what happens at the apply that was found, which stands
    at position [ii] of block [bi] of the function [cur]. *)
Definition inject (o : Options) (cur : string) (bi ii : nat)
  (Apply : SILInstruction) : Pass unit :=
  (* Ok, we found the Apply that we want! If we are asked to crash, crash
     here. *)
  (if bool_decide (TargetFailureKind o = OptimizerCrasher)
   then llvm_unreachable "Found the target!" else mret tt);;
  (* Otherwise, if we are asked to perform a runtime time miscompile,
     delete the apply target. *)
  if bool_decide (TargetFailureKind o = RuntimeMiscompile) then
    replaceAllUsesWith cur Apply (SILUndef (inst_type Apply));;
    eraseFromParent cur bi ii;;
    setCausedError true
  else
    assert_ o (bool_decide (TargetFailureKind o = RuntimeCrasher))
            "TargetFailureKind == FailureKind::RuntimeCrasher";;
    RuntimeCrasherFunc ← getRuntimeCrasherFunction o;
    dbgs_print "Runtime Crasher Func!
";;
    dump RuntimeCrasherFunc;;
    (* SILBuilder B(Apply->getIterator()): the builder inserts in front of
       the apply, so the apply moves on by one with each new instruction. *)
    FRI ← createFunctionRef cur bi ii RuntimeCrasherFunc;
    createApply cur bi (S ii) (InstResult FRI) EmptyTupleType [] false;;
    replaceAllUsesWith cur Apply (SILUndef (inst_type Apply));;
    eraseFromParent cur bi (S (S ii));;
    setCausedError true.

Inductive LoopCtl := Continue | Return_.

(** The body of the two loops: [continue], or inject and [return]. *)
Definition visit (o : Options) (cur : string) (bi ii : nat)
  (II : SILInstruction) : Pass LoopCtl :=
  s ← get;
  if negb (isTargetApply (getBlocks cur s) (FunctionTarget o) II)
  then mret Continue
  else inject o cur bi ii II;; mret Return_.

(** [for (auto &II : BB)] and [for (auto &BB : *getFunction())], with the
    early [return] of the body. *)
Fixpoint for_insts (body : nat → SILInstruction → Pass LoopCtl) (ii : nat)
  (BB : SILBasicBlock) : Pass LoopCtl :=
  match BB with
  | [] => mret Continue
  | II :: rest =>
      c ← body ii II;
      match c with
      | Continue => for_insts body (S ii) rest
      | Return_ => mret Return_
      end
  end.

Fixpoint for_blocks (body : nat → nat → SILInstruction → Pass LoopCtl) (bi : nat)
  (blocks : list SILBasicBlock) : Pass LoopCtl :=
  match blocks with
  | [] => mret Continue
  | BB :: rest =>
      c ← for_insts (body bi) 0 BB;
      match c with
      | Continue => for_blocks body (S bi) rest
      | Return_ => mret Return_
      end
  end.

(** [run], lines 100-154, on the function [cur] the pass manager set. *)
Definition run (o : Options) (cur : string) : Pass unit :=
  s ← get;
  (* If we don't have a target function or we already caused a miscompile,
     just return. *)
  if empty (FunctionTarget o) || CausedError s then mret tt else
  assert_ o (bool_decide (TargetFailureKind o ≠ None_))
          "TargetFailureKind != FailureKind::None";;
  for_blocks (visit o cur) 0 (getBlocks cur s);;
  mret tt.

(** The pass manager hands the functions to the one pass object one after
    the other. *)
Fixpoint runOnFunctions (o : Options) (worklist : list string) : Pass unit :=
  match worklist with
  | [] => mret tt
  | F :: rest => run o F;; runOnFunctions o rest
  end.

(* ===================================================================== *)
(** ** The pass, with a record of what it touches                         *)
(* ===================================================================== *)

(** What an invocation does to the instructions, step by step: the inner
    loop binds [II] to an instruction and the body inspects it (lines
    108-115); the loop goes on to the next instruction through the links of
    the one it stands at ([++] of the iterator, after a [continue]); the
    outer loop goes on to the next block; the [apply] is read
    ([Apply->getType()], [Apply->getIterator()]); the builder links a new
    instruction in; the uses of the [apply] are replaced; the [apply] is
    erased; the flag is set. *)
Inductive Event :=
| EvVisit (bi ii id : nat)
| EvAdvance (id : nat)
| EvNextBlock (bi : nat)
| EvRead (id : nat)
| EvInsert (id : nat)
| EvReplaceUses (id : nat)
| EvErase (id : nat)
| EvSetCausedError.

(** The instruction a step reads or writes, if any. *)
Definition accessed (ev : Event) : option nat :=
  match ev with
  | EvVisit _ _ id | EvAdvance id | EvRead id | EvInsert id
  | EvReplaceUses id | EvErase id => Some id
  | EvNextBlock _ | EvSetCausedError => None
  end.

Definition is_scan (ev : Event) : bool :=
  match ev with
  | EvVisit _ _ _ | EvAdvance _ | EvNextBlock _ => true
  | _ => false
  end.

Definition is_erase (ev : Event) : bool :=
  match ev with EvErase _ => true | _ => false end.

(** The steps of an invocation so far, oldest first, each with the state
    it was taken in. *)
Definition History : Type := list (Event * State).

Inductive TOutcome (A : Type) :=
| TReturned (a : A) (s : State) (h : History)
| TAborted (why : Abort) (s : State) (h : History).
Arguments TReturned {A} a s h.
Arguments TAborted {A} why s h.

Definition history {A} (r : TOutcome A) : History :=
  match r with TReturned _ _ h | TAborted _ _ h => h end.

Definition outcome {A} (r : TOutcome A) : Outcome A :=
  match r with
  | TReturned a s _ => Returned a s
  | TAborted why s _ => Aborted why s
  end.

Definition TPass (A : Type) : Type := State → History → TOutcome A.

#[global] Instance TPass_ret : MRet TPass := λ A a s h, TReturned a s h.

#[global] Instance TPass_bind : MBind TPass := λ A B k m s h,
  match m s h with
  | TReturned a s' h' => k a s' h'
  | TAborted why s' h' => TAborted why s' h'
  end.

(** An operation of the pass that takes no step at an instruction of its
    own: the history stays as it is. *)
Definition untraced {A} (m : Pass A) : TPass A := λ s h,
  match m s with
  | Returned a s' => TReturned a s' h
  | Aborted why s' => TAborted why s' h
  end.

(** A step is written to the history, with the state it is taken in. *)
Definition record (ev : Event) : TPass unit :=
  λ s h, TReturned tt s (h ++ [(ev, s)]).

(** Lines 117-151, as [inject], with its steps. *)
Definition injectT (o : Options) (cur : string) (bi ii : nat)
  (Apply : SILInstruction) : TPass unit :=
  (if bool_decide (TargetFailureKind o = OptimizerCrasher)
   then untraced (llvm_unreachable "Found the target!") else mret tt);;
  if bool_decide (TargetFailureKind o = RuntimeMiscompile) then
    (* Apply->replaceAllUsesWith(SILUndef::get(Apply->getType(), M)) *)
    record (EvRead (inst_id Apply));;
    record (EvReplaceUses (inst_id Apply));;
    untraced (replaceAllUsesWith cur Apply (SILUndef (inst_type Apply)));;
    (* Apply->eraseFromParent() *)
    record (EvErase (inst_id Apply));;
    untraced (eraseFromParent cur bi ii);;
    (* CausedError = true; return *)
    record EvSetCausedError;;
    untraced (setCausedError true)
  else
    untraced (assert_ o (bool_decide (TargetFailureKind o = RuntimeCrasher))
                "TargetFailureKind == FailureKind::RuntimeCrasher");;
    RuntimeCrasherFunc ← untraced (getRuntimeCrasherFunction o);
    untraced (dbgs_print "Runtime Crasher Func!
");;
    untraced (dump RuntimeCrasherFunc);;
    (* SILBuilder B(Apply->getIterator()) *)
    record (EvRead (inst_id Apply));;
    FRI ← untraced (createFunctionRef cur bi ii RuntimeCrasherFunc);
    record (EvInsert FRI);;
    Call ← untraced (createApply cur bi (S ii) (InstResult FRI) EmptyTupleType
                       [] false);
    record (EvInsert Call);;
    (* Apply->replaceAllUsesWith(SILUndef::get(Apply->getType(), M)) *)
    record (EvRead (inst_id Apply));;
    record (EvReplaceUses (inst_id Apply));;
    untraced (replaceAllUsesWith cur Apply (SILUndef (inst_type Apply)));;
    (* Apply->eraseFromParent() *)
    record (EvErase (inst_id Apply));;
    untraced (eraseFromParent cur bi (S (S ii)));;
    (* CausedError = true; return *)
    record EvSetCausedError;;
    untraced (setCausedError true).

(** The body of the two loops, as [visit]. *)
Definition visitT (o : Options) (cur : string) (bi ii : nat)
  (II : SILInstruction) : TPass LoopCtl :=
  s ← untraced get;
  if negb (isTargetApply (getBlocks cur s) (FunctionTarget o) II)
  then mret Continue
  else injectT o cur bi ii II;; mret Return_.

(** The two loops, as [for_insts] and [for_blocks]: the inner loop takes a
    step when it binds [II], and one more, at the same instruction, when it
    goes on after a [continue]; after the early [return] it takes none. *)
Fixpoint for_instsT (body : nat → SILInstruction → TPass LoopCtl) (bi ii : nat)
  (BB : SILBasicBlock) : TPass LoopCtl :=
  match BB with
  | [] => mret Continue
  | II :: rest =>
      record (EvVisit bi ii (inst_id II));;
      c ← body ii II;
      match c with
      | Continue =>
          record (EvAdvance (inst_id II));; for_instsT body bi (S ii) rest
      | Return_ => mret Return_
      end
  end.

Fixpoint for_blocksT (body : nat → nat → SILInstruction → TPass LoopCtl)
  (bi : nat) (blocks : list SILBasicBlock) : TPass LoopCtl :=
  match blocks with
  | [] => mret Continue
  | BB :: rest =>
      c ← for_instsT (body bi) bi 0 BB;
      match c with
      | Continue => record (EvNextBlock bi);; for_blocksT body (S bi) rest
      | Return_ => mret Return_
      end
  end.

(** [run], lines 100-154, with its steps. *)
Definition runT (o : Options) (cur : string) : TPass unit :=
  s ← untraced get;
  if empty (FunctionTarget o) || CausedError s then mret tt else
  untraced (assert_ o (bool_decide (TargetFailureKind o ≠ None_))
              "TargetFailureKind != FailureKind::None");;
  for_blocksT (visitT o cur) 0 (getBlocks cur s);;
  mret tt.

(** The pass with its steps does what the pass does. *)
Definition refines {A} (mT : TPass A) (m : Pass A) : Prop :=
  ∀ s h, outcome (mT s h) = m s.

Definition scan_only (hs : History) : Prop :=
  Forall (λ e, is_scan e.1 = true) hs.

Definition no_erase (hs : History) : Prop :=
  Forall (λ e, is_erase e.1 = false) hs.

(* ===================================================================== *)
(** ** The Matcher                                                        *)
(* ===================================================================== *)

(** The scan of lines 107-115 on its own: the first position, blocks in
    order and instructions in order within a block, that holds a target
    apply, with the instruction found there. *)
Definition CallSite : Type := nat * nat * SILInstruction.

Fixpoint find_in_block (blocks : list SILBasicBlock) (target : string)
  (bi ii : nat) (BB : SILBasicBlock) : option CallSite :=
  match BB with
  | [] => None
  | II :: rest =>
      if isTargetApply blocks target II then Some (bi, ii, II)
      else find_in_block blocks target bi (S ii) rest
  end.

Fixpoint find_in_blocks (blocks : list SILBasicBlock) (target : string)
  (bi : nat) (bs : list SILBasicBlock) : option CallSite :=
  match bs with
  | [] => None
  | BB :: rest =>
      match find_in_block blocks target bi 0 BB with
      | Some site => Some site
      | None => find_in_blocks blocks target (S bi) rest
      end
  end.

Definition findTargetCall (blocks : list SILBasicBlock) (target : string)
  : option CallSite :=
  find_in_blocks blocks target 0 blocks.

(** The instruction at a position. *)
Definition inst_at (blocks : list SILBasicBlock) (bi ii : nat)
  : option SILInstruction :=
  BB ← blocks !! bi; BB !! ii.

(** Position [(bj, ij)] comes before [(bi, ii)] in the order of the scan. *)
Definition before (bj ij bi ii : nat) : Prop :=
  bj < bi ∨ (bj = bi ∧ ij < ii).

(** All target applies of a function, in the order of the scan. *)
Fixpoint sites_in_block (blocks : list SILBasicBlock) (target : string)
  (bi ii : nat) (BB : SILBasicBlock) : list CallSite :=
  match BB with
  | [] => []
  | II :: rest =>
      (if isTargetApply blocks target II then [(bi, ii, II)] else [])
      ++ sites_in_block blocks target bi (S ii) rest
  end.

Fixpoint sites_in_blocks (blocks : list SILBasicBlock) (target : string)
  (bi : nat) (bs : list SILBasicBlock) : list CallSite :=
  match bs with
  | [] => []
  | BB :: rest =>
      sites_in_block blocks target bi 0 BB
      ++ sites_in_blocks blocks target (S bi) rest
  end.

Definition target_sites (blocks : list SILBasicBlock) (target : string)
  : list CallSite :=
  sites_in_blocks blocks target 0 blocks.

(** All target applies the pass manager's worklist will come across, in
    function-then-block-then-instruction order. *)
Fixpoint run_sites (M : SILModule) (target : string) (worklist : list string)
  : list (string * CallSite) :=
  match worklist with
  | [] => []
  | F :: rest =>
      (pair F <$> target_sites (from_option fn_blocks [] (M !! F)) target)
      ++ run_sites M target rest
  end.

(* ===================================================================== *)
(** ** What the injections leave behind                                   *)
(* ===================================================================== *)

(** The use replacement of lines 125 and 147: readers of the apply's result
    read an undef of the apply's type. *)
Definition undef_uses (Apply : SILInstruction) : SILInstruction → SILInstruction :=
  subst_inst (inst_id Apply) (SILUndef (inst_type Apply)).

(** The body of the function after the miscompile injection at position
    [ii] of block [bi]. *)
Definition miscompile_blocks (bi ii : nat) (Apply : SILInstruction)
  (bs : list SILBasicBlock) : list SILBasicBlock :=
  alter (delete ii) bi (lmap (lmap (undef_uses Apply)) bs).

(** The two instructions the crasher injection builds, given the body [bs]
    of the function before the injection and the type [fty] of the stub. *)
Definition crasher_ref (fty : SILType) (bs : list SILBasicBlock) : SILInstruction :=
  mkInst (fresh_id bs) (FunctionRefInst RuntimeCrasherFunctionName) fty.

Definition crasher_apply (bs : list SILBasicBlock) : SILInstruction :=
  mkInst (S (fresh_id bs)) (ApplyInst (InstResult (fresh_id bs)) [] false)
         EmptyTupleType.

(** The body of the function after the crasher injection at position [ii]
    of block [bi]: a [function_ref] to the stub and an apply of it are put
    in front of the apply, whose uses are replaced and which is erased. *)
Definition crasher_blocks (fty : SILType) (bi ii : nat) (Apply : SILInstruction)
  (bs : list SILBasicBlock) : list SILBasicBlock :=
  let FRI := mkInst (fresh_id bs) (FunctionRefInst RuntimeCrasherFunctionName) fty in
  let bs1 := alter (λ l, take ii l ++ FRI :: drop ii l) bi bs in
  let NewApply :=
    mkInst (fresh_id bs1) (ApplyInst (InstResult (fresh_id bs)) [] false)
           EmptyTupleType in
  let bs2 := alter (λ l, take (S ii) l ++ NewApply :: drop (S ii) l) bi bs1 in
  alter (delete (S (S ii))) bi (lmap (lmap (undef_uses Apply)) bs2).

(** The body after the crasher injection, around the two new instructions. *)
Definition crasher_blocks_shape (fty : SILType) (Apply : SILInstruction)
  (pre_bs : list SILBasicBlock) (pre post : SILBasicBlock)
  (post_bs : list SILBasicBlock) : list SILBasicBlock :=
  let bs := pre_bs ++ (pre ++ Apply :: post) :: post_bs in
  lmap (lmap (undef_uses Apply)) pre_bs
  ++ (lmap (undef_uses Apply) pre ++ crasher_ref fty bs :: crasher_apply bs
        :: lmap (undef_uses Apply) post)
  :: lmap (lmap (undef_uses Apply)) post_bs.

(** The body the stub gets when the pass defines it. *)
Definition crasher_body : list SILBasicBlock :=
  [[mkInst 1 BuiltinTrapInst EmptyTupleType;
    mkInst 2 UnreachableInst EmptyTupleType]].

(** The module after [getRuntimeCrasherFunction]. *)
Definition with_crasher_stub (M : SILModule) : SILModule :=
  match M !! RuntimeCrasherFunctionName with
  | Some F =>
      if is_definition F then M
      else <[RuntimeCrasherFunctionName := set_blocks F crasher_body]> M
  | None =>
      <[RuntimeCrasherFunctionName :=
          mkFunction (ThinFunctionType EmptyTupleType) LinkInternal
                     true false true false crasher_body]> M
  end.

(** Every instruction is its own object: no two share an identifier. *)
Definition unique_ids (bs : list SILBasicBlock) : Prop :=
  NoDup (inst_id <$> all_insts bs).

(** The failure kinds that delete the call. *)
Definition deletes_call (k : FailureKind) : bool :=
  match k with
  | RuntimeMiscompile | RuntimeCrasher => true
  | _ => false
  end.

(** The options under which the pass gets as far as erasing a call: the two
    kinds that delete it, and the kind [None] when the assertions that rule
    it out are compiled out. *)
Definition erases_call (o : Options) : bool :=
  match TargetFailureKind o with
  | RuntimeMiscompile | RuntimeCrasher => true
  | None_ => NDEBUG o
  | OptimizerCrasher => false
  end.

(** The instruction is a call whose callee is a direct FunctionReference to
    a function called [target]. *)
Definition is_direct_call_to (blocks : list SILBasicBlock) (target : string)
  (II : SILInstruction) : Prop :=
  ∃ callee args nothrow FRI,
    inst_kind II = ApplyInst callee args nothrow ∧
    getDefiningInst blocks callee = Some FRI ∧
    inst_kind FRI = FunctionRefInst target.

(** The states the pass object can be in: [CausedError] starts as [false]
    (line 66), the pass runs on one function after the other, and other
    passes may change the module and write to the debug stream in between. *)
Inductive reachable (o : Options) : State → Prop :=
| reachable_fresh M d : reachable o (mkState false M d)
| reachable_run s F s' :
    reachable o s → run o F s = Returned tt s' → reachable o s'
| reachable_other s M d :
    reachable o s → reachable o (mkState (CausedError s) M d).

(* ===================================================================== *)
(** ** A small module to run the pass on                                  *)
(* ===================================================================== *)

Definition ex_Int : SILType := NamedType "Int".

Definition ex_decl (ty : SILType) : SILFunction :=
  mkFunction ty LinkPublic false false false false [].

(** [caller] calls [foo] twice, the second time with the first result;
    [other] calls [foo] once, after a call through a block argument. *)
Definition ex_caller : SILFunction :=
  mkFunction (ThinFunctionType ex_Int) LinkPublic false false false false
    [[mkInst 0 (FunctionRefInst "foo") (ThinFunctionType ex_Int);
      mkInst 1 (ApplyInst (InstResult 0) [] false) ex_Int;
      mkInst 2 (OtherInst "debug_value" [InstResult 1]) EmptyTupleType;
      mkInst 3 (ApplyInst (InstResult 0) [InstResult 1] false) ex_Int;
      mkInst 4 (OtherInst "return" [InstResult 1]) EmptyTupleType]].

Definition ex_other : SILFunction :=
  mkFunction (ThinFunctionType ex_Int) LinkPublic false false false false
    [[mkInst 0 (ApplyInst (BlockArgument 0 0) [] false) ex_Int;
      mkInst 1 (OtherInst "br" []) EmptyTupleType];
     [mkInst 2 (FunctionRefInst "foo") (ThinFunctionType ex_Int);
      mkInst 3 (ApplyInst (InstResult 2) [] false) ex_Int;
      mkInst 4 (OtherInst "return" [InstResult 3]) EmptyTupleType]].

Definition ex_module : SILModule :=
  <["caller" := ex_caller]> (<["other" := ex_other]>
    (<["foo" := ex_decl (ThinFunctionType ex_Int)]> ∅)).

Definition ex_state : State := mkState false ex_module [].

(** A module in which a function with the name of the stub is already
    defined, with a body that only returns. *)
Definition ex_user_stub : SILFunction :=
  mkFunction (ThinFunctionType EmptyTupleType) LinkInternal true false true false
    [[mkInst 0 (OtherInst "tuple" []) EmptyTupleType;
      mkInst 1 (OtherInst "return" [InstResult 0]) EmptyTupleType]].

Definition ex_module_stub : SILModule :=
  <[RuntimeCrasherFunctionName := ex_user_stub]> ex_module.

Definition ex_state_stub : State := mkState false ex_module_stub [].

(** A module in which the function with the name of the stub, of the
    stub's type, itself calls [foo]. *)
Definition ex_stub_calls_foo : SILFunction :=
  mkFunction (ThinFunctionType EmptyTupleType) LinkInternal true false true false
    [[mkInst 0 (FunctionRefInst "foo") (ThinFunctionType ex_Int);
      mkInst 1 (ApplyInst (InstResult 0) [] false) ex_Int;
      mkInst 2 (OtherInst "tuple" []) EmptyTupleType;
      mkInst 3 (OtherInst "return" [InstResult 2]) EmptyTupleType]].

Definition ex_module_self : SILModule :=
  <[RuntimeCrasherFunctionName := ex_stub_calls_foo]> ex_module.

Definition ex_state_self : State := mkState false ex_module_self [].
(* ===================================================================== *)
(** ** Notions for the properties of the whole pass                       *)
(* ===================================================================== *)

(** Two functions that differ at most in their bodies. *)
Definition same_signature (F F' : SILFunction) : Prop :=
  fn_type F' = fn_type F ∧ fn_linkage F' = fn_linkage F ∧
  fn_bare F' = fn_bare F ∧ fn_transparent F' = fn_transparent F ∧
  fn_fragile F' = fn_fragile F ∧ fn_thunk F' = fn_thunk F.

(** A call site after the injection at position [ii] of block [bi]: in that
    block it stands [shift] places from where it stood, elsewhere where it
    stood, and its instruction has the uses of the erased call replaced. *)
Definition moved_site (shift : nat → nat) (bi : nat) (Apply : SILInstruction)
  (site : CallSite) : CallSite :=
  (site.1.1,
   if decide (site.1.1 = bi) then shift site.1.2 else site.1.2,
   undef_uses Apply site.2).

(* ===================================================================== *)
(** ** The option [-bug-reducer-tester-failure-kind]                       *)
(* ===================================================================== *)

(** Lines 50-58: the values the option takes on the command line, each
    with the failure kind it stands for.  [FailureKind::None] is not among
    them. *)
Definition TargetFailureKind_values : list (string * FailureKind) :=
  [("opt-crasher", OptimizerCrasher);
   ("miscompile", RuntimeMiscompile);
   ("runtime-crasher", RuntimeCrasher)].

(** Modelled from the spec: [llvm::cl::opt] with [llvm::cl::values] and
    [llvm::cl::init] (LLVM library, missing here).  Without the option on
    the command line the kind is the initial one, [None] (line 59); with it,
    the kind is the one listed for the value given, and a value that is not
    listed is rejected, before the pass ever runs. *)
Definition parse_TargetFailureKind (arg : option string) : option FailureKind :=
  match arg with
  | None => Some None_
  | Some value =>
      snd <$> List.find (λ entry, String.eqb entry.1 value)
                        TargetFailureKind_values
  end.

(** Line 161 with line 66: [createBugReducerTester] makes a new pass
    object, whose flag is not set.  The module and the debug stream are not
    the pass object's own and stay what they are. *)
Definition createBugReducerTester (s : State) : State :=
  mkState false (Mod s) (dbgs s).

(* ===================================================================== *)
(** ** Reasoning about the monad and the loops                            *)
(* ===================================================================== *)

Ltac unfold_pass :=
  unfold mbind, Pass_bind, mret, Pass_ret, get, modify, assert_,
    llvm_unreachable in *.

Lemma bind_Returned {A B} (m : Pass A) (k : A → Pass B) s a s' :
  m s = Returned a s' → (m ≫= k) s = k a s'.
Proof. unfold_pass. by intros ->. Qed.

Lemma bind_Aborted {A B} (m : Pass A) (k : A → Pass B) s why s' :
  m s = Aborted why s' → (m ≫= k) s = Aborted why s'.
Proof. unfold_pass. by intros ->. Qed.

Section loops.
Context (o : Options) (cur : string).

(** A visit that does not find the target changes nothing. *)
Lemma visit_no_target bi ii II s :
  isTargetApply (getBlocks cur s) (FunctionTarget o) II = false →
  visit o cur bi ii II s = Returned Continue s.
Proof. unfold visit. unfold_pass. by intros ->. Qed.

Lemma visit_target bi ii II s :
  isTargetApply (getBlocks cur s) (FunctionTarget o) II = true →
  visit o cur bi ii II s = (inject o cur bi ii II;; mret Return_) s.
Proof. unfold visit. unfold_pass. by intros ->. Qed.

(** The inner loop is the scan of the block, followed by the injection
    at what the scan finds. *)
Lemma for_insts_find bi BB : ∀ ii s,
  for_insts (visit o cur bi) ii BB s =
  match find_in_block (getBlocks cur s) (FunctionTarget o) bi ii BB with
  | Some (b, i, Apply) => (inject o cur b i Apply;; mret Return_) s
  | None => Returned Continue s
  end.
Proof.
  induction BB as [|II rest IH]; intros ii s; simpl; [done|].
  destruct (isTargetApply (getBlocks cur s) (FunctionTarget o) II) eqn:E.
  - unfold mbind at 1, Pass_bind at 1. rewrite visit_target by done.
    unfold_pass. by destruct (inject o cur bi ii II s).
  - erewrite bind_Returned by (by apply visit_no_target). apply IH.
Qed.
End loops.

Section matcher.
Context (blocks : list SILBasicBlock) (target : string).

Lemma find_in_block_Some bi BB : ∀ ii0 b i II,
  find_in_block blocks target bi ii0 BB = Some (b, i, II) ↔
  b = bi ∧ ii0 ≤ i ∧ BB !! (i - ii0) = Some II ∧
  isTargetApply blocks target II = true ∧
  ∀ k J, k < i - ii0 → BB !! k = Some J → isTargetApply blocks target J = false.
Proof.
  induction BB as [|II0 rest IH]; intros ii0 b i II; simpl.
  { split; [done|]. by intros (_ & _ & ? & _). }
  destruct (isTargetApply blocks target II0) eqn:E.
  - split.
    + intros [= <- <- <-]. replace (ii0 - ii0) with 0 by lia.
      repeat split; auto with lia.
    + intros (-> & Hle & Hlk & _ & Hbefore).
      destruct (i - ii0) as [|m] eqn:Em.
      * simpl in Hlk. injection Hlk as <-. by replace i with ii0 by lia.
      * specialize (Hbefore 0 II0 ltac:(lia) eq_refl). congruence.
  - rewrite IH. split.
    + intros (-> & Hle & Hlk & Ht & Hbefore).
      replace (i - ii0) with (S (i - S ii0)) by lia.
      repeat split; auto with lia.
      intros [|k] J Hk HJ; simpl in HJ; [congruence|].
      apply (Hbefore k); [lia|done].
    + intros (-> & Hle & Hlk & Ht & Hbefore).
      destruct (i - ii0) as [|m] eqn:Em.
      { simpl in Hlk. congruence. }
      simpl in Hlk. replace (i - S ii0) with m by lia.
      repeat split; auto with lia.
      intros k J Hk HJ. apply (Hbefore (S k)); [lia|done].
Qed.

Lemma find_in_block_None bi BB : ∀ ii0,
  find_in_block blocks target bi ii0 BB = None ↔
  ∀ k J, BB !! k = Some J → isTargetApply blocks target J = false.
Proof.
  induction BB as [|II0 rest IH]; intros ii0; simpl.
  { split; [by intros _ k J|done]. }
  destruct (isTargetApply blocks target II0) eqn:E.
  - split; [done|]. intros H. specialize (H 0 II0 eq_refl). congruence.
  - rewrite IH. split.
    + intros H [|k] J HJ; simpl in HJ; [congruence|by eapply H].
    + intros H k J HJ. by apply (H (S k)).
Qed.

Lemma find_in_blocks_Some bs : ∀ bi0 b i II,
  find_in_blocks blocks target bi0 bs = Some (b, i, II) ↔
  bi0 ≤ b ∧ inst_at bs (b - bi0) i = Some II ∧
  isTargetApply blocks target II = true ∧
  ∀ bj ij J, before bj ij (b - bi0) i → inst_at bs bj ij = Some J →
             isTargetApply blocks target J = false.
Proof.
  unfold inst_at, before.
  induction bs as [|BB rest IH]; intros bi0 b i II; simpl.
  { split; [done|]. by intros (_ & ? & _). }
  destruct (find_in_block blocks target bi0 0 BB) as [[[b' i'] II']|] eqn:E.
  - apply find_in_block_Some in E as (-> & _ & Hlk & Ht & Hbefore).
    rewrite Nat.sub_0_r in Hlk, Hbefore. split.
    + intros [= <- <- <-]. replace (bi0 - bi0) with 0 by lia. simpl.
      repeat split; auto with lia.
      intros bj ij J [?|[-> ?]] HJ; [lia|]. simpl in HJ. by eapply Hbefore.
    + intros (Hle & Hlk' & Ht' & Hbefore').
      destruct (b - bi0) as [|m] eqn:Em; simpl in Hlk'.
      * assert (b = bi0) as -> by lia.
        destruct (Nat.lt_total i i') as [Hlt|[->|Hlt]].
        -- specialize (Hbefore i II Hlt Hlk'). congruence.
        -- by simplify_eq.
        -- specialize (Hbefore' 0 i' II' ltac:(lia) Hlk). congruence.
      * specialize (Hbefore' 0 i' II' ltac:(lia) Hlk). congruence.
  - rewrite find_in_block_None in E. rewrite IH. split.
    + intros (Hle & Hlk & Ht & Hbefore).
      replace (b - bi0) with (S (b - S bi0)) by lia. simpl.
      repeat split; auto with lia.
      intros [|bj] ij J Hb HJ; simpl in HJ; [by eapply E|].
      apply (Hbefore bj ij); [lia|done].
    + intros (Hle & Hlk & Ht & Hbefore).
      destruct (b - bi0) as [|m] eqn:Em; simpl in Hlk.
      { apply E in Hlk. congruence. }
      replace (b - S bi0) with m by lia.
      repeat split; auto with lia.
      intros bj ij J Hb HJ. apply (Hbefore (S bj) ij); [lia|done].
Qed.

Lemma find_in_blocks_None bs : ∀ bi0,
  find_in_blocks blocks target bi0 bs = None ↔
  ∀ bj ij J, inst_at bs bj ij = Some J → isTargetApply blocks target J = false.
Proof.
  unfold inst_at.
  induction bs as [|BB rest IH]; intros bi0; simpl.
  { split; [by intros _ bj ij J|done]. }
  destruct (find_in_block blocks target bi0 0 BB) as [[[b' i'] II']|] eqn:E.
  - apply find_in_block_Some in E as (-> & _ & Hlk & Ht & _).
    rewrite Nat.sub_0_r in Hlk.
    split; [done|]. intros H. specialize (H 0 i' II' Hlk). congruence.
  - rewrite find_in_block_None in E. rewrite IH. split.
    + intros H [|bj] ij J HJ; simpl in HJ; [by eapply E|by eapply H].
    + intros H bj ij J HJ. by apply (H (S bj) ij).
Qed.
End matcher.

Lemma findTargetCall_Some blocks target bi ii II :
  findTargetCall blocks target = Some (bi, ii, II) ↔
  inst_at blocks bi ii = Some II ∧
  isTargetApply blocks target II = true ∧
  ∀ bj ij J, before bj ij bi ii → inst_at blocks bj ij = Some J →
             isTargetApply blocks target J = false.
Proof.
  unfold findTargetCall. rewrite find_in_blocks_Some, Nat.sub_0_r.
  intuition lia.
Qed.

Lemma findTargetCall_None blocks target :
  findTargetCall blocks target = None ↔
  ∀ bj ij J, inst_at blocks bj ij = Some J → isTargetApply blocks target J = false.
Proof. apply find_in_blocks_None. Qed.

(** The first of all target applies is the one the scan finds. *)
Lemma head_sites_in_block blocks target bi BB : ∀ ii,
  head (sites_in_block blocks target bi ii BB)
  = find_in_block blocks target bi ii BB.
Proof.
  induction BB as [|II rest IH]; intros ii; simpl; [done|].
  destruct (isTargetApply blocks target II); simpl; [done|apply IH].
Qed.

Lemma head_sites_in_blocks blocks target bs : ∀ bi,
  head (sites_in_blocks blocks target bi bs)
  = find_in_blocks blocks target bi bs.
Proof.
  induction bs as [|BB rest IH]; intros bi; simpl; [done|].
  rewrite <- head_sites_in_block, <- IH.
  by destruct (sites_in_block blocks target bi 0 BB).
Qed.

Lemma head_target_sites blocks target :
  head (target_sites blocks target) = findTargetCall blocks target.
Proof. apply head_sites_in_blocks. Qed.

Lemma target_sites_nil blocks target :
  target_sites blocks target = [] ↔ findTargetCall blocks target = None.
Proof.
  rewrite <- head_target_sites. by destruct (target_sites blocks target).
Qed.

(** The first target apply of a worklist: the functions before its
    function have none, and it is the first of its function. *)
Lemma run_sites_first M target worklist F site rest :
  run_sites M target worklist = (F, site) :: rest →
  ∃ pre post, worklist = pre ++ F :: post ∧
    (∀ G, G ∈ pre →
       findTargetCall (from_option fn_blocks [] (M !! G)) target = None) ∧
    findTargetCall (from_option fn_blocks [] (M !! F)) target = Some site.
Proof.
  induction worklist as [|G wl IH]; simpl; [done|].
  destruct (target_sites (from_option fn_blocks [] (M !! G)) target)
    as [|site' sites] eqn:E; simpl.
  - intros H. destruct (IH H) as (pre & post & -> & Hpre & HF).
    exists (G :: pre), post. split; [done|]. split; [|done].
    intros G' [->|?]%elem_of_cons; [|by apply Hpre].
    by apply target_sites_nil.
  - intros [= -> -> _]. exists [], wl. split; [done|].
    split; [by intros ? ?%elem_of_nil|].
    by rewrite <- head_target_sites, E.
Qed.

Section run.
Context (o : Options).

Lemma for_blocks_find cur bs : ∀ bi s,
  for_blocks (visit o cur) bi bs s =
  match find_in_blocks (getBlocks cur s) (FunctionTarget o) bi bs with
  | Some (b, i, Apply) => (inject o cur b i Apply;; mret Return_) s
  | None => Returned Continue s
  end.
Proof.
  induction bs as [|BB rest IH]; intros bi s; simpl; [done|].
  unfold mbind at 1, Pass_bind at 1. rewrite for_insts_find.
  destruct (find_in_block _ _ _ _ _) as [[[b i] Apply]|]; [|apply IH].
  unfold_pass. by destruct (inject o cur b i Apply s).
Qed.

(** When the flag is set the pass returns at once. *)
Lemma run_CausedError cur s :
  CausedError s = true → run o cur s = Returned tt s.
Proof.
  intros H. unfold run. unfold_pass. rewrite H.
  by rewrite orb_true_r.
Qed.

(** Without a target the pass returns at once. *)
Lemma run_no_target cur s :
  FunctionTarget o = "" → run o cur s = Returned tt s.
Proof. intros H. unfold run. unfold_pass. by rewrite H. Qed.

Lemma empty_false str : str ≠ "" → empty str = false.
Proof. by destruct str. Qed.

(** Past the guard and the assertion, the pass is the scan followed by
    the injection at what the scan finds. *)
Lemma run_scan cur s :
  FunctionTarget o ≠ "" → CausedError s = false →
  NDEBUG o || bool_decide (TargetFailureKind o ≠ None_) = true →
  run o cur s =
  match findTargetCall (getBlocks cur s) (FunctionTarget o) with
  | Some (bi, ii, Apply) => inject o cur bi ii Apply s
  | None => Returned tt s
  end.
Proof.
  intros Ht Hf Ha. unfold run.
  unfold mbind at 1, Pass_bind at 1, get. simpl.
  rewrite (empty_false _ Ht), Hf. simpl.
  unfold mbind at 1, Pass_bind at 1, assert_. rewrite Ha.
  unfold mbind at 1, Pass_bind at 1. rewrite for_blocks_find.
  fold (findTargetCall (getBlocks cur s) (FunctionTarget o)).
  destruct (findTargetCall _ _) as [[[b i] Apply]|]; [|done].
  unfold_pass. by destruct (inject o cur b i Apply s) as [[] ?|].
Qed.

(** With assertions on, the failure kind [None] stops at the assertion. *)
Lemma run_None_asserts cur s :
  FunctionTarget o ≠ "" → CausedError s = false →
  TargetFailureKind o = None_ → NDEBUG o = false →
  run o cur s =
  Aborted (AssertionFailure "TargetFailureKind != FailureKind::None") s.
Proof.
  intros Ht Hf Hk Hn. unfold run. unfold_pass.
  by rewrite (empty_false _ Ht), Hf, Hk, Hn.
Qed.
End run.

(* ===================================================================== *)
(** ** The SIL operations on a function the module knows                  *)
(* ===================================================================== *)

Lemma set_Mod_id s : set_Mod s (Mod s) = s.
Proof. by destruct s. Qed.

Lemma getBlocks_Some name s F :
  Mod s !! name = Some F → getBlocks name s = fn_blocks F.
Proof. unfold getBlocks. by intros ->. Qed.

Lemma modifyFunction_Some name g s F :
  Mod s !! name = Some F →
  modifyFunction name g s
  = Returned tt (set_Mod s (<[name := set_blocks F (g (fn_blocks F))]> (Mod s))).
Proof.
  intros H. unfold modifyFunction, modify. f_equal. unfold set_Mod. f_equal.
  apply map_eq. intros j. rewrite lookup_alter, lookup_insert.
  case_decide; subst; by rewrite ?H.
Qed.

Lemma insertInst_Some F bb pos k ty s Fn :
  Mod s !! F = Some Fn →
  insertInst F bb pos k ty s
  = Returned (fresh_id (fn_blocks Fn))
      (set_Mod s (<[F := set_blocks Fn
         (alter (λ l, take pos l ++ mkInst (fresh_id (fn_blocks Fn)) k ty :: drop pos l)
                bb (fn_blocks Fn))]> (Mod s))).
Proof.
  intros H. unfold insertInst.
  unfold mbind at 1, Pass_bind at 1, get.
  erewrite bind_Returned by (by apply modifyFunction_Some).
  by rewrite (getBlocks_Some _ _ _ H).
Qed.

(* ===================================================================== *)
(** ** Positions in a function body                                       *)
(* ===================================================================== *)

(** A position that holds an instruction splits the body around it. *)
Lemma inst_at_split bs bi ii II :
  inst_at bs bi ii = Some II →
  ∃ pre_bs pre post post_bs,
    bs = pre_bs ++ (pre ++ II :: post) :: post_bs ∧
    length pre_bs = bi ∧ length pre = ii.
Proof.
  unfold inst_at. intros H.
  destruct (bs !! bi) as [BB|] eqn:EB; simpl in H; [|done].
  exists (take bi bs), (take ii BB), (drop (S ii) BB), (drop (S bi) bs).
  rewrite (take_drop_middle BB ii II H), (take_drop_middle bs bi BB EB).
  split; [done|].
  apply lookup_lt_Some in EB, H. rewrite !length_take. lia.
Qed.

Lemma inst_at_middle pre_bs (pre : SILBasicBlock) II post post_bs :
  inst_at (pre_bs ++ (pre ++ II :: post) :: post_bs) (length pre_bs) (length pre)
  = Some II.
Proof.
  unfold inst_at. rewrite list_lookup_middle by done. simpl.
  by rewrite list_lookup_middle.
Qed.

Lemma lookup_middle_ne {A} (pre : list A) x y post j :
  j ≠ length pre → (pre ++ x :: post) !! j = (pre ++ y :: post) !! j.
Proof.
  intros Hne. destruct (decide (j < length pre)).
  - by rewrite !lookup_app_l.
  - rewrite !lookup_app_r by lia.
    destruct (j - length pre) as [|m] eqn:E; [lia|done].
Qed.

Lemma alter_middle {A} (f : A → A) (pre : list A) x post :
  alter f (length pre) (pre ++ x :: post) = pre ++ f x :: post.
Proof. by rewrite alter_app_r_alt, Nat.sub_diag by lia. Qed.

Lemma delete_middle {A} (pre : list A) x post :
  delete (length pre) (pre ++ x :: post) = pre ++ post.
Proof.
  rewrite delete_take_drop, take_app_length. f_equal.
  replace (pre ++ x :: post) with ((pre ++ [x]) ++ post)
    by by rewrite <- (assoc_L (++)).
  apply drop_app_length'. rewrite length_app. simpl. lia.
Qed.

Lemma insert_middle {A} (pre : list A) x post :
  take (length pre) (pre ++ post) ++ x :: drop (length pre) (pre ++ post)
  = pre ++ x :: post.
Proof. by rewrite take_app_length, drop_app_length. Qed.

(** Identifiers. *)
Lemma fresh_id_gt bs J : J ∈ all_insts bs → inst_id J < fresh_id bs.
Proof.
  intros H. unfold fresh_id.
  assert (inst_id J ≤ max_list (inst_id <$> all_insts bs)); [|lia].
  apply max_list_elem_of_le, list_elem_of_fmap. eauto.
Qed.

Lemma all_insts_middle pre_bs (BB : SILBasicBlock) post_bs :
  all_insts (pre_bs ++ BB :: post_bs)
  = all_insts pre_bs ++ BB ++ all_insts post_bs.
Proof. unfold all_insts. by rewrite concat_app. Qed.

Lemma fresh_id_insert pre_bs (pre : SILBasicBlock) J post post_bs :
  inst_id J = fresh_id (pre_bs ++ (pre ++ post) :: post_bs) →
  fresh_id (pre_bs ++ (pre ++ J :: post) :: post_bs)
  = S (fresh_id (pre_bs ++ (pre ++ post) :: post_bs)).
Proof.
  intros HJ. unfold fresh_id at 1. f_equal.
  rewrite all_insts_middle.
  assert (all_insts pre_bs ++ (pre ++ J :: post) ++ all_insts post_bs
          ≡ₚ J :: all_insts (pre_bs ++ (pre ++ post) :: post_bs)) as ->.
  { rewrite all_insts_middle.
    rewrite <- (assoc_L (++) pre (J :: post)). simpl.
    rewrite (assoc_L (++) (all_insts pre_bs) pre).
    rewrite <- Permutation_middle.
    by rewrite <- !(assoc_L (++)). }
  rewrite fmap_cons. simpl. rewrite HJ. unfold fresh_id. lia.
Qed.

(* ===================================================================== *)
(** ** The injections                                                     *)
(* ===================================================================== *)

Lemma undef_uses_blocks_middle Apply pre_bs (pre : SILBasicBlock) II post post_bs :
  lmap (lmap (undef_uses Apply)) (pre_bs ++ (pre ++ II :: post) :: post_bs)
  = lmap (lmap (undef_uses Apply)) pre_bs
    ++ (lmap (undef_uses Apply) pre ++ undef_uses Apply II
          :: lmap (undef_uses Apply) post)
    :: lmap (lmap (undef_uses Apply)) post_bs.
Proof. by rewrite fmap_app, fmap_cons, fmap_app, fmap_cons. Qed.

Lemma miscompile_blocks_middle Apply pre_bs (pre : SILBasicBlock) post post_bs :
  miscompile_blocks (length pre_bs) (length pre) Apply
    (pre_bs ++ (pre ++ Apply :: post) :: post_bs)
  = lmap (lmap (undef_uses Apply)) pre_bs
    ++ (lmap (undef_uses Apply) pre ++ lmap (undef_uses Apply) post)
    :: lmap (lmap (undef_uses Apply)) post_bs.
Proof.
  unfold miscompile_blocks. rewrite undef_uses_blocks_middle.
  rewrite <- (length_fmap (lmap (undef_uses Apply)) pre_bs), alter_middle.
  by rewrite <- (length_fmap (undef_uses Apply) pre), delete_middle.
Qed.

Section inject.
Context (o : Options) (cur : string).

(** Lines 124-132. *)
Lemma inject_miscompile_eq bi ii Apply s F :
  TargetFailureKind o = RuntimeMiscompile →
  Mod s !! cur = Some F →
  inject o cur bi ii Apply s
  = Returned tt
      (mkState true
         (<[cur := set_blocks F (miscompile_blocks bi ii Apply (fn_blocks F))]> (Mod s))
         (dbgs s)).
Proof.
  intros Hk HF. unfold inject. rewrite Hk. simpl.
  unfold mbind at 1, Pass_bind at 1, mret, Pass_ret.
  unfold replaceAllUsesWith, eraseFromParent.
  erewrite bind_Returned by (by apply modifyFunction_Some).
  erewrite bind_Returned
    by (apply modifyFunction_Some; simpl; apply lookup_insert_eq).
  unfold setCausedError, modify. simpl. by rewrite insert_insert_eq.
Qed.

(** Lines 119-120. *)
Lemma inject_crash_optimizer bi ii Apply s :
  TargetFailureKind o = OptimizerCrasher →
  inject o cur bi ii Apply s
  = Aborted (LLVMUnreachable "Found the target!") s.
Proof. intros Hk. unfold inject. by rewrite Hk. Qed.
End inject.

(** [getRuntimeCrasherFunction]: the stub is found, or made. *)
Lemma getRuntimeCrasherFunction_eq o s :
  NDEBUG o || bool_decide (TargetFailureKind o = RuntimeCrasher) = true →
  getRuntimeCrasherFunction o s
  = Returned RuntimeCrasherFunctionName (set_Mod s (with_crasher_stub (Mod s))).
Proof.
  intros Ha. unfold getRuntimeCrasherFunction.
  unfold mbind at 1, Pass_bind at 1, assert_. rewrite Ha.
  unfold with_crasher_stub, getOrCreateSharedFunction.
  unfold mbind at 1, Pass_bind at 1. unfold mbind at 1, Pass_bind at 1, get.
  destruct (Mod s !! RuntimeCrasherFunctionName) as [F|] eqn:EF.
  - unfold mret at 1, Pass_ret at 1.
    unfold mbind at 1, Pass_bind at 1, isDefinition.
    unfold mbind at 1, Pass_bind at 1, get, mret at 1, Pass_ret at 1.
    rewrite EF. simpl.
    destruct (is_definition F) eqn:ED; [by rewrite set_Mod_id|].
    assert (fn_blocks F = []) as HB.
    { unfold is_definition in ED. by destruct (fn_blocks F). }
    unfold createBasicBlock.
    unfold mbind at 1, Pass_bind at 1. unfold mbind at 1, Pass_bind at 1, get.
    erewrite bind_Returned by (by apply modifyFunction_Some).
    unfold mret at 1, Pass_ret at 1. rewrite (getBlocks_Some _ _ _ EF), HB.
    simpl. unfold endOfBlock.
    unfold mbind at 1, Pass_bind at 1. unfold mbind at 1, Pass_bind at 1, get.
    unfold mret at 1, Pass_ret at 1.
    erewrite getBlocks_Some by (simpl; apply lookup_insert_eq). simpl.
    unfold createBuiltinTrap, createUnreachable.
    erewrite bind_Returned
      by (apply insertInst_Some; simpl; apply lookup_insert_eq).
    erewrite bind_Returned
      by (apply insertInst_Some; simpl; apply lookup_insert_eq).
    unfold mret, Pass_ret, set_Mod. simpl. by rewrite !insert_insert_eq.
  - unfold mbind at 1, Pass_bind at 1, modify, mret at 1, Pass_ret at 1.
    unfold mbind at 1, Pass_bind at 1, isDefinition.
    unfold mbind at 1, Pass_bind at 1, get, mret at 1, Pass_ret at 1.
    simpl. rewrite lookup_insert_eq. simpl.
    unfold createBasicBlock.
    unfold mbind at 1, Pass_bind at 1. unfold mbind at 1, Pass_bind at 1, get.
    erewrite bind_Returned
      by (apply modifyFunction_Some; simpl; apply lookup_insert_eq).
    unfold mret at 1, Pass_ret at 1.
    erewrite getBlocks_Some by (simpl; apply lookup_insert_eq). simpl.
    unfold endOfBlock.
    unfold mbind at 1, Pass_bind at 1. unfold mbind at 1, Pass_bind at 1, get.
    unfold mret at 1, Pass_ret at 1.
    erewrite getBlocks_Some by (simpl; apply lookup_insert_eq). simpl.
    unfold createBuiltinTrap, createUnreachable.
    erewrite bind_Returned
      by (apply insertInst_Some; simpl; apply lookup_insert_eq).
    erewrite bind_Returned
      by (apply insertInst_Some; simpl; apply lookup_insert_eq).
    unfold mret, Pass_ret, set_Mod. simpl. by rewrite !insert_insert_eq.
Qed.

(** The module after the stub was looked up. *)
Lemma with_crasher_stub_ne M name :
  name ≠ RuntimeCrasherFunctionName →
  with_crasher_stub M !! name = M !! name.
Proof.
  intros Hne. unfold with_crasher_stub.
  destruct (M !! RuntimeCrasherFunctionName) as [F|]; [destruct (is_definition F)|];
    by rewrite ?lookup_insert_ne.
Qed.

Lemma with_crasher_stub_defined_id M F :
  M !! RuntimeCrasherFunctionName = Some F → is_definition F = true →
  with_crasher_stub M = M.
Proof. unfold with_crasher_stub. by intros -> ->. Qed.

Lemma with_crasher_stub_definition M name F :
  M !! name = Some F → is_definition F = true →
  with_crasher_stub M !! name = Some F.
Proof.
  intros HF HD. destruct (decide (name = RuntimeCrasherFunctionName)) as [->|Hne].
  - by rewrite (with_crasher_stub_defined_id M F).
  - by rewrite with_crasher_stub_ne.
Qed.

Lemma with_crasher_stub_defined M :
  ∃ F, with_crasher_stub M !! RuntimeCrasherFunctionName = Some F ∧
       is_definition F = true.
Proof.
  unfold with_crasher_stub.
  destruct (M !! RuntimeCrasherFunctionName) as [F|] eqn:EF;
    [destruct (is_definition F) eqn:ED|].
  - eauto.
  - rewrite lookup_insert_eq. eauto.
  - rewrite lookup_insert_eq. eauto.
Qed.

Lemma is_definition_middle F pre_bs (BB : SILBasicBlock) post_bs :
  fn_blocks F = pre_bs ++ BB :: post_bs → is_definition F = true.
Proof. unfold is_definition. intros ->. by destruct pre_bs. Qed.

(** Lines 134-151. *)
Lemma inject_crasher_eq o cur bi ii Apply s F :
  TargetFailureKind o ≠ OptimizerCrasher →
  TargetFailureKind o ≠ RuntimeMiscompile →
  NDEBUG o || bool_decide (TargetFailureKind o = RuntimeCrasher) = true →
  Mod s !! cur = Some F → is_definition F = true →
  inject o cur bi ii Apply s
  = Returned tt
      (mkState true
         (<[cur := set_blocks F
              (crasher_blocks
                 (from_option fn_type EmptyTupleType
                    (with_crasher_stub (Mod s) !! RuntimeCrasherFunctionName))
                 bi ii Apply (fn_blocks F))]> (with_crasher_stub (Mod s)))
         (dbgs s ++ [DbgText "Runtime Crasher Func!
";
                     DbgDump RuntimeCrasherFunctionName
                       (with_crasher_stub (Mod s) !! RuntimeCrasherFunctionName)])).
Proof.
  intros Hk1 Hk2 Ha HF HD. unfold inject.
  rewrite (bool_decide_eq_false_2 _ Hk1), (bool_decide_eq_false_2 _ Hk2).
  unfold mbind at 1, Pass_bind at 1, mret at 1, Pass_ret at 1.
  unfold mbind at 1, Pass_bind at 1, assert_. rewrite Ha.
  erewrite bind_Returned by (by apply getRuntimeCrasherFunction_eq).
  unfold mbind at 1, Pass_bind at 1, dbgs_print, modify.
  unfold mbind at 1, Pass_bind at 1, dump, modify. simpl.
  pose proof (with_crasher_stub_definition _ _ _ HF HD) as HF'.
  unfold createFunctionRef, createApply.
  unfold mbind at 1, Pass_bind at 1. unfold mbind at 1, Pass_bind at 1, get.
  erewrite insertInst_Some by (simpl; exact HF'). simpl.
  erewrite bind_Returned
    by (apply insertInst_Some; simpl; apply lookup_insert_eq).
  unfold replaceAllUsesWith, eraseFromParent.
  erewrite bind_Returned
    by (apply modifyFunction_Some; simpl; apply lookup_insert_eq).
  erewrite bind_Returned
    by (apply modifyFunction_Some; simpl; apply lookup_insert_eq).
  unfold setCausedError, modify, set_Mod. simpl.
  rewrite !insert_insert_eq. unfold set_blocks, crasher_blocks, undef_uses.
  simpl. by rewrite <- (assoc_L (++)).
Qed.

Lemma crasher_blocks_middle fty Apply pre_bs (pre : SILBasicBlock) post post_bs :
  let bs := pre_bs ++ (pre ++ Apply :: post) :: post_bs in
  crasher_blocks fty (length pre_bs) (length pre) Apply bs
  = lmap (lmap (undef_uses Apply)) pre_bs
    ++ (lmap (undef_uses Apply) pre ++ crasher_ref fty bs :: crasher_apply bs
          :: lmap (undef_uses Apply) post)
    :: lmap (lmap (undef_uses Apply)) post_bs.
Proof.
  intros bs. unfold crasher_blocks. fold bs.
  set (FRI := mkInst (fresh_id bs) _ fty).
  assert (alter (λ l, take (length pre) l ++ FRI :: drop (length pre) l)
                (length pre_bs) bs
          = pre_bs ++ ((pre ++ [FRI]) ++ Apply :: post) :: post_bs) as ->.
  { unfold bs. rewrite alter_middle, insert_middle.
    by rewrite <- (assoc_L (++)). }
  assert (fresh_id (pre_bs ++ ((pre ++ [FRI]) ++ Apply :: post) :: post_bs)
          = S (fresh_id bs)) as ->.
  { rewrite <- (assoc_L (++)). simpl. by apply fresh_id_insert. }
  fold (crasher_apply bs). fold (crasher_ref fty bs) in FRI.
  assert (S (length pre) = length (pre ++ [FRI])) as ->.
  { rewrite length_app. simpl. lia. }
  rewrite alter_middle, insert_middle.
  replace ((pre ++ [FRI]) ++ crasher_apply bs :: Apply :: post)
    with ((pre ++ [FRI; crasher_apply bs]) ++ Apply :: post)
    by by rewrite <- !(assoc_L (++)).
  rewrite undef_uses_blocks_middle.
  rewrite <- (length_fmap (lmap (undef_uses Apply)) pre_bs), alter_middle.
  assert (S (length (pre ++ [FRI]))
          = length (lmap (undef_uses Apply) (pre ++ [FRI; crasher_apply bs]))) as ->.
  { rewrite length_fmap, !length_app. simpl. lia. }
  rewrite delete_middle, fmap_app, <- (assoc_L (++)). simpl.
  do 3 f_equal.
  unfold undef_uses, subst_inst, crasher_apply. simpl.
  rewrite decide_False; [done|].
  assert (inst_id Apply < fresh_id bs); [|lia].
  apply fresh_id_gt. unfold bs. rewrite all_insts_middle. set_solver.
Qed.

(* ===================================================================== *)
(** ** Uses and identifiers after the injection                           *)
(* ===================================================================== *)

Lemma operands_undef_uses Apply J :
  operands (undef_uses Apply J)
  = subst_value (inst_id Apply) (SILUndef (inst_type Apply)) <$> operands J.
Proof.
  unfold operands, undef_uses, subst_inst. simpl.
  by destruct (inst_kind J).
Qed.

Lemma subst_value_undef id ty v :
  subst_value id (SILUndef ty) v
  = if decide (v = InstResult id) then SILUndef ty else v.
Proof.
  destruct v as [j| |]; simpl; repeat case_decide; by simplify_eq.
Qed.

Lemma undef_uses_no_use Apply J :
  InstResult (inst_id Apply) ∉ operands (undef_uses Apply J).
Proof.
  rewrite operands_undef_uses. intros (v & Hv & _)%list_elem_of_fmap.
  rewrite subst_value_undef in Hv. by case_decide.
Qed.

Lemma inst_id_undef_uses Apply J : inst_id (undef_uses Apply J) = inst_id J.
Proof. done. Qed.

Lemma all_insts_lmap (f : SILInstruction → SILInstruction) bs :
  all_insts (lmap (lmap f) bs) = lmap f (all_insts bs).
Proof.
  unfold all_insts. induction bs as [|BB bs IH]; [done|].
  rewrite fmap_cons. simpl. by rewrite fmap_app, IH.
Qed.

(** With the call unlinked, no instruction of the body has its identifier,
    when identifiers are unique. *)
Lemma unique_ids_middle pre_bs (pre : SILBasicBlock) II post post_bs J :
  unique_ids (pre_bs ++ (pre ++ II :: post) :: post_bs) →
  J ∈ all_insts (pre_bs ++ (pre ++ post) :: post_bs) →
  inst_id J ≠ inst_id II.
Proof.
  unfold unique_ids. rewrite !all_insts_middle.
  intros HND HJ Heq.
  assert (all_insts pre_bs ++ (pre ++ II :: post) ++ all_insts post_bs
          ≡ₚ II :: all_insts pre_bs ++ (pre ++ post) ++ all_insts post_bs) as HP.
  { rewrite <- (assoc_L (++) pre (II :: post)). simpl.
    rewrite (assoc_L (++) (all_insts pre_bs) pre).
    rewrite <- Permutation_middle.
    by rewrite <- !(assoc_L (++)). }
  rewrite HP, fmap_cons in HND. apply NoDup_cons in HND as [Hnotin _].
  apply Hnotin, list_elem_of_fmap. eauto.
Qed.

Lemma isTargetApply_direct blocks target II :
  isTargetApply blocks target II = true ↔ is_direct_call_to blocks target II.
Proof.
  unfold isTargetApply, is_direct_call_to, dyn_cast_FunctionRefInst. split.
  - destruct (inst_kind II) as [callee args nt| | | |]; try done.
    destruct (getDefiningInst blocks callee) as [FRI|] eqn:ED; [|done].
    destruct (inst_kind FRI) eqn:EK; try done.
    intros Heq%String.eqb_eq. subst. by exists callee, args, nt, FRI.
  - intros (callee & args & nt & FRI & -> & -> & ->). apply String.eqb_refl.
Qed.

Lemma isTargetApply_indirect blocks target II callee args nothrow :
  inst_kind II = ApplyInst callee args nothrow →
  dyn_cast_FunctionRefInst blocks callee = None →
  isTargetApply blocks target II = false.
Proof. unfold isTargetApply. by intros -> ->. Qed.

(** A function with a target apply is known to the module and has a body. *)
Lemma findTargetCall_function cur s target bi ii Apply :
  findTargetCall (getBlocks cur s) target = Some (bi, ii, Apply) →
  ∃ F pre_bs pre post post_bs,
    Mod s !! cur = Some F ∧
    fn_blocks F = pre_bs ++ (pre ++ Apply :: post) :: post_bs ∧
    length pre_bs = bi ∧ length pre = ii.
Proof.
  intros (Hat & _)%findTargetCall_Some.
  destruct (inst_at_split _ _ _ _ Hat) as (pre_bs & pre & post & post_bs & HB & <- & <-).
  unfold getBlocks in HB. destruct (Mod s !! cur) as [F|]; simpl in HB.
  - by exists F, pre_bs, pre, post, post_bs.
  - by destruct pre_bs.
Qed.

Lemma find_middle {A} (P : A → bool) l1 x l2 :
  (∀ y, y ∈ l1 → P y = false) → P x = true →
  List.find P (l1 ++ x :: l2) = Some x.
Proof.
  intros Hl1 Hx. induction l1 as [|y l1 IH]; simpl.
  - by rewrite Hx.
  - rewrite (Hl1 y) by set_solver. apply IH. intros z Hz. apply Hl1. set_solver.
Qed.

(** The new apply calls the stub: its callee is the new [function_ref]. *)
Lemma crasher_apply_direct fty Apply pre_bs pre post post_bs :
  is_direct_call_to (crasher_blocks_shape fty Apply pre_bs pre post post_bs)
    RuntimeCrasherFunctionName
    (crasher_apply (pre_bs ++ (pre ++ Apply :: post) :: post_bs)).
Proof.
  set (bs := pre_bs ++ (pre ++ Apply :: post) :: post_bs).
  exists (InstResult (fresh_id bs)), [], false, (crasher_ref fty bs).
  split; [done|]. split; [|done].
  unfold getDefiningInst, crasher_blocks_shape. fold bs.
  rewrite all_insts_middle, all_insts_lmap.
  rewrite <- (assoc_L (++) (lmap _ pre)), (assoc_L (++) (lmap _ (all_insts pre_bs))).
  rewrite <- fmap_app. apply find_middle.
  - intros y (y0 & -> & Hy0)%list_elem_of_fmap.
    apply bool_decide_eq_false. rewrite inst_id_undef_uses.
    assert (inst_id y0 < fresh_id bs); [|lia].
    apply fresh_id_gt. unfold bs. rewrite all_insts_middle, !elem_of_app.
    apply elem_of_app in Hy0. tauto.
  - by apply bool_decide_eq_true.
Qed.

Lemma crasher_ids_fresh fty bs J :
  J ∈ all_insts bs →
  inst_id J < inst_id (crasher_ref fty bs) ∧
  inst_id (crasher_ref fty bs) < inst_id (crasher_apply bs).
Proof. intros H%fresh_id_gt. simpl. lia. Qed.

Section crasher_shape.
Context (fty : SILType) (Apply : SILInstruction).
Context (pre_bs : list SILBasicBlock) (pre post : SILBasicBlock).
Context (post_bs : list SILBasicBlock).

Let bs := pre_bs ++ (pre ++ Apply :: post) :: post_bs.
Let bs' := crasher_blocks_shape fty Apply pre_bs pre post post_bs.

Lemma crasher_shape_lookup :
  bs' !! length pre_bs
  = Some (lmap (undef_uses Apply) pre ++ crasher_ref fty bs :: crasher_apply bs
            :: lmap (undef_uses Apply) post).
Proof.
  unfold bs', crasher_blocks_shape.
  rewrite <- (length_fmap (lmap (undef_uses Apply)) pre_bs).
  by rewrite list_lookup_middle.
Qed.

Lemma crasher_shape_lookup_ne bj :
  bj ≠ length pre_bs →
  bs' !! bj = lmap (undef_uses Apply) <$> bs !! bj.
Proof.
  intros Hne. unfold bs', bs, crasher_blocks_shape.
  rewrite <- list_lookup_fmap, fmap_app, fmap_cons.
  apply lookup_middle_ne. by rewrite length_fmap.
Qed.

Lemma crasher_shape_length : length bs' = length bs.
Proof.
  unfold bs', bs, crasher_blocks_shape. rewrite !length_app. simpl.
  by rewrite !length_fmap.
Qed.

Lemma elem_of_crasher_shape J :
  J ∈ all_insts bs' →
  J = crasher_ref fty bs ∨ J = crasher_apply bs ∨
  ∃ J0, J = undef_uses Apply J0 ∧
        J0 ∈ all_insts (pre_bs ++ (pre ++ post) :: post_bs).
Proof.
  unfold bs', crasher_blocks_shape. fold bs.
  rewrite !all_insts_middle, !all_insts_lmap.
  rewrite !elem_of_app, !elem_of_cons, !list_elem_of_fmap.
  intros [(J0 & -> & ?)|[[(J0 & -> & ?)|[->|[->|(J0 & -> & ?)]]]|(J0 & -> & ?)]];
    eauto; right; right; exists J0; rewrite !elem_of_app; eauto.
Qed.

(** Nothing reads the erased call, and nothing has its identifier. *)
Lemma crasher_shape_no_use J :
  J ∈ all_insts bs' → InstResult (inst_id Apply) ∉ operands J.
Proof.
  intros [->|[->|(J0 & -> & _)]]%elem_of_crasher_shape.
  - by intros ?%elem_of_nil.
  - unfold operands. simpl. intros [= Heq]%list_elem_of_singleton.
    assert (inst_id Apply < fresh_id bs); [|lia].
    apply fresh_id_gt. unfold bs. rewrite all_insts_middle, !elem_of_app.
    right. left. right. by left.
  - apply undef_uses_no_use.
Qed.

Lemma crasher_shape_erased J :
  unique_ids bs → J ∈ all_insts bs' → inst_id J ≠ inst_id Apply.
Proof.
  intros Hu HJ.
  assert (inst_id Apply < fresh_id bs) as Hlt.
  { apply fresh_id_gt. unfold bs. rewrite all_insts_middle, !elem_of_app.
    right. left. right. by left. }
  apply elem_of_crasher_shape in HJ as [->|[->|(J0 & -> & HJ0)]]; simpl.
  - lia.
  - lia.
  - by apply (unique_ids_middle _ _ _ _ _ J0 Hu).
Qed.
End crasher_shape.

(** The scan cut off right after a position sees what the full scan sees
    up to there. *)
Lemma inst_at_cut pre_bs (pre : SILBasicBlock) II post post_bs bj ij J :
  inst_at (pre_bs ++ [pre ++ [II]]) bj ij = Some J →
  inst_at (pre_bs ++ (pre ++ II :: post) :: post_bs) bj ij = Some J.
Proof.
  unfold inst_at. destruct (decide (bj < length pre_bs)) as [Hlt|Hge].
  { by rewrite !lookup_app_l by done. }
  rewrite !lookup_app_r by lia.
  destruct (bj - length pre_bs) as [|m]; simpl; [|done].
  destruct (decide (ij < length pre)) as [Hlt|Hge'].
  { by rewrite !lookup_app_l by done. }
  rewrite !lookup_app_r by lia.
  by destruct (ij - length pre) as [|m].
Qed.

Lemma runOnFunctions_app o l1 l2 s :
  runOnFunctions o (l1 ++ l2) s
  = (runOnFunctions o l1;; runOnFunctions o l2) s.
Proof.
  revert s. induction l1 as [|G l1 IH]; intros s; simpl; [done|].
  unfold mbind, Pass_bind in *.
  destruct (run o G s) as [[] s1|]; [apply IH|done].
Qed.

Lemma runOnFunctions_noop o l s :
  (∀ G, G ∈ l → run o G s = Returned tt s) →
  runOnFunctions o l s = Returned tt s.
Proof.
  induction l as [|G l IH]; intros H; simpl; [done|].
  erewrite bind_Returned by (apply H; by left).
  apply IH. intros G' ?. apply H. by right.
Qed.

(* ===================================================================== *)
(** ** The pass under each failure kind                                   *)
(* ===================================================================== *)

(** Under [OptimizerCrasher] the flag is never set. *)
Lemma reachable_OptimizerCrasher o s :
  TargetFailureKind o = OptimizerCrasher → reachable o s →
  CausedError s = false.
Proof.
  intros Hk. induction 1 as [M d|s F s' _ IH Hrun|s M d _ IH]; [done| |done].
  destruct (decide (FunctionTarget o = "")) as [Ht|Ht].
  { rewrite run_no_target in Hrun by done. by injection Hrun as <-. }
  rewrite run_scan in Hrun; [|done|done|].
  - destruct (findTargetCall _ _) as [[[bi ii] Apply]|].
    + by rewrite inject_crash_optimizer in Hrun.
    + by injection Hrun as <-.
  - rewrite Hk. by rewrite orb_true_r.
Qed.

(** A function with a target apply has a first one. *)
Lemma findTargetCall_is_Some blocks target bi ii II :
  inst_at blocks bi ii = Some II → isTargetApply blocks target II = true →
  ∃ bj ij J, findTargetCall blocks target = Some (bj, ij, J).
Proof.
  intros Hat Ht.
  destruct (findTargetCall blocks target) as [[[bj ij] J]|] eqn:E; [eauto|].
  rewrite findTargetCall_None in E. specialize (E _ _ _ Hat). congruence.
Qed.

(** C5. Under the failure kind [OptimizerCrasher] (optimizer-abort), the
    pass, run on a function that contains a call matching the target, aborts
    the process ([llvm_unreachable]) and does not return; the state at the
    abort, module and function included, is the state at entry. *)
Theorem C5_optimizer_abort_before_mutation o cur s bi ii II :
  TargetFailureKind o = OptimizerCrasher →
  FunctionTarget o ≠ "" →
  reachable o s →
  inst_at (getBlocks cur s) bi ii = Some II →
  isTargetApply (getBlocks cur s) (FunctionTarget o) II = true →
  run o cur s = Aborted (LLVMUnreachable "Found the target!") s.
Proof.
  intros Hk Ht Hr Hat Hcall.
  pose proof (reachable_OptimizerCrasher o s Hk Hr) as Hf.
  destruct (findTargetCall_is_Some _ _ _ _ _ Hat Hcall) as (bj & ij & J & HJ).
  rewrite run_scan, HJ; [|done|done|].
  - by apply inject_crash_optimizer.
  - rewrite Hk. by rewrite orb_true_r.
Qed.

Lemma C5_witness :
  run (mkOptions "foo" OptimizerCrasher false) "caller" ex_state
  = Aborted (LLVMUnreachable "Found the target!") ex_state.
Proof.
  apply (C5_optimizer_abort_before_mutation
           (mkOptions "foo" OptimizerCrasher false) "caller" ex_state 0 1
           (mkInst 1 (ApplyInst (InstResult 0) [] false) ex_Int)).
  - reflexivity.
  - discriminate.
  - apply reachable_fresh.
  - reflexivity.
  - reflexivity.
Defined.

(** C8. With an empty target name the pass, run on any function in any
    state and under every failure kind, returns with the state as it was:
    no function is changed and the flag is not set; the same holds for a run
    over any worklist. *)
Theorem C8_empty_target_disables o cur worklist s :
  FunctionTarget o = "" →
  run o cur s = Returned tt s ∧ runOnFunctions o worklist s = Returned tt s.
Proof.
  intros Ht. split; [by apply run_no_target|].
  induction worklist as [|F rest IH]; simpl; [done|].
  by erewrite bind_Returned by (by apply run_no_target).
Qed.

Lemma C8_witness :
  run (mkOptions "" RuntimeCrasher false) "caller" ex_state
    = Returned tt ex_state ∧
  runOnFunctions (mkOptions "" RuntimeCrasher false) ["caller"; "other"] ex_state
    = Returned tt ex_state.
Proof.
  apply (C8_empty_target_disables (mkOptions "" RuntimeCrasher false)).
  reflexivity.
Defined.

(** C7. The Matcher, the scan of [run], returns the first instruction, in
    block order and in program order within a block, that is a call whose
    callee is a direct FunctionReference to a function named like the
    target; a call whose callee is not a FunctionReference is never
    returned; when no instruction qualifies it reports no match. *)
Theorem C7_matcher_first_direct_call blocks target :
  (∀ bi ii II,
     findTargetCall blocks target = Some (bi, ii, II) ↔
     inst_at blocks bi ii = Some II ∧
     is_direct_call_to blocks target II ∧
     ∀ bj ij J, before bj ij bi ii → inst_at blocks bj ij = Some J →
                ¬ is_direct_call_to blocks target J) ∧
  (findTargetCall blocks target = None ↔
     ∀ bj ij J, inst_at blocks bj ij = Some J →
                ¬ is_direct_call_to blocks target J) ∧
  (∀ II callee args nothrow,
     inst_kind II = ApplyInst callee args nothrow →
     dyn_cast_FunctionRefInst blocks callee = None →
     ∀ bi ii, findTargetCall blocks target ≠ Some (bi, ii, II)) ∧
  (∀ o cur s,
     for_blocks (visit o cur) 0 (getBlocks cur s) s
     = match findTargetCall (getBlocks cur s) (FunctionTarget o) with
       | Some (bi, ii, Apply) => (inject o cur bi ii Apply;; mret Return_) s
       | None => Returned Continue s
       end).
Proof.
  assert (∀ J, isTargetApply blocks target J = false
               ↔ ¬ is_direct_call_to blocks target J) as Hneg.
  { intros J. rewrite <- isTargetApply_direct.
    by destruct (isTargetApply blocks target J). }
  split; [|split; [|split]].
  - intros bi ii II. rewrite findTargetCall_Some, isTargetApply_direct.
    split; intros (Hat & Hd & Hb); (split; [done|]); (split; [done|]);
      intros bj ij J ? ?; apply Hneg; eauto.
  - rewrite findTargetCall_None.
    split; intros H bj ij J ?; apply Hneg; eauto.
  - intros II callee args nt HK Hind bi ii (_ & Ht & _)%findTargetCall_Some.
    rewrite (isTargetApply_indirect _ _ _ _ _ _ HK Hind) in Ht. done.
  - intros o cur s. apply for_blocks_find.
Qed.

(** The miscompile injection at the first target apply of a function. *)
Lemma run_miscompile o cur s bi ii Apply :
  TargetFailureKind o = RuntimeMiscompile →
  FunctionTarget o ≠ "" → CausedError s = false →
  findTargetCall (getBlocks cur s) (FunctionTarget o) = Some (bi, ii, Apply) →
  ∃ F pre_bs pre post post_bs,
    Mod s !! cur = Some F ∧
    fn_blocks F = pre_bs ++ (pre ++ Apply :: post) :: post_bs ∧
    length pre_bs = bi ∧ length pre = ii ∧
    run o cur s
    = Returned tt
        (mkState true
           (<[cur := set_blocks F
                (lmap (lmap (undef_uses Apply)) pre_bs
                 ++ (lmap (undef_uses Apply) pre ++ lmap (undef_uses Apply) post)
                 :: lmap (lmap (undef_uses Apply)) post_bs)]> (Mod s))
           (dbgs s)).
Proof.
  intros Hk Ht Hf Hfind.
  destruct (findTargetCall_function _ _ _ _ _ _ Hfind)
    as (F & pre_bs & pre & post & post_bs & HF & HB & <- & <-).
  exists F, pre_bs, pre, post, post_bs. repeat (split; [done|]).
  rewrite run_scan, Hfind; [|done|done|by rewrite Hk, orb_true_r].
  rewrite (inject_miscompile_eq _ _ _ _ _ _ F) by done.
  by rewrite HB, miscompile_blocks_middle.
Qed.

(** C3. Under the failure kind [RuntimeMiscompile], on a function with
    exactly one direct call to the target and with the flag not set: the
    pass returns; the call is gone from its block, whose length went down by
    exactly one; every instruction of the function reads an undef of the
    call's type where it read the call's result; the flag is set; and a
    later run, on whatever function, changes nothing. *)
Theorem C3_miscompile_deletes_the_call o cur s bi ii Apply :
  TargetFailureKind o = RuntimeMiscompile →
  FunctionTarget o ≠ "" →
  CausedError s = false →
  target_sites (getBlocks cur s) (FunctionTarget o) = [(bi, ii, Apply)] →
  ∃ BB pre post s',
    getBlocks cur s !! bi = Some BB ∧
    BB = pre ++ Apply :: post ∧ length pre = ii ∧
    run o cur s = Returned tt s' ∧
    (* the call is gone, the block is one shorter *)
    getBlocks cur s' !! bi
      = Some (lmap (undef_uses Apply) pre ++ lmap (undef_uses Apply) post) ∧
    (∀ BB', getBlocks cur s' !! bi = Some BB' → S (length BB') = length BB) ∧
    (unique_ids (getBlocks cur s) →
     ∀ J, J ∈ all_insts (getBlocks cur s') → inst_id J ≠ inst_id Apply) ∧
    (* the other blocks keep their instructions, uses replaced *)
    length (getBlocks cur s') = length (getBlocks cur s) ∧
    (∀ bj, bj ≠ bi →
       getBlocks cur s' !! bj
       = lmap (undef_uses Apply) <$> getBlocks cur s !! bj) ∧
    (* former uses of the result read an undef of the call's type *)
    (∀ J, operands (undef_uses Apply J)
          = (λ v, if decide (v = InstResult (inst_id Apply))
                  then SILUndef (inst_type Apply) else v) <$> operands J) ∧
    (∀ J, J ∈ all_insts (getBlocks cur s') →
          InstResult (inst_id Apply) ∉ operands J) ∧
    (* the flag, and the rest of the state *)
    CausedError s' = true ∧
    (∀ G, G ≠ cur → Mod s' !! G = Mod s !! G) ∧
    dbgs s' = dbgs s ∧
    (* a later run changes nothing *)
    (∀ G, run o G s' = Returned tt s').
Proof.
  intros Hk Ht Hf Hsites.
  assert (findTargetCall (getBlocks cur s) (FunctionTarget o)
          = Some (bi, ii, Apply)) as Hfind.
  { by rewrite <- head_target_sites, Hsites. }
  destruct (run_miscompile o cur s bi ii Apply Hk Ht Hf Hfind)
    as (F & pre_bs & pre & post & post_bs & HF & HB & <- & <- & Hrun).
  set (sigma := undef_uses Apply) in *.
  set (bs' := lmap (lmap sigma) pre_bs
              ++ (lmap sigma pre ++ lmap sigma post)
              :: lmap (lmap sigma) post_bs) in *.
  exists (pre ++ Apply :: post), pre, post,
    (mkState true (<[cur := set_blocks F bs']> (Mod s)) (dbgs s)).
  assert (getBlocks cur s = pre_bs ++ (pre ++ Apply :: post) :: post_bs) as HG.
  { by rewrite (getBlocks_Some _ _ _ HF). }
  assert (getBlocks cur
            (mkState true (<[cur := set_blocks F bs']> (Mod s)) (dbgs s))
          = bs') as HG'.
  { unfold getBlocks. simpl. by rewrite lookup_insert_eq. }
  assert (length (lmap (lmap sigma) pre_bs) = length pre_bs) as HL
    by apply length_fmap.
  rewrite !HG', !HG.
  split; [by rewrite list_lookup_middle|].
  split; [done|]. split; [done|]. split; [exact Hrun|].
  assert (bs' !! length pre_bs
          = Some (lmap sigma pre ++ lmap sigma post)) as Hbi.
  { unfold bs'. by rewrite list_lookup_middle. }
  split; [exact Hbi|].
  split.
  { intros BB'. rewrite Hbi. intros [= <-].
    rewrite !length_app, !length_fmap. simpl. lia. }
  split.
  { intros Hu J. unfold bs'. rewrite !all_insts_middle, !all_insts_lmap.
    rewrite <- !fmap_app. intros (J0 & -> & HJ0)%list_elem_of_fmap.
    apply (unique_ids_middle _ _ _ _ _ J0 Hu). by rewrite all_insts_middle. }
  split.
  { unfold bs'. rewrite !length_app. simpl. by rewrite !length_fmap. }
  split.
  { intros bj Hne. unfold bs'.
    rewrite <- list_lookup_fmap, fmap_app, fmap_cons.
    apply lookup_middle_ne. by rewrite HL. }
  split.
  { intros J. unfold sigma. rewrite operands_undef_uses. apply list_fmap_ext.
    intros _ v _. apply subst_value_undef. }
  split.
  { intros J. unfold bs'. rewrite !all_insts_middle, !all_insts_lmap.
    rewrite <- !fmap_app. intros (J0 & -> & _)%list_elem_of_fmap.
    apply undef_uses_no_use. }
  split; [done|].
  split; [by intros G Hne; simpl; rewrite lookup_insert_ne|].
  split; [done|].
  intros G. by apply run_CausedError.
Qed.

Lemma C3_witness :
  ∃ s', run (mkOptions "foo" RuntimeMiscompile false) "other" ex_state
        = Returned tt s' ∧
        getBlocks "other" s' !! 1
        = Some [mkInst 2 (FunctionRefInst "foo") (ThinFunctionType ex_Int);
                mkInst 4 (OtherInst "return" [SILUndef ex_Int]) EmptyTupleType] ∧
        CausedError s' = true ∧
        run (mkOptions "foo" RuntimeMiscompile false) "caller" s'
        = Returned tt s'.
Proof.
  destruct (C3_miscompile_deletes_the_call
              (mkOptions "foo" RuntimeMiscompile false) "other" ex_state 1 1
              (mkInst 3 (ApplyInst (InstResult 2) [] false) ex_Int))
    as (BB & pre & post & s' & HBB & -> & Hpre & Hrun & Hbi & _ & _ & _ & _ & _
        & _ & Hflag & _ & _ & Hlater).
  - reflexivity.
  - discriminate.
  - reflexivity.
  - reflexivity.
  - exists s'. split; [exact Hrun|]. split; [|split; [exact Hflag|apply Hlater]].
    rewrite Hbi. injection HBB as HBB.
    destruct pre as [|I0 [|I1 pre]]; simpl in Hpre; try discriminate.
    by injection HBB as <- <-.
Defined.

(** With the failure kind [None] and assertions compiled out, the scan
    goes on and the injection at the target apply is the crasher's. *)
Lemma inject_None_NDEBUG o cur bi ii Apply s :
  TargetFailureKind o = None_ → NDEBUG o = true →
  inject o cur bi ii Apply s
  = inject (mkOptions (FunctionTarget o) RuntimeCrasher true) cur bi ii Apply s.
Proof.
  intros Hk Hn. unfold inject, getRuntimeCrasherFunction, assert_.
  simpl. by rewrite Hk, Hn.
Qed.

(** What the pass does under the failure kind [None] with a target name:
    once the flag is set it returns without a change; otherwise, built with
    assertions, it stops at the assertion at its entry, before any change
    and with the flag not set; built without assertions, it changes nothing
    on a function without a matching call, and on a function with one it
    runs past the assertions and does what it does under [RuntimeCrasher]. *)
Lemma run_None_kind o cur s :
  TargetFailureKind o = None_ →
  FunctionTarget o ≠ "" →
  (CausedError s = true → run o cur s = Returned tt s) ∧
  (CausedError s = false → NDEBUG o = false →
     run o cur s
     = Aborted (AssertionFailure "TargetFailureKind != FailureKind::None") s) ∧
  (CausedError s = false → NDEBUG o = true →
     findTargetCall (getBlocks cur s) (FunctionTarget o) = None →
     run o cur s = Returned tt s) ∧
  (CausedError s = false → NDEBUG o = true →
     findTargetCall (getBlocks cur s) (FunctionTarget o) ≠ None →
     run o cur s = run (mkOptions (FunctionTarget o) RuntimeCrasher true) cur s ∧
     ∃ s', run o cur s = Returned tt s' ∧ CausedError s' = true).
Proof.
  intros Hk Ht. split; [by apply run_CausedError|].
  split; [by intros; apply run_None_asserts|].
  split.
  { intros Hf Hn Hnone. rewrite run_scan, Hnone; [done..|by rewrite Hn]. }
  intros Hf Hn Hsome.
  rewrite !run_scan; [|done|done|done|done|done|by rewrite Hn]. simpl.
  destruct (findTargetCall _ _) as [[[bi ii] Apply]|] eqn:Hfind; [|done].
  split; [by apply inject_None_NDEBUG|].
  destruct (findTargetCall_function _ _ _ _ _ _ Hfind)
    as (F & pre_bs & pre & post & post_bs & HF & HB & _).
  erewrite inject_crasher_eq; [|by rewrite Hk..|by rewrite Hn|done|].
  - eexists. by split.
  - by eapply is_definition_middle.
Qed.

(** C2. With the failure kind [None] and the target [foo], the pass run
    on [caller], which calls [foo], must change nothing and leave the flag
    unset.  Built with assertions the code keeps to that, by the abort at
    the assertion of line 105 with the state as it was.  Built without
    assertions the code runs past its own assertions (lines 105, 134 and 70)
    and performs the crasher injection: it returns with the flag set, with
    [caller] changed and with the stub added to the module. *)
Theorem C2_none_kind_injects_without_assertions :
  run (mkOptions "foo" None_ false) "caller" ex_state
    = Aborted (AssertionFailure "TargetFailureKind != FailureKind::None")
        ex_state ∧
  ∃ s', run (mkOptions "foo" None_ true) "caller" ex_state = Returned tt s' ∧
        run (mkOptions "foo" RuntimeCrasher true) "caller" ex_state
          = Returned tt s' ∧
        CausedError s' = true ∧
        getBlocks "caller" s' ≠ getBlocks "caller" ex_state ∧
        Mod ex_state !! RuntimeCrasherFunctionName = None ∧
        Mod s' !! RuntimeCrasherFunctionName ≠ None.
Proof.
  split; [vm_compute; reflexivity|].
  eexists. split; [vm_compute; reflexivity|].
  split; [vm_compute; reflexivity|].
  split; [reflexivity|].
  split; [vm_compute; discriminate|].
  split; [vm_compute; reflexivity|]. vm_compute. discriminate.
Qed.

(** The factory returns only when its assertion holds or is compiled out. *)
Lemma getRuntimeCrasherFunction_Returned o s F s1 :
  getRuntimeCrasherFunction o s = Returned F s1 →
  NDEBUG o || bool_decide (TargetFailureKind o = RuntimeCrasher) = true.
Proof.
  destruct (NDEBUG o || _) eqn:E; [done|].
  unfold getRuntimeCrasherFunction, mbind, Pass_bind, assert_.
  by rewrite E.
Qed.

(** C6. The factory of the trap stub is idempotent: after a call of
    [getRuntimeCrasherFunction] that returned, the stub is defined, and a
    second call, from wherever, returns the same function and leaves the
    state as it is; so does any later call for which the module still holds
    that function.  The first call touches no other function. *)
Theorem C6_stub_factory_idempotent o s F s1 :
  getRuntimeCrasherFunction o s = Returned F s1 →
  F = RuntimeCrasherFunctionName ∧
  (∃ Fn, Mod s1 !! F = Some Fn ∧ is_definition Fn = true) ∧
  getRuntimeCrasherFunction o s1 = Returned F s1 ∧
  (∀ s2, Mod s2 !! F = Mod s1 !! F →
         getRuntimeCrasherFunction o s2 = Returned F s2) ∧
  (∀ G, G ≠ F → Mod s1 !! G = Mod s !! G).
Proof.
  intros H. pose proof (getRuntimeCrasherFunction_Returned _ _ _ _ H) as Ha.
  rewrite getRuntimeCrasherFunction_eq in H by done.
  injection H as <- <-. split; [done|].
  destruct (with_crasher_stub_defined (Mod s)) as (Fn & HFn & HD).
  split; [by exists Fn|].
  assert (∀ s2, Mod s2 !! RuntimeCrasherFunctionName = Some Fn →
                getRuntimeCrasherFunction o s2
                = Returned RuntimeCrasherFunctionName s2) as Hagain.
  { intros s2 H2. rewrite getRuntimeCrasherFunction_eq by done.
    by rewrite (with_crasher_stub_defined_id _ Fn), set_Mod_id. }
  split; [by apply Hagain|].
  split.
  - intros s2 H2. apply Hagain. by rewrite H2.
  - intros G HG. simpl. by apply with_crasher_stub_ne.
Qed.

Lemma C6_witness :
  getRuntimeCrasherFunction (mkOptions "foo" RuntimeCrasher false)
    (set_Mod ex_state (with_crasher_stub ex_module))
  = Returned RuntimeCrasherFunctionName
      (set_Mod ex_state (with_crasher_stub ex_module)).
Proof.
  apply (C6_stub_factory_idempotent
           (mkOptions "foo" RuntimeCrasher false) ex_state).
  vm_compute. reflexivity.
Defined.

(** The crasher injection at the first target apply of a function. *)
Lemma run_crasher o cur s bi ii Apply :
  TargetFailureKind o = RuntimeCrasher →
  FunctionTarget o ≠ "" → CausedError s = false →
  findTargetCall (getBlocks cur s) (FunctionTarget o) = Some (bi, ii, Apply) →
  ∃ F pre_bs pre post post_bs,
    Mod s !! cur = Some F ∧
    fn_blocks F = pre_bs ++ (pre ++ Apply :: post) :: post_bs ∧
    length pre_bs = bi ∧ length pre = ii ∧
    run o cur s
    = Returned tt
        (mkState true
           (<[cur := set_blocks F
                (crasher_blocks_shape
                   (from_option fn_type EmptyTupleType
                      (with_crasher_stub (Mod s) !! RuntimeCrasherFunctionName))
                   Apply pre_bs pre post post_bs)]> (with_crasher_stub (Mod s)))
           (dbgs s ++ [DbgText "Runtime Crasher Func!
";
                       DbgDump RuntimeCrasherFunctionName
                         (with_crasher_stub (Mod s) !! RuntimeCrasherFunctionName)])).
Proof.
  intros Hk Ht Hf Hfind.
  destruct (findTargetCall_function _ _ _ _ _ _ Hfind)
    as (F & pre_bs & pre & post & post_bs & HF & HB & <- & <-).
  exists F, pre_bs, pre, post, post_bs. repeat (split; [done|]).
  rewrite run_scan, Hfind; [|done|done|by rewrite Hk, orb_true_r].
  erewrite inject_crasher_eq;
    [|by rewrite Hk..|by rewrite Hk, orb_true_r|done|by eapply is_definition_middle].
  by rewrite HB, crasher_blocks_middle.
Qed.

(** C4 (amended). Under the failure kind [RuntimeCrasher], at a matched
    call and with the flag not set: the pass returns; where the call stood
    there are now a [function_ref] to the stub and, right after it, one new
    call of it without arguments, followed by what followed the call; the
    call itself is gone and nothing reads its result any more, former uses
    reading an undef; the flag is set; the stub is defined; and when the
    module held no definition of that name before, the stub's body is one
    block, a trap followed by an unreachable.  A definition of that name
    the module already held is the stub: it keeps its type, linkage,
    attributes and number of blocks; its body is left as it was when the
    pass runs on another function, and when the pass runs on that function
    itself its body is the body the injection above leaves, with no trap
    block added. *)
Theorem C4_crasher_replaces_the_call o cur s bi ii Apply :
  TargetFailureKind o = RuntimeCrasher →
  FunctionTarget o ≠ "" →
  CausedError s = false →
  findTargetCall (getBlocks cur s) (FunctionTarget o) = Some (bi, ii, Apply) →
  ∃ BB pre post FRI Call s',
    getBlocks cur s !! bi = Some BB ∧
    BB = pre ++ Apply :: post ∧ length pre = ii ∧
    run o cur s = Returned tt s' ∧
    (* the new call, in front of where the call stood *)
    getBlocks cur s' !! bi
      = Some (lmap (undef_uses Apply) pre ++ FRI :: Call
                :: lmap (undef_uses Apply) post) ∧
    inst_kind FRI = FunctionRefInst RuntimeCrasherFunctionName ∧
    inst_kind Call = ApplyInst (InstResult (inst_id FRI)) [] false ∧
    is_direct_call_to (getBlocks cur s') RuntimeCrasherFunctionName Call ∧
    (∀ J, J ∈ all_insts (getBlocks cur s) →
          inst_id J < inst_id FRI ∧ inst_id FRI < inst_id Call) ∧
    (* the call is gone, and its uses read an undef *)
    (unique_ids (getBlocks cur s) →
     ∀ J, J ∈ all_insts (getBlocks cur s') → inst_id J ≠ inst_id Apply) ∧
    (∀ J, J ∈ all_insts (getBlocks cur s') →
          InstResult (inst_id Apply) ∉ operands J) ∧
    length (getBlocks cur s') = length (getBlocks cur s) ∧
    (∀ bj, bj ≠ bi →
       getBlocks cur s' !! bj
       = lmap (undef_uses Apply) <$> getBlocks cur s !! bj) ∧
    CausedError s' = true ∧
    (* the stub *)
    (∃ Stub, Mod s' !! RuntimeCrasherFunctionName = Some Stub ∧
             is_definition Stub = true) ∧
    ((∀ S, Mod s !! RuntimeCrasherFunctionName = Some S →
           is_definition S = false) →
     getBlocks RuntimeCrasherFunctionName s'
     = [[mkInst 1 BuiltinTrapInst EmptyTupleType;
         mkInst 2 UnreachableInst EmptyTupleType]]) ∧
    (∀ S, Mod s !! RuntimeCrasherFunctionName = Some S →
          is_definition S = true → cur ≠ RuntimeCrasherFunctionName →
          Mod s' !! RuntimeCrasherFunctionName = Some S) ∧
    (∀ S, Mod s !! RuntimeCrasherFunctionName = Some S →
          is_definition S = true →
          ∃ S', Mod s' !! RuntimeCrasherFunctionName = Some S' ∧
                same_signature S S' ∧
                length (fn_blocks S') = length (fn_blocks S) ∧
                (cur ≠ RuntimeCrasherFunctionName → S' = S) ∧
                (cur = RuntimeCrasherFunctionName →
                 fn_blocks S' = getBlocks cur s')) ∧
    (∀ G, G ≠ cur → G ≠ RuntimeCrasherFunctionName →
          Mod s' !! G = Mod s !! G).
Proof.
  intros Hk Ht Hf Hfind.
  destruct (run_crasher o cur s bi ii Apply Hk Ht Hf Hfind)
    as (F & pre_bs & pre & post & post_bs & HF & HB & <- & <- & Hrun).
  set (fty := from_option fn_type EmptyTupleType _) in Hrun.
  set (bs := pre_bs ++ (pre ++ Apply :: post) :: post_bs) in *.
  set (bs' := crasher_blocks_shape fty Apply pre_bs pre post post_bs) in *.
  set (s' := mkState true _ _) in Hrun.
  exists (pre ++ Apply :: post), pre, post,
    (crasher_ref fty bs), (crasher_apply bs), s'.
  assert (getBlocks cur s = bs) as HG by by rewrite (getBlocks_Some _ _ _ HF).
  assert (getBlocks cur s' = bs') as HG'.
  { unfold getBlocks, s'. simpl. by rewrite lookup_insert_eq. }
  assert (is_definition F = true) as HD by by eapply is_definition_middle.
  rewrite !HG', !HG.
  split; [by apply list_lookup_middle|].
  split; [done|]. split; [done|]. split; [exact Hrun|].
  split; [apply crasher_shape_lookup|].
  split; [done|]. split; [done|].
  split; [apply crasher_apply_direct|].
  split; [by intros J; apply crasher_ids_fresh|].
  split; [by intros Hu J; apply crasher_shape_erased|].
  split; [by intros J; apply crasher_shape_no_use|].
  split; [apply crasher_shape_length|].
  split; [by intros bj; apply crasher_shape_lookup_ne|].
  split; [done|].
  split.
  { destruct (with_crasher_stub_defined (Mod s)) as (Stub & HS & HSD).
    unfold s'. simpl.
    destruct (decide (cur = RuntimeCrasherFunctionName)) as [->|Hne].
    - rewrite lookup_insert_eq. eexists. split; [done|].
      unfold is_definition, bs', crasher_blocks_shape. simpl.
      by destruct (lmap (lmap (undef_uses Apply)) pre_bs).
    - rewrite lookup_insert_ne by done. eauto. }
  split.
  { intros Hnodef.
    assert (cur ≠ RuntimeCrasherFunctionName) as Hne.
    { intros ->. specialize (Hnodef F HF). congruence. }
    unfold getBlocks, s'. simpl. rewrite lookup_insert_ne by done.
    unfold with_crasher_stub.
    destruct (Mod s !! RuntimeCrasherFunctionName) as [S|] eqn:ES.
    - rewrite (Hnodef S eq_refl). by rewrite lookup_insert_eq.
    - by rewrite lookup_insert_eq. }
  split.
  { intros S HS HSD Hne. unfold s'. simpl. rewrite lookup_insert_ne by done.
    by apply with_crasher_stub_definition. }
  split.
  { intros S HS HSD.
    destruct (decide (cur = RuntimeCrasherFunctionName)) as [Heq|Hne].
    - assert (F = S) as -> by (rewrite Heq in HF; congruence).
      exists (set_blocks S bs'). unfold s'. simpl.
      rewrite <- Heq, lookup_insert_eq. split; [done|].
      split; [by repeat split|].
      split; [simpl; rewrite HB; apply crasher_shape_length|].
      split; [done|]. intros _. simpl. by rewrite <- HG'.
    - exists S. unfold s'. simpl. rewrite lookup_insert_ne by done.
      split; [by apply with_crasher_stub_definition|].
      split; [by repeat split|]. by repeat split. }
  intros G HG1 HG2. unfold s'. simpl. rewrite lookup_insert_ne by done.
  by apply with_crasher_stub_ne.
Qed.

Lemma C4_witness :
  ∃ s', run (mkOptions "foo" RuntimeCrasher false) "other" ex_state
        = Returned tt s' ∧
        CausedError s' = true ∧
        getBlocks RuntimeCrasherFunctionName s'
        = [[mkInst 1 BuiltinTrapInst EmptyTupleType;
            mkInst 2 UnreachableInst EmptyTupleType]].
Proof.
  destruct (C4_crasher_replaces_the_call
              (mkOptions "foo" RuntimeCrasher false) "other" ex_state 1 1
              (mkInst 3 (ApplyInst (InstResult 2) [] false) ex_Int))
    as (BB & pre & post & FRI & Call & s' & _ & _ & _ & Hrun & _ & _ & _ & _
        & _ & _ & _ & _ & _ & Hflag & _ & Hbody & _).
  - reflexivity.
  - discriminate.
  - reflexivity.
  - reflexivity.
  - exists s'. split; [exact Hrun|]. split; [exact Hflag|].
    apply Hbody. intros S. vm_compute. discriminate.
Defined.

(** C4 as the spec has it fails in its last part: in a module that already
    defines a function with the name of the stub, here with a body that
    only returns, the crasher injection into [caller] leaves that body as it
    is, and it is not a trap followed by an unreachable. *)
Lemma C4_counterexample :
  ∃ s', run (mkOptions "foo" RuntimeCrasher false) "caller" ex_state_stub
        = Returned tt s' ∧
        CausedError s' = true ∧
        getBlocks RuntimeCrasherFunctionName s'
        = [[mkInst 0 (OtherInst "tuple" []) EmptyTupleType;
            mkInst 1 (OtherInst "return" [InstResult 0]) EmptyTupleType]] ∧
        getBlocks RuntimeCrasherFunctionName s'
        ≠ [[mkInst 1 BuiltinTrapInst EmptyTupleType;
            mkInst 2 UnreachableInst EmptyTupleType]].
Proof.
  eexists. split; [vm_compute; reflexivity|].
  split; [reflexivity|]. split; [reflexivity|]. vm_compute. discriminate.
Qed.

(** C9 (amended). The stub is looked up by the fixed name
    [bug_reducer_runtime_crasher_func].  In a module that already holds a
    definition of that name, of the stub's type, the factory returns it and
    changes nothing, and the crasher injection changes the module only in
    the function it runs on: the definition found is the stub, its body is
    not looked at, and the new call calls it by that name.  When the pass
    runs on another function the body of that definition is not changed;
    when the pass runs on that definition itself, its body is changed by
    the injection, and in no other way. *)
Theorem C9_existing_definition_is_the_stub o cur s S bi ii Apply :
  TargetFailureKind o = RuntimeCrasher →
  FunctionTarget o ≠ "" →
  CausedError s = false →
  Mod s !! RuntimeCrasherFunctionName = Some S →
  is_definition S = true →
  fn_type S = ThinFunctionType EmptyTupleType →
  findTargetCall (getBlocks cur s) (FunctionTarget o) = Some (bi, ii, Apply) →
  RuntimeCrasherFunctionName = "bug_reducer_runtime_crasher_func" ∧
  getRuntimeCrasherFunction o s = Returned RuntimeCrasherFunctionName s ∧
  ∃ F pre_bs pre post post_bs s',
    Mod s !! cur = Some F ∧
    fn_blocks F = pre_bs ++ (pre ++ Apply :: post) :: post_bs ∧
    length pre_bs = bi ∧ length pre = ii ∧
    run o cur s = Returned tt s' ∧
    Mod s' = <[cur := set_blocks F
                 (crasher_blocks_shape (fn_type S) Apply pre_bs pre post post_bs)]>
               (Mod s) ∧
    (cur ≠ RuntimeCrasherFunctionName →
     Mod s' !! RuntimeCrasherFunctionName = Some S) ∧
    (cur = RuntimeCrasherFunctionName →
     F = S ∧
     Mod s' !! RuntimeCrasherFunctionName
     = Some (set_blocks S
               (crasher_blocks_shape (fn_type S) Apply pre_bs pre post post_bs))) ∧
    (∀ G, G ≠ cur → Mod s' !! G = Mod s !! G) ∧
    is_direct_call_to (getBlocks cur s') RuntimeCrasherFunctionName
      (crasher_apply (fn_blocks F)) ∧
    getBlocks cur s' !! bi
      = Some (lmap (undef_uses Apply) pre
              ++ crasher_ref (fn_type S) (fn_blocks F)
              :: crasher_apply (fn_blocks F)
              :: lmap (undef_uses Apply) post).
Proof.
  intros Hk Ht Hf HS HSD Hty Hfind. split; [done|].
  assert (with_crasher_stub (Mod s) = Mod s) as Hstub
    by by apply (with_crasher_stub_defined_id _ S).
  split.
  { rewrite getRuntimeCrasherFunction_eq by by rewrite Hk, orb_true_r.
    by rewrite Hstub, set_Mod_id. }
  destruct (run_crasher o cur s bi ii Apply Hk Ht Hf Hfind)
    as (F & pre_bs & pre & post & post_bs & HF & HB & <- & <- & Hrun).
  rewrite Hstub, HS in Hrun. simpl in Hrun.
  eexists F, pre_bs, pre, post, post_bs, _.
  do 4 (split; [done|]). split; [exact Hrun|]. simpl.
  split; [done|].
  split; [by intros Hne; rewrite lookup_insert_ne|].
  split.
  { intros Heq. assert (F = S) as -> by (rewrite Heq in HF; congruence).
    split; [done|]. by rewrite <- Heq, lookup_insert_eq. }
  split; [by intros G Hne; rewrite lookup_insert_ne|].
  unfold getBlocks. simpl. rewrite lookup_insert_eq. simpl. rewrite HB.
  split; [apply crasher_apply_direct|apply crasher_shape_lookup].
Qed.

Lemma C9_witness :
  getRuntimeCrasherFunction (mkOptions "foo" RuntimeCrasher false) ex_state_stub
  = Returned RuntimeCrasherFunctionName ex_state_stub.
Proof.
  apply (C9_existing_definition_is_the_stub
           (mkOptions "foo" RuntimeCrasher false) "caller" ex_state_stub
           ex_user_stub 0 1
           (mkInst 1 (ApplyInst (InstResult 0) [] false) ex_Int));
    [reflexivity|discriminate|reflexivity|reflexivity|reflexivity|reflexivity
    |reflexivity].
Defined.

(** C9 as the spec has it fails: in a module that defines a function with
    the name and the type of the stub which itself calls [foo], the crasher
    injection run on that function finds it as the stub and changes its
    body: the call of [foo] is replaced by a call of the function itself. *)
Lemma C9_counterexample :
  Mod ex_state_self !! RuntimeCrasherFunctionName = Some ex_stub_calls_foo ∧
  is_definition ex_stub_calls_foo = true ∧
  fn_type ex_stub_calls_foo = ThinFunctionType EmptyTupleType ∧
  ∃ s' S',
    run (mkOptions "foo" RuntimeCrasher false) RuntimeCrasherFunctionName
      ex_state_self = Returned tt s' ∧
    Mod s' !! RuntimeCrasherFunctionName = Some S' ∧
    fn_blocks S'
    = [[mkInst 0 (FunctionRefInst "foo") (ThinFunctionType ex_Int);
        mkInst 4 (FunctionRefInst RuntimeCrasherFunctionName)
                 (ThinFunctionType EmptyTupleType);
        mkInst 5 (ApplyInst (InstResult 4) [] false) EmptyTupleType;
        mkInst 2 (OtherInst "tuple" []) EmptyTupleType;
        mkInst 3 (OtherInst "return" [InstResult 2]) EmptyTupleType]] ∧
    fn_blocks S' ≠ fn_blocks ex_stub_calls_foo.
Proof.
  split; [vm_compute; reflexivity|]. split; [reflexivity|].
  split; [reflexivity|].
  eexists _, _. split; [vm_compute; reflexivity|].
  split; [vm_compute; reflexivity|]. split; [reflexivity|].
  vm_compute. discriminate.
Qed.

(** The options under which a call is erased, by the path taken. *)
Lemma erases_call_cases o :
  erases_call o = true →
  TargetFailureKind o = RuntimeMiscompile ∨
  (TargetFailureKind o ≠ OptimizerCrasher ∧
   TargetFailureKind o ≠ RuntimeMiscompile ∧
   NDEBUG o || bool_decide (TargetFailureKind o = RuntimeCrasher) = true).
Proof.
  unfold erases_call. destruct (TargetFailureKind o); intros H; try done.
  - by left.
  - right. by rewrite orb_true_r.
  - right. by rewrite H.
Qed.

Lemma erases_call_asserts o :
  erases_call o = true →
  NDEBUG o || bool_decide (TargetFailureKind o ≠ None_) = true.
Proof.
  unfold erases_call. destruct (TargetFailureKind o); intros H; try done;
    by rewrite ?H, ?orb_true_r.
Qed.

Lemma deletes_call_erases o :
  deletes_call (TargetFailureKind o) = true → erases_call o = true.
Proof. unfold erases_call. by destruct (TargetFailureKind o). Qed.

(** What the injection leaves when it erases the call: everything of the
    function is in its place, uses replaced, with the call gone and, on the
    crasher's path, the two new instructions where it stood. *)
Lemma inject_erases_call o cur s F pre_bs pre Apply post post_bs :
  erases_call o = true →
  Mod s !! cur = Some F →
  fn_blocks F = pre_bs ++ (pre ++ Apply :: post) :: post_bs →
  ∃ new s',
    inject o cur (length pre_bs) (length pre) Apply s = Returned tt s' ∧
    CausedError s' = true ∧
    getBlocks cur s'
      = lmap (lmap (undef_uses Apply)) pre_bs
        ++ (lmap (undef_uses Apply) pre ++ new ++ lmap (undef_uses Apply) post)
        :: lmap (lmap (undef_uses Apply)) post_bs ∧
    (∀ G, G ≠ cur → G ≠ RuntimeCrasherFunctionName →
          Mod s' !! G = Mod s !! G).
Proof.
  intros He HF HB.
  destruct (erases_call_cases o He) as [Ek|(Hk1 & Hk2 & Ha)].
  - exists [], (mkState true
      (<[cur := set_blocks F (miscompile_blocks (length pre_bs) (length pre)
                                Apply (fn_blocks F))]> (Mod s)) (dbgs s)).
    split; [by apply inject_miscompile_eq|]. split; [done|].
    split.
    + unfold getBlocks. simpl. rewrite lookup_insert_eq. simpl.
      by rewrite HB, miscompile_blocks_middle.
    + intros G ? _. simpl. by rewrite lookup_insert_ne.
  - eexists [_; _], _.
    split.
    { apply (inject_crasher_eq _ _ _ _ _ _ F); [done..|].
      by eapply is_definition_middle. }
    split; [done|].
    split.
    + unfold getBlocks. simpl. rewrite lookup_insert_eq. simpl.
      rewrite HB, crasher_blocks_middle. done.
    + intros G ? ?. simpl. rewrite lookup_insert_ne by done.
      by apply with_crasher_stub_ne.
Qed.

(** In an invocation that erases the matched call, the erase (and the
    setting of the flag) is the last thing that happens: the loop body
    returns there, the loops end with it, and the pass returns the state the
    injection left.  The scan cut off right behind the matched call gives
    the same outcome, so no instruction behind it is visited; what stood
    behind it in the function is still there, changed only by the
    replacement of the uses of the call; the functions other than this one
    and the stub are as they were. *)
Lemma run_returns_with_the_erase o cur s bi ii Apply :
  FunctionTarget o ≠ "" →
  CausedError s = false →
  erases_call o = true →
  findTargetCall (getBlocks cur s) (FunctionTarget o) = Some (bi, ii, Apply) →
  ∃ pre_bs pre post post_bs new s',
    getBlocks cur s = pre_bs ++ (pre ++ Apply :: post) :: post_bs ∧
    length pre_bs = bi ∧ length pre = ii ∧
    inject o cur bi ii Apply s = Returned tt s' ∧
    visit o cur bi ii Apply s = Returned Return_ s' ∧
    for_blocks (visit o cur) 0 (getBlocks cur s) s = Returned Return_ s' ∧
    for_blocks (visit o cur) 0 (pre_bs ++ [pre ++ [Apply]]) s
      = Returned Return_ s' ∧
    run o cur s = Returned tt s' ∧
    getBlocks cur s'
      = lmap (lmap (undef_uses Apply)) pre_bs
        ++ (lmap (undef_uses Apply) pre ++ new ++ lmap (undef_uses Apply) post)
        :: lmap (lmap (undef_uses Apply)) post_bs ∧
    (∀ G, G ≠ cur → G ≠ RuntimeCrasherFunctionName →
          Mod s' !! G = Mod s !! G).
Proof.
  intros Ht Hf Hk Hfind.
  destruct (findTargetCall_function _ _ _ _ _ _ Hfind)
    as (F & pre_bs & pre & post & post_bs & HF & HB & <- & <-).
  assert (getBlocks cur s = pre_bs ++ (pre ++ Apply :: post) :: post_bs) as HG
    by by rewrite (getBlocks_Some _ _ _ HF).
  pose proof Hfind as (Hat & Htarget & Hbefore)%findTargetCall_Some.
  destruct (inject_erases_call o cur s F pre_bs pre Apply post post_bs Hk HF HB)
    as (new & s' & Hinj & _ & Hbs' & Hother).
  exists pre_bs, pre, post, post_bs, new, s'.
  assert ((inject o cur (length pre_bs) (length pre) Apply;; mret Return_) s
          = Returned Return_ s') as Hret.
  { by erewrite bind_Returned by exact Hinj. }
  split; [done|]. split; [done|]. split; [done|]. split; [exact Hinj|].
  split; [by rewrite visit_target|].
  split.
  { rewrite for_blocks_find.
    fold (findTargetCall (getBlocks cur s) (FunctionTarget o)).
    by rewrite Hfind. }
  split.
  { rewrite for_blocks_find.
    assert (find_in_blocks (getBlocks cur s) (FunctionTarget o) 0
              (pre_bs ++ [pre ++ [Apply]])
            = Some (length pre_bs, length pre, Apply)) as ->; [|done].
    apply find_in_blocks_Some. rewrite Nat.sub_0_r.
    split; [lia|]. split; [apply inst_at_middle|]. split; [done|].
    intros bj ij J Hb HJ. apply (Hbefore bj ij J Hb).
    rewrite HG. by apply inst_at_cut. }
  split.
  { rewrite run_scan, Hfind; [done..|by apply erases_call_asserts]. }
  by split.
Qed.

(* ===================================================================== *)
(** ** The steps of an invocation                                         *)
(* ===================================================================== *)

Lemma tbind_record {B} ev (k : unit → TPass B) s h :
  (record ev ≫= k) s h = k tt s (h ++ [(ev, s)]).
Proof. done. Qed.

Lemma tbind_untraced {A B} (m : Pass A) (k : A → TPass B) s h a s' :
  m s = Returned a s' → (untraced m ≫= k) s h = k a s' h.
Proof. unfold mbind, TPass_bind, untraced. by intros ->. Qed.

Lemma tbind_Returned {A B} (m : TPass A) (k : A → TPass B) s h a s' h' :
  m s h = TReturned a s' h' → (m ≫= k) s h = k a s' h'.
Proof. unfold mbind, TPass_bind. by intros ->. Qed.

Lemma refines_untraced {A} (m : Pass A) : refines (untraced m) m.
Proof. intros s h. unfold untraced. by destruct (m s). Qed.

Lemma refines_ret {A} (a : A) : refines (mret a) (mret a).
Proof. done. Qed.

Lemma refines_bind {A B} (mT : TPass A) (m : Pass A)
  (kT : A → TPass B) (k : A → Pass B) :
  refines mT m → (∀ a, refines (kT a) (k a)) → refines (mT ≫= kT) (m ≫= k).
Proof.
  intros Hm Hk s h. unfold mbind, TPass_bind, Pass_bind.
  rewrite <- (Hm s h). destruct (mT s h); simpl; [apply Hk|done].
Qed.

Lemma refines_record {A} ev (mT : TPass A) (m : Pass A) :
  refines mT m → refines (record ev;; mT) m.
Proof. intros Hm s h. rewrite tbind_record. apply Hm. Qed.

Ltac refines_step :=
  first [ apply refines_record
        | apply refines_untraced
        | apply refines_ret
        | apply refines_bind; [|intros ?] ].

Lemma injectT_refines o cur bi ii Apply :
  refines (injectT o cur bi ii Apply) (inject o cur bi ii Apply).
Proof.
  unfold injectT, inject. apply refines_bind.
  { destruct (bool_decide _); refines_step. }
  intros _. destruct (bool_decide (TargetFailureKind o = RuntimeMiscompile));
    repeat refines_step.
Qed.

Lemma visitT_refines o cur bi ii II :
  refines (visitT o cur bi ii II) (visit o cur bi ii II).
Proof.
  unfold visitT, visit. apply refines_bind; [apply refines_untraced|].
  intros s0. destruct (negb _); [apply refines_ret|].
  apply refines_bind; [apply injectT_refines|intros ?; apply refines_ret].
Qed.

Lemma for_instsT_refines bodyT body bi BB :
  (∀ ii II, refines (bodyT ii II) (body ii II)) →
  ∀ ii, refines (for_instsT bodyT bi ii BB) (for_insts body ii BB).
Proof.
  intros Hbody. induction BB as [|II rest IH]; intros ii; simpl.
  - apply refines_ret.
  - apply refines_record. apply refines_bind; [apply Hbody|].
    intros []; [apply refines_record, IH|apply refines_ret].
Qed.

Lemma for_blocksT_refines bodyT body bs :
  (∀ bi ii II, refines (bodyT bi ii II) (body bi ii II)) →
  ∀ bi, refines (for_blocksT bodyT bi bs) (for_blocks body bi bs).
Proof.
  intros Hbody. induction bs as [|BB rest IH]; intros bi; simpl.
  - apply refines_ret.
  - apply refines_bind; [by apply for_instsT_refines|].
    intros []; [apply refines_record, IH|apply refines_ret].
Qed.

(** The pass with its steps returns, or aborts, as the pass does, with the
    same state. *)
Lemma runT_refines o cur : refines (runT o cur) (run o cur).
Proof.
  unfold runT, run. apply refines_bind; [apply refines_untraced|].
  intros s0. destruct (empty _ || CausedError s0); [apply refines_ret|].
  apply refines_bind; [apply refines_untraced|]. intros _.
  apply refines_bind; [|intros ?; apply refines_ret].
  apply for_blocksT_refines. intros bi ii II. apply visitT_refines.
Qed.

Lemma inst_at_fmap (f : SILInstruction → SILInstruction) bs bi ii :
  inst_at (lmap (lmap f) bs) bi ii = f <$> inst_at bs bi ii.
Proof.
  unfold inst_at. rewrite list_lookup_fmap.
  destruct (bs !! bi); simpl; [apply list_lookup_fmap|done].
Qed.

(** The call stands two places on once two instructions are linked in
    front of it. *)
Lemma inst_at_two_inserts pre_bs (pre : SILBasicBlock) Apply post post_bs A B :
  inst_at
    (alter (λ l, take (S (length pre)) l ++ B :: drop (S (length pre)) l)
       (length pre_bs)
       (alter (λ l, take (length pre) l ++ A :: drop (length pre) l)
          (length pre_bs)
          (pre_bs ++ (pre ++ Apply :: post) :: post_bs)))
    (length pre_bs) (S (S (length pre)))
  = Some Apply.
Proof.
  rewrite alter_middle, insert_middle, alter_middle.
  replace (pre ++ A :: Apply :: post) with ((pre ++ [A]) ++ Apply :: post)
    by by rewrite <- (assoc_L (++)).
  replace (S (length pre)) with (length (pre ++ [A]))
    by (rewrite length_app; simpl; lia).
  rewrite insert_middle.
  replace ((pre ++ [A]) ++ B :: Apply :: post)
    with ((pre ++ [A; B]) ++ Apply :: post)
    by by rewrite <- !(assoc_L (++)).
  replace (S (length (pre ++ [A]))) with (length (pre ++ [A; B]))
    by (rewrite !length_app; simpl; lia).
  apply inst_at_middle.
Qed.

Ltac total_op :=
  cbv [createFunctionRef createApply insertInst replaceAllUsesWith
       eraseFromParent modifyFunction dbgs_print dump modify get
       mbind Pass_bind mret Pass_ret];
  reflexivity.

Section steps.
Context (o : Options) (cur : string).

Lemma visitT_no_target bi ii II s h :
  isTargetApply (getBlocks cur s) (FunctionTarget o) II = false →
  visitT o cur bi ii II s h = TReturned Continue s h.
Proof.
  intros E. unfold visitT.
  rewrite (tbind_untraced get _ s h s s eq_refl). by rewrite E.
Qed.

Lemma visitT_target bi ii II s h :
  isTargetApply (getBlocks cur s) (FunctionTarget o) II = true →
  visitT o cur bi ii II s h = (injectT o cur bi ii II;; mret Return_) s h.
Proof.
  intros E. unfold visitT.
  rewrite (tbind_untraced get _ s h s s eq_refl). by rewrite E.
Qed.

(** The inner loop takes steps of the scan only, up to the injection at
    what the scan finds. *)
Lemma for_instsT_find bi BB : ∀ ii s h,
  ∃ hs, scan_only hs ∧
  for_instsT (visitT o cur bi) bi ii BB s h =
  match find_in_block (getBlocks cur s) (FunctionTarget o) bi ii BB with
  | Some (b, i, Apply) => (injectT o cur b i Apply;; mret Return_) s (h ++ hs)
  | None => TReturned Continue s (h ++ hs)
  end.
Proof.
  induction BB as [|II rest IH]; intros ii s h; simpl.
  { exists []. split; [constructor|]. by rewrite app_nil_r. }
  rewrite tbind_record.
  destruct (isTargetApply (getBlocks cur s) (FunctionTarget o) II) eqn:E.
  - exists [(EvVisit bi ii (inst_id II), s)].
    split; [by repeat constructor|].
    unfold mbind at 1, TPass_bind at 1. rewrite visitT_target by done.
    unfold mbind, TPass_bind, mret, TPass_ret.
    by destruct (injectT o cur bi ii II s _).
  - erewrite tbind_Returned by (by apply visitT_no_target).
    cbv beta iota. rewrite tbind_record.
    destruct (IH (S ii) s
                ((h ++ [(EvVisit bi ii (inst_id II), s)])
                 ++ [(EvAdvance (inst_id II), s)])) as (hs & Hhs & ->).
    exists ((EvVisit bi ii (inst_id II), s) :: (EvAdvance (inst_id II), s)
            :: hs).
    split; [by repeat constructor|].
    by rewrite <- !(assoc_L (++)).
Qed.

Lemma for_blocksT_find bs : ∀ bi s h,
  ∃ hs, scan_only hs ∧
  for_blocksT (visitT o cur) bi bs s h =
  match find_in_blocks (getBlocks cur s) (FunctionTarget o) bi bs with
  | Some (b, i, Apply) => (injectT o cur b i Apply;; mret Return_) s (h ++ hs)
  | None => TReturned Continue s (h ++ hs)
  end.
Proof.
  induction bs as [|BB rest IH]; intros bi s h; simpl.
  { exists []. split; [constructor|]. by rewrite app_nil_r. }
  destruct (for_instsT_find bi BB 0 s h) as (hs & Hhs & Hfor).
  unfold mbind at 1, TPass_bind at 1. rewrite Hfor.
  destruct (find_in_block _ _ _ _ _) as [[[b i] Apply]|].
  - exists hs. split; [done|].
    unfold mbind, TPass_bind, mret, TPass_ret.
    by destruct (injectT o cur b i Apply s _).
  - rewrite tbind_record.
    destruct (IH (S bi) s ((h ++ hs) ++ [(EvNextBlock bi, s)]))
      as (hs' & Hhs' & ->).
    exists (hs ++ (EvNextBlock bi, s) :: hs').
    split.
    { apply Forall_app. split; [done|]. by constructor. }
    by rewrite <- !(assoc_L (++)).
Qed.

(** Past the guard and the assertion, the pass takes the steps of the scan
    and then those of the injection at what the scan finds. *)
Lemma runT_scan s h :
  FunctionTarget o ≠ "" → CausedError s = false →
  NDEBUG o || bool_decide (TargetFailureKind o ≠ None_) = true →
  ∃ hs, scan_only hs ∧
  runT o cur s h =
  match findTargetCall (getBlocks cur s) (FunctionTarget o) with
  | Some (bi, ii, Apply) => injectT o cur bi ii Apply s (h ++ hs)
  | None => TReturned tt s (h ++ hs)
  end.
Proof.
  intros Ht Hf Ha.
  destruct (for_blocksT_find (getBlocks cur s) 0 s h) as (hs & Hhs & Hfor).
  exists hs. split; [done|]. unfold runT.
  rewrite (tbind_untraced get _ s h s s eq_refl).
  rewrite (empty_false _ Ht), Hf. simpl.
  erewrite tbind_untraced by (unfold assert_; by rewrite Ha).
  unfold mbind at 1, TPass_bind at 1. rewrite Hfor.
  fold (findTargetCall (getBlocks cur s) (FunctionTarget o)).
  destruct (findTargetCall _ _) as [[[b i] Apply]|]; [|done].
  unfold mbind, TPass_bind, mret, TPass_ret.
  by destruct (injectT o cur b i Apply s _) as [[] ? ?|].
Qed.

(** Before the guard and the assertion are passed, no step is taken. *)
Lemma runT_guarded s h :
  FunctionTarget o = "" ∨ CausedError s = true ∨
  NDEBUG o || bool_decide (TargetFailureKind o ≠ None_) = false →
  history (runT o cur s h) = h.
Proof.
  intros H. unfold runT. rewrite (tbind_untraced get _ s h s s eq_refl).
  destruct (empty (FunctionTarget o) || CausedError s) eqn:E; [done|].
  apply orb_false_iff in E as [Et Ef].
  destruct H as [H|[H|H]].
  - by rewrite H in Et.
  - congruence.
  - unfold mbind at 1, TPass_bind at 1, untraced, assert_. by rewrite H.
Qed.

(** The injection that does not get as far as the erase aborts, and takes
    no step. *)
Lemma injectT_aborts bi ii Apply s h :
  erases_call o = false →
  ∃ why, injectT o cur bi ii Apply s h = TAborted why s h.
Proof.
  unfold erases_call, injectT.
  destruct (TargetFailureKind o) eqn:Hk; intros He; try done.
  - by eexists.
  - eexists. simpl. unfold mbind at 1, TPass_bind at 1, mret at 1, TPass_ret at 1.
    unfold mbind at 1, TPass_bind at 1, untraced at 1, assert_. rewrite He.
    simpl. done.
Qed.

Lemma createFunctionRef_Some F bb pos callee s Fn :
  Mod s !! F = Some Fn →
  createFunctionRef F bb pos callee s
  = Returned (fresh_id (fn_blocks Fn))
      (set_Mod s (<[F := set_blocks Fn
         (alter (λ l, take pos l
                      ++ mkInst (fresh_id (fn_blocks Fn)) (FunctionRefInst callee)
                           (from_option fn_type EmptyTupleType (Mod s !! callee))
                      :: drop pos l)
                bb (fn_blocks Fn))]> (Mod s))).
Proof.
  intros H. unfold createFunctionRef.
  unfold mbind at 1, Pass_bind at 1, get. by apply insertInst_Some.
Qed.

(** The injection that erases the call: the erase is its last step but
    one, taken at the call, which is still in its block then; the setting
    of the flag is its last, taken in the state the erase left; it returns
    that state with the flag set. *)
Lemma injectT_erases F pre_bs pre Apply post post_bs s h :
  erases_call o = true →
  Mod s !! cur = Some F →
  fn_blocks F = pre_bs ++ (pre ++ Apply :: post) :: post_bs →
  ∃ hi s1 ij s2,
    no_erase hi ∧
    inst_id <$> inst_at (getBlocks cur s1) (length pre_bs) ij
      = Some (inst_id Apply) ∧
    eraseFromParent cur (length pre_bs) ij s1 = Returned tt s2 ∧
    injectT o cur (length pre_bs) (length pre) Apply s h
    = TReturned tt (mkState true (Mod s2) (dbgs s2))
        (h ++ hi ++ [(EvErase (inst_id Apply), s1); (EvSetCausedError, s2)]).
Proof.
  intros He HF HB.
  destruct (erases_call_cases o He) as [Hk|(Hk1 & Hk2 & Ha)].
  - eexists [_; _], _, (length pre), _. split; [|split; [|split]]; cycle 3.
    + unfold injectT. rewrite Hk. simpl.
      unfold mbind at 1, TPass_bind at 1, mret at 1, TPass_ret at 1.
      rewrite !tbind_record.
      erewrite tbind_untraced by (by apply modifyFunction_Some).
      rewrite tbind_record.
      erewrite tbind_untraced by total_op. rewrite tbind_record.
      unfold untraced, setCausedError, modify.
      rewrite <- !(assoc_L (++)). reflexivity.
    + by repeat constructor.
    + unfold getBlocks. simpl. rewrite lookup_insert_eq. simpl.
      rewrite inst_at_fmap, HB, inst_at_middle. done.
    + reflexivity.
  - pose proof (with_crasher_stub_definition _ _ _ HF
                  (is_definition_middle _ _ _ _ HB)) as HF'.
    eexists [_; _; _; _; _], _, (S (S (length pre))), _.
    split; [|split; [|split]]; cycle 3.
    + unfold injectT.
      rewrite (bool_decide_eq_false_2 _ Hk1), (bool_decide_eq_false_2 _ Hk2).
      unfold mbind at 1, TPass_bind at 1, mret at 1, TPass_ret at 1.
      erewrite tbind_untraced by (unfold assert_; by rewrite Ha).
      erewrite tbind_untraced by (by apply getRuntimeCrasherFunction_eq).
      erewrite tbind_untraced by total_op.
      erewrite tbind_untraced by total_op.
      rewrite tbind_record.
      erewrite tbind_untraced
        by (apply createFunctionRef_Some; simpl; exact HF').
      rewrite tbind_record.
      erewrite tbind_untraced
        by (apply insertInst_Some; simpl; apply lookup_insert_eq).
      rewrite !tbind_record.
      erewrite tbind_untraced
        by (apply modifyFunction_Some; simpl; apply lookup_insert_eq).
      rewrite tbind_record.
      erewrite tbind_untraced by total_op. rewrite tbind_record.
      unfold untraced, setCausedError, modify.
      rewrite <- !(assoc_L (++)). reflexivity.
    + by repeat constructor.
    + unfold getBlocks. simpl. rewrite lookup_insert_eq. simpl.
      rewrite inst_at_fmap, HB, inst_at_two_inserts. done.
    + reflexivity.
Qed.
End steps.

(** Where a history with one erase can be cut at an erase. *)
Lemma history_cut_at_erase (hs : History) e1 e2 : ∀ h1 x h2,
  no_erase hs → is_erase e2.1 = false → is_erase x.1 = true →
  hs ++ [e1; e2] = h1 ++ x :: h2 →
  h1 = hs ∧ x = e1 ∧ h2 = [e2].
Proof.
  induction hs as [|a hs IH]; intros h1 x h2 Hhs He2 Hx Heq.
  - destruct h1 as [|b h1]; simpl in Heq.
    + by injection Heq as <- <-.
    + injection Heq as <- Heq. destruct h1 as [|c h1]; simpl in Heq.
      * injection Heq as <- _. congruence.
      * injection Heq as _ Heq. by destruct h1.
  - apply Forall_cons in Hhs as [Ha Hhs].
    destruct h1 as [|b h1]; simpl in Heq.
    + injection Heq as <- _. congruence.
    + injection Heq as <- Heq.
      destruct (IH h1 x h2 Hhs He2 Hx Heq) as (-> & -> & ->). done.
Qed.

Lemma scan_only_no_erase hs : scan_only hs → no_erase hs.
Proof.
  intros H. eapply Forall_impl; [exact H|].
  intros [ev st]. simpl. by destruct ev.
Qed.

Lemma no_erase_not_cut (hs h1 h2 : History) x :
  no_erase hs → is_erase x.1 = true → hs ≠ h1 ++ x :: h2.
Proof.
  intros Hhs Hx ->. apply Forall_app in Hhs as [_ Hhs].
  apply Forall_cons in Hhs as [Hx' _]. congruence.
Qed.

(** C10. Every invocation of the pass, with the steps it takes at the
    instructions written down in the order it takes them: if it erases an
    instruction, that instruction is the matched call, which stood in its
    block until then, and nothing was erased before; after the erase the
    one step left is the setting of the flag, taken in the state the erase
    left; then the invocation returns, with the module and the debug stream
    of that state.  So after the erase no instruction, of this function or
    another, is visited, read or changed, the loops do not go on through
    the erased instruction, and the erased instruction is not accessed
    again.  The pass itself returns the same state. *)
Theorem C10_nothing_follows_the_erase o cur s h1 id s1 h2 :
  history (runT o cur s []) = h1 ++ (EvErase id, s1) :: h2 →
  ∃ bi ii Apply ij s2 s',
    (* the pass got as far as the injection that erases *)
    FunctionTarget o ≠ "" ∧ CausedError s = false ∧ erases_call o = true ∧
    findTargetCall (getBlocks cur s) (FunctionTarget o) = Some (bi, ii, Apply) ∧
    (* the erase: of the matched call, the first erase *)
    inst_id Apply = id ∧
    no_erase h1 ∧
    inst_id <$> inst_at (getBlocks cur s1) bi ij = Some id ∧
    eraseFromParent cur bi ij s1 = Returned tt s2 ∧
    (* after the erase *)
    h2 = [(EvSetCausedError, s2)] ∧
    Forall (λ e, is_scan e.1 = false ∧ accessed e.1 = None) h2 ∧
    runT o cur s [] = TReturned tt s' (h1 ++ (EvErase id, s1) :: h2) ∧
    s' = mkState true (Mod s2) (dbgs s2) ∧
    run o cur s = Returned tt s'.
Proof.
  intros Hh.
  destruct (decide (FunctionTarget o = "")) as [Ht|Ht].
  { rewrite runT_guarded in Hh by by left. by destruct h1. }
  destruct (CausedError s) eqn:Hf.
  { rewrite runT_guarded in Hh by by right; left. by destruct h1. }
  destruct (NDEBUG o || bool_decide (TargetFailureKind o ≠ None_)) eqn:Ha;
    [|rewrite runT_guarded in Hh by (by right; right); by destruct h1].
  destruct (runT_scan o cur s [] Ht Hf Ha) as (hs & Hhs & Hrun).
  simpl in Hrun.
  destruct (findTargetCall (getBlocks cur s) (FunctionTarget o))
    as [[[bi ii] Apply]|] eqn:Hfind.
  2: { rewrite Hrun in Hh. simpl in Hh.
       by apply no_erase_not_cut in Hh; [|apply scan_only_no_erase|]. }
  destruct (erases_call o) eqn:He.
  2: { destruct (injectT_aborts o cur bi ii Apply s hs He) as (why & Hinj).
       rewrite Hrun, Hinj in Hh. simpl in Hh.
       by apply no_erase_not_cut in Hh; [|apply scan_only_no_erase|]. }
  destruct (findTargetCall_function _ _ _ _ _ _ Hfind)
    as (F & pre_bs & pre & post & post_bs & HF & HB & <- & <-).
  destruct (injectT_erases o cur F pre_bs pre Apply post post_bs s hs He HF HB)
    as (hi & s1' & ij & s2 & Hhi & Hat & Herase & Hinj).
  rewrite Hinj in Hrun. rewrite Hrun in Hh. simpl in Hh.
  rewrite (assoc_L (++)) in Hh.
  apply history_cut_at_erase in Hh as (-> & [= -> ->] & ->); [|..|done|done].
  2: { apply Forall_app. split; [by apply scan_only_no_erase|done]. }
  exists (length pre_bs), (length pre), Apply, ij, s2,
    (mkState true (Mod s2) (dbgs s2)).
  do 5 (split; [done|]).
  split; [apply Forall_app; split; [by apply scan_only_no_erase|done]|].
  split; [done|]. split; [done|]. split; [done|].
  split; [by repeat constructor|].
  split; [by rewrite Hrun, <- (assoc_L (++))|]. split; [done|].
  rewrite <- (runT_refines o cur s []). by rewrite Hrun.
Qed.

Lemma C10_witness :
  ∃ h1 s1 s2 s',
    runT (mkOptions "foo" RuntimeMiscompile false) "caller" ex_state []
    = TReturned tt s' (h1 ++ [(EvErase 1, s1); (EvSetCausedError, s2)]) ∧
    fst <$> h1
    = [EvVisit 0 0 0; EvAdvance 0; EvVisit 0 1 1; EvRead 1; EvReplaceUses 1] ∧
    run (mkOptions "foo" RuntimeMiscompile false) "caller" ex_state
    = Returned tt s'.
Proof.
  pose (H := history (runT (mkOptions "foo" RuntimeMiscompile false) "caller"
                        ex_state [])).
  destruct (C10_nothing_follows_the_erase
              (mkOptions "foo" RuntimeMiscompile false) "caller" ex_state
              (take 5 H) 1 (from_option snd ex_state (H !! 5)) (drop 6 H))
    as (bi & ii & Apply & ij & s2 & s' & _ & _ & _ & _ & _ & _ & _ & _ & Hh2
        & _ & Hrun & _ & Hpass).
  - vm_compute. reflexivity.
  - exists (take 5 H), (from_option snd ex_state (H !! 5)), s2, s'.
    rewrite Hh2 in Hrun. split; [exact Hrun|].
    split; [vm_compute; reflexivity|exact Hpass].
Defined.

(** C1 (amended). Under the failure kinds that delete the call
    ([RuntimeMiscompile] and [RuntimeCrasher]), with a target name and the
    flag not set, a run over a worklist that comes across at least one
    matching call site injects at exactly one, the first in
    function-then-block-then-instruction order: the functions in front of
    its function are run without any change, the flag still unset; the run
    on its function is the injection at that call site and sets the flag;
    from then on every run returns at once with the state, flag included,
    as it is; and the state at the end of the whole run is the state that
    one injection left. *)
Theorem C1_exactly_one_injection o worklist s F bi ii Apply rest :
  deletes_call (TargetFailureKind o) = true →
  FunctionTarget o ≠ "" →
  CausedError s = false →
  run_sites (Mod s) (FunctionTarget o) worklist = (F, (bi, ii, Apply)) :: rest →
  ∃ pre post s',
    worklist = pre ++ F :: post ∧
    (* in front of the first call site: no change *)
    (∀ G, G ∈ pre → target_sites (getBlocks G s) (FunctionTarget o) = []) ∧
    (∀ G, G ∈ pre → run o G s = Returned tt s) ∧
    runOnFunctions o pre s = Returned tt s ∧
    (* at the first call site: the one injection *)
    findTargetCall (getBlocks F s) (FunctionTarget o) = Some (bi, ii, Apply) ∧
    inject o F bi ii Apply s = Returned tt s' ∧
    run o F s = Returned tt s' ∧
    CausedError s' = true ∧
    (* from then on: no matching, no change *)
    (∀ G, run o G s' = Returned tt s') ∧
    (∀ wl, runOnFunctions o wl s' = Returned tt s') ∧
    (* the whole run *)
    runOnFunctions o worklist s = Returned tt s'.
Proof.
  intros Hk Ht Hf Hsites.
  destruct (run_sites_first _ _ _ _ _ _ Hsites)
    as (pre & post & -> & Hpre & Hfind).
  fold (getBlocks F s) in Hfind.
  apply deletes_call_erases in Hk.
  destruct (findTargetCall_function _ _ _ _ _ _ Hfind)
    as (Fn & pre_bs & pre0 & post0 & post_bs & HF & HB & <- & <-).
  destruct (inject_erases_call o F s Fn _ _ _ _ _ Hk HF HB)
    as (new & s' & Hinj & Hflag & _).
  pose proof (erases_call_asserts o Hk) as Ha.
  assert (∀ G, G ∈ pre → run o G s = Returned tt s) as Hpre_run.
  { intros G HG. rewrite run_scan by done. unfold getBlocks.
    by rewrite (Hpre G HG). }
  assert (run o F s = Returned tt s') as Hrun.
  { by rewrite run_scan, Hfind. }
  assert (∀ wl, runOnFunctions o wl s' = Returned tt s') as Hafter.
  { intros wl. apply runOnFunctions_noop. intros G _.
    by apply run_CausedError. }
  exists pre, post, s'.
  split; [done|].
  split; [by intros G HG; apply target_sites_nil, Hpre|].
  split; [done|].
  split; [by apply runOnFunctions_noop|].
  split; [done|]. split; [done|]. split; [done|]. split; [done|].
  split; [by intros G; apply run_CausedError|].
  split; [done|].
  rewrite runOnFunctions_app.
  erewrite bind_Returned by (by apply runOnFunctions_noop).
  simpl. erewrite bind_Returned by exact Hrun. apply Hafter.
Qed.

Lemma C1_witness :
  ∃ s', runOnFunctions (mkOptions "foo" RuntimeCrasher false)
          ["foo"; "other"; "caller"] ex_state = Returned tt s' ∧
        inject (mkOptions "foo" RuntimeCrasher false) "other" 1 1
          (mkInst 3 (ApplyInst (InstResult 2) [] false) ex_Int) ex_state
        = Returned tt s' ∧
        CausedError s' = true.
Proof.
  destruct (C1_exactly_one_injection
              (mkOptions "foo" RuntimeCrasher false)
              ["foo"; "other"; "caller"] ex_state "other" 1 1
              (mkInst 3 (ApplyInst (InstResult 2) [] false) ex_Int)
              [("caller", (0, 1, mkInst 1 (ApplyInst (InstResult 0) [] false) ex_Int));
               ("caller", (0, 3, mkInst 3 (ApplyInst (InstResult 0) [InstResult 1] false) ex_Int))])
    as (pre & post & s' & _ & _ & _ & _ & _ & Hinj & _ & Hflag & _ & _ & Hall).
  - reflexivity.
  - discriminate.
  - reflexivity.
  - reflexivity.
  - exists s'. split; [exact Hall|]. split; [exact Hinj|exact Hflag].
Defined.

(** Under [OptimizerCrasher] a run ends at the first matching call site,
    by the abort, with the state as it was when the run began. *)
Lemma runOnFunctions_OptimizerCrasher o worklist s F site rest :
  TargetFailureKind o = OptimizerCrasher →
  FunctionTarget o ≠ "" →
  CausedError s = false →
  run_sites (Mod s) (FunctionTarget o) worklist = (F, site) :: rest →
  runOnFunctions o worklist s
  = Aborted (LLVMUnreachable "Found the target!") s.
Proof.
  intros Hk Ht Hf Hsites.
  destruct (run_sites_first _ _ _ _ _ _ Hsites)
    as (pre & post & -> & Hpre & Hfind).
  assert (NDEBUG o || bool_decide (TargetFailureKind o ≠ None_) = true) as Ha
    by by rewrite Hk, orb_true_r.
  rewrite runOnFunctions_app.
  erewrite bind_Returned.
  2:{ apply runOnFunctions_noop. intros G HG. rewrite run_scan by done.
      unfold getBlocks. by rewrite (Hpre G HG). }
  simpl. apply bind_Aborted. rewrite run_scan by done.
  unfold getBlocks. rewrite Hfind. destruct site as [[bi ii] Apply].
  by apply inject_crash_optimizer.
Qed.

(** C1 as the spec has it fails: it holds for no failure kind that does
    not delete the call.  Over a worklist with three matching call sites,
    the run under [OptimizerCrasher] ends in the abort at the first of them,
    and the run under [None], built with assertions, ends at the assertion
    at the entry of the pass; in both the flag is never set and no call site
    is changed. *)
Lemma C1_counterexample :
  length (run_sites ex_module "foo" ["caller"; "other"]) = 3 ∧
  runOnFunctions (mkOptions "foo" OptimizerCrasher false) ["caller"; "other"]
    ex_state
  = Aborted (LLVMUnreachable "Found the target!") ex_state ∧
  runOnFunctions (mkOptions "foo" None_ false) ["caller"; "other"] ex_state
  = Aborted (AssertionFailure "TargetFailureKind != FailureKind::None") ex_state ∧
  CausedError ex_state = false.
Proof. repeat split; reflexivity. Qed.

(* ===================================================================== *)
(** ** Every outcome of the pass                                          *)
(* ===================================================================== *)

(** Past the entry assertion the failure kind either crashes the optimizer
    or erases the call. *)
Lemma asserts_pass_cases o :
  NDEBUG o || bool_decide (TargetFailureKind o ≠ None_) = true →
  TargetFailureKind o = OptimizerCrasher ∨ erases_call o = true.
Proof.
  unfold erases_call. destruct (TargetFailureKind o), (NDEBUG o); simpl; auto.
Qed.

(** The state an erasing invocation returns, in full. *)
Lemma run_erases_state o cur s bi ii Apply :
  FunctionTarget o ≠ "" → CausedError s = false → erases_call o = true →
  findTargetCall (getBlocks cur s) (FunctionTarget o) = Some (bi, ii, Apply) →
  ∃ F pre_bs pre post post_bs new M' d',
    Mod s !! cur = Some F ∧
    fn_blocks F = pre_bs ++ (pre ++ Apply :: post) :: post_bs ∧
    length pre_bs = bi ∧ length pre = ii ∧
    run o cur s
    = Returned tt
        (mkState true
           (<[cur := set_blocks F
                (lmap (lmap (undef_uses Apply)) pre_bs
                 ++ (lmap (undef_uses Apply) pre ++ new
                       ++ lmap (undef_uses Apply) post)
                 :: lmap (lmap (undef_uses Apply)) post_bs)]> M') d') ∧
    ((TargetFailureKind o = RuntimeMiscompile ∧
      M' = Mod s ∧ d' = dbgs s ∧ new = []) ∨
     (TargetFailureKind o ≠ RuntimeMiscompile ∧
      M' = with_crasher_stub (Mod s) ∧
      d' = dbgs s ++ [DbgText "Runtime Crasher Func!
";
                      DbgDump RuntimeCrasherFunctionName
                        (with_crasher_stub (Mod s) !! RuntimeCrasherFunctionName)] ∧
      new = [crasher_ref
               (from_option fn_type EmptyTupleType
                  (with_crasher_stub (Mod s) !! RuntimeCrasherFunctionName))
               (fn_blocks F);
             crasher_apply (fn_blocks F)])).
Proof.
  intros Ht Hf He Hfind.
  destruct (findTargetCall_function _ _ _ _ _ _ Hfind)
    as (F & pre_bs & pre & post & post_bs & HF & HB & <- & <-).
  exists F, pre_bs, pre, post, post_bs.
  rewrite run_scan, Hfind; [|done|done|by apply erases_call_asserts].
  destruct (erases_call_cases o He) as [Ek|(Hk1 & Hk2 & Ha)].
  - exists [], (Mod s), (dbgs s). do 4 (split; [done|]).
    split; [|by left].
    rewrite (inject_miscompile_eq _ _ _ _ _ _ F) by done.
    by rewrite HB, miscompile_blocks_middle.
  - eexists [_; _], _, _. do 4 (split; [done|]).
    split; [|right; split; [done|]; split; [done|]; split; [done|]; reflexivity].
    rewrite (inject_crasher_eq _ _ _ _ _ _ F);
      [|done|done|done|done|by eapply is_definition_middle].
    by rewrite HB, crasher_blocks_middle.
Qed.

(** Every outcome of one invocation: nothing changed; the assertion at the
    entry; the optimizer crash at the first matching call; or the erasure
    at the first matching call, with the flag set. *)
Lemma run_outcome o cur s :
  run o cur s = Returned tt s ∨
  (FunctionTarget o ≠ "" ∧ CausedError s = false ∧
   TargetFailureKind o = None_ ∧ NDEBUG o = false ∧
   run o cur s
   = Aborted (AssertionFailure "TargetFailureKind != FailureKind::None") s) ∨
  (FunctionTarget o ≠ "" ∧ CausedError s = false ∧
   TargetFailureKind o = OptimizerCrasher ∧
   (∃ site, findTargetCall (getBlocks cur s) (FunctionTarget o) = Some site) ∧
   run o cur s = Aborted (LLVMUnreachable "Found the target!") s) ∨
  (FunctionTarget o ≠ "" ∧ CausedError s = false ∧ erases_call o = true ∧
   ∃ site s',
     findTargetCall (getBlocks cur s) (FunctionTarget o) = Some site ∧
     run o cur s = Returned tt s' ∧ CausedError s' = true).
Proof.
  destruct (decide (FunctionTarget o = "")) as [Ht|Ht].
  { left. by apply run_no_target. }
  destruct (CausedError s) eqn:Hf.
  { left. by apply run_CausedError. }
  destruct (NDEBUG o || bool_decide (TargetFailureKind o ≠ None_)) eqn:Ha.
  - destruct (findTargetCall (getBlocks cur s) (FunctionTarget o))
      as [[[bi ii] Apply]|] eqn:Hfind.
    + destruct (asserts_pass_cases o Ha) as [Hk|He].
      * right. right. left. do 3 (split; [done|]). split; [eauto|].
        rewrite run_scan, Hfind by done. by apply inject_crash_optimizer.
      * right. right. right. do 3 (split; [done|]).
        destruct (run_erases_state o cur s bi ii Apply Ht Hf He Hfind)
          as (? & ? & ? & ? & ? & ? & ? & ? & _ & _ & _ & _ & Hret & _).
        eexists _, _. split; [done|]. split; [exact Hret|done].
    + left. by rewrite run_scan, Hfind.
  - right. left. apply orb_false_iff in Ha as [Hn Hk].
    apply bool_decide_eq_false in Hk.
    assert (TargetFailureKind o = None_) as Hk'
      by by destruct (decide (TargetFailureKind o = None_)).
    do 4 (split; [done|]). by apply run_None_asserts.
Qed.

Lemma run_Aborted_state o cur s why s' :
  run o cur s = Aborted why s' → s' = s.
Proof.
  destruct (run_outcome o cur s)
    as [H|[(_ & _ & _ & _ & H)|[(_ & _ & _ & _ & H)
        |(_ & _ & _ & site & s1 & _ & H & _)]]];
    rewrite H; congruence.
Qed.

Lemma run_Returned_cases o cur s s' :
  run o cur s = Returned tt s' →
  s' = s ∨
  (FunctionTarget o ≠ "" ∧ CausedError s = false ∧ CausedError s' = true ∧
   erases_call o = true ∧
   ∃ site, findTargetCall (getBlocks cur s) (FunctionTarget o) = Some site).
Proof.
  destruct (run_outcome o cur s)
    as [H|[(_ & _ & _ & _ & H)|[(_ & _ & _ & _ & H)
        |(Ht & Hf & He & site & s1 & Hfind & H & Hflag)]]];
    rewrite H; try done.
  - intros [= <-]. by left.
  - intros [= <-]. right. repeat (split; [done|]). eauto.
Qed.

(** X1. Whenever the pass aborts, by [llvm_unreachable] or by a failed
    assertion, under whatever options, the state at the abort is the state
    at entry: no abort follows a change. *)
Theorem X1_abort_leaves_the_state o cur s why s' :
  run o cur s = Aborted why s' → s' = s.
Proof.
  intros Hrun.
  destruct (run_outcome o cur s)
    as [H|[(_ & _ & _ & _ & H)|[(_ & _ & _ & _ & H)
        |(_ & _ & _ & site & s1 & _ & H & _)]]].
  - by rewrite H in Hrun.
  - rewrite H in Hrun. by injection Hrun.
  - rewrite H in Hrun. by injection Hrun.
  - by rewrite H in Hrun.
Qed.

Lemma X1_witness :
  run (mkOptions "foo" OptimizerCrasher false) "caller" ex_state
    = Aborted (LLVMUnreachable "Found the target!") ex_state ∧
  ex_state = ex_state.
Proof.
  split; [vm_compute; reflexivity|].
  apply (X1_abort_leaves_the_state (mkOptions "foo" OptimizerCrasher false)
           "caller" ex_state (LLVMUnreachable "Found the target!") ex_state).
  vm_compute. reflexivity.
Defined.

(** X2. The pass aborts in exactly two situations, both with a target
    name and the flag not set: the failure kind is [None] and assertions
    are compiled in (whatever the function holds, even no body at all), or
    the failure kind is [OptimizerCrasher] and the function has a matching
    call.  In every other situation it returns. *)
Theorem X2_when_the_pass_aborts o cur s :
  (∃ why s', run o cur s = Aborted why s') ↔
  FunctionTarget o ≠ "" ∧ CausedError s = false ∧
  ((TargetFailureKind o = None_ ∧ NDEBUG o = false) ∨
   (TargetFailureKind o = OptimizerCrasher ∧
    findTargetCall (getBlocks cur s) (FunctionTarget o) ≠ None)).
Proof.
  split.
  - intros (why & s' & Hrun).
    destruct (run_outcome o cur s)
      as [H|[(Ht & Hf & Hk & Hn & _)|[(Ht & Hf & Hk & [site Hfind] & _)
          |(_ & _ & _ & site & s1 & _ & H & _)]]].
    + by rewrite H in Hrun.
    + split; [done|]. split; [done|]. by left.
    + split; [done|]. split; [done|]. right. split; [done|]. by rewrite Hfind.
    + by rewrite H in Hrun.
  - intros (Ht & Hf & [[Hk Hn]|[Hk Hfind]]).
    + eexists _, _. by apply run_None_asserts.
    + destruct (findTargetCall _ _) as [[[bi ii] Apply]|] eqn:E; [|done].
      eexists _, _. rewrite run_scan, E; [|done|done|by rewrite Hk, orb_true_r].
      by apply inject_crash_optimizer.
Qed.

(** X3. A run of the pass that returns has either changed nothing at all,
    or has set the flag, which was not set before; and it sets the flag
    only with a target name, under options that erase the call, on a
    function in which the scan found a matching call. *)
Theorem X3_change_only_with_the_flag o cur s s' :
  run o cur s = Returned tt s' →
  s' = s ∨
  (FunctionTarget o ≠ "" ∧ CausedError s = false ∧ CausedError s' = true ∧
   erases_call o = true ∧
   ∃ site, findTargetCall (getBlocks cur s) (FunctionTarget o) = Some site).
Proof.
  intros Hrun.
  destruct (run_outcome o cur s)
    as [H|[(_ & _ & _ & _ & H)|[(_ & _ & _ & _ & H)
        |(Ht & Hf & He & site & s1 & Hfind & H & Hflag)]]].
  - left. rewrite H in Hrun. by injection Hrun.
  - by rewrite H in Hrun.
  - by rewrite H in Hrun.
  - right. rewrite H in Hrun. injection Hrun as <-.
    repeat (split; [done|]). eauto.
Qed.

Lemma X3_witness :
  ∃ s', run (mkOptions "foo" RuntimeMiscompile false) "caller" ex_state
        = Returned tt s' ∧
        (s' = ex_state ∨ CausedError s' = true).
Proof.
  assert (∃ s', run (mkOptions "foo" RuntimeMiscompile false) "caller" ex_state
                = Returned tt s') as [s' Hrun]
    by (eexists; vm_compute; reflexivity).
  exists s'. split; [exact Hrun|].
  destruct (X3_change_only_with_the_flag
              (mkOptions "foo" RuntimeMiscompile false) "caller" ex_state s'
              Hrun) as [H|(_ & _ & H & _)].
  - left. exact H.
  - right. exact H.
Defined.

(** X4. On a function of the module in which no instruction is a direct
    call to the target, whatever else it holds, calls of other functions
    and calls through values that are no function_ref included, the pass
    changes nothing and returns, under every failure kind but [None] with
    assertions compiled in. *)
Theorem X4_no_match_no_change o cur s F :
  NDEBUG o || bool_decide (TargetFailureKind o ≠ None_) = true →
  Mod s !! cur = Some F →
  (∀ bi ii J, inst_at (fn_blocks F) bi ii = Some J →
              ¬ is_direct_call_to (fn_blocks F) (FunctionTarget o) J) →
  run o cur s = Returned tt s.
Proof.
  intros Ha HF Hnone.
  destruct (decide (FunctionTarget o = "")) as [Ht|Ht].
  { by apply run_no_target. }
  destruct (CausedError s) eqn:Hf.
  { by apply run_CausedError. }
  rewrite run_scan by done. rewrite (getBlocks_Some _ _ _ HF).
  assert (findTargetCall (fn_blocks F) (FunctionTarget o) = None) as ->;
    [|done].
  apply findTargetCall_None. intros bj ij J HJ.
  specialize (Hnone bj ij J HJ). rewrite <- isTargetApply_direct in Hnone.
  by destruct (isTargetApply _ _ J).
Qed.

Lemma X4_witness :
  run (mkOptions "bar" RuntimeCrasher false) "caller" ex_state
    = Returned tt ex_state ∧
  run (mkOptions "bar" OptimizerCrasher false) "other" ex_state
    = Returned tt ex_state.
Proof.
  split.
  - apply (X4_no_match_no_change (mkOptions "bar" RuntimeCrasher false)
             "caller" ex_state ex_caller); [reflexivity|reflexivity|].
    intros bi ii J HJ Hd%isTargetApply_direct.
    assert (findTargetCall (fn_blocks ex_caller) "bar" = None) as Hnone
      by (vm_compute; reflexivity).
    rewrite findTargetCall_None in Hnone.
    change (isTargetApply (fn_blocks ex_caller) "bar" J = true) in Hd.
    rewrite (Hnone bi ii J HJ) in Hd. discriminate.
  - apply (X4_no_match_no_change (mkOptions "bar" OptimizerCrasher false)
             "other" ex_state ex_other); [reflexivity|reflexivity|].
    intros bi ii J HJ Hd%isTargetApply_direct.
    assert (findTargetCall (fn_blocks ex_other) "bar" = None) as Hnone
      by (vm_compute; reflexivity).
    rewrite findTargetCall_None in Hnone.
    change (isTargetApply (fn_blocks ex_other) "bar" J = true) in Hd.
    rewrite (Hnone bi ii J HJ) in Hd. discriminate.
Defined.

(* ===================================================================== *)
(** ** What the pass leaves alone                                         *)
(* ===================================================================== *)

Lemma same_signature_refl F : same_signature F F.
Proof. by repeat split. Qed.

Lemma same_signature_set_blocks F bs : same_signature F (set_blocks F bs).
Proof. by repeat split. Qed.

Lemma with_crasher_stub_keeps M G F :
  M !! G = Some F →
  ∃ F', with_crasher_stub M !! G = Some F' ∧ same_signature F F' ∧
        (is_definition F = true → F' = F) ∧
        (G ≠ RuntimeCrasherFunctionName → F' = F).
Proof.
  intros HG. destruct (decide (G = RuntimeCrasherFunctionName)) as [->|Hne].
  - unfold with_crasher_stub. rewrite HG.
    destruct (is_definition F) eqn:HD.
    + exists F. rewrite HG. by repeat split.
    + eexists. rewrite lookup_insert_eq. split; [done|].
      split; [apply same_signature_set_blocks|]. by split.
  - exists F. rewrite with_crasher_stub_ne by done. by repeat split.
Qed.

(** X5. A run of the pass that returns removes no function and changes the
    type, linkage and attributes of none; a function that had a body has
    as many blocks as before; a function other than the one the pass ran
    on is as it was, unless it is the stub that was only declared; and the
    one function that may be new is the stub, never under
    [RuntimeMiscompile]. *)
Theorem X5_functions_are_kept o cur s s' :
  run o cur s = Returned tt s' →
  (∀ G F, Mod s !! G = Some F →
     ∃ F', Mod s' !! G = Some F' ∧ same_signature F F' ∧
           (is_definition F = true →
            length (fn_blocks F') = length (fn_blocks F)) ∧
           (G ≠ cur → is_definition F = true → F' = F) ∧
           (G ≠ cur → G ≠ RuntimeCrasherFunctionName → F' = F)) ∧
  (∀ G, Mod s !! G = None → G ≠ RuntimeCrasherFunctionName →
        Mod s' !! G = None) ∧
  (TargetFailureKind o = RuntimeMiscompile →
   ∀ G, Mod s !! G = None → Mod s' !! G = None).
Proof.
  intros Hrun.
  destruct (run_Returned_cases o cur s s' Hrun)
    as [->|(Ht & Hf & _ & He & [[bi ii] Apply] & Hfind)].
  { split; [|by split]. intros G F HG. exists F.
    split; [done|]. split; [apply same_signature_refl|]. by repeat split. }
  destruct (run_erases_state o cur s bi ii Apply Ht Hf He Hfind)
    as (Fc & pre_bs & pre & post & post_bs & new & M' & d' & HF & HB & _ & _
        & Hret & HM').
  rewrite Hret in Hrun. injection Hrun as <-. simpl.
  assert (is_definition Fc = true) as HD by by eapply is_definition_middle.
  set (bs' := lmap (lmap (undef_uses Apply)) pre_bs ++ _ :: _).
  assert (length bs' = length (fn_blocks Fc)) as Hlen.
  { unfold bs'. rewrite HB, !length_app. simpl. by rewrite !length_fmap. }
  assert (∀ G F, Mod s !! G = Some F →
            ∃ F', M' !! G = Some F' ∧ same_signature F F' ∧
                  (is_definition F = true → F' = F) ∧
                  (G ≠ RuntimeCrasherFunctionName → F' = F)) as Hkeep.
  { intros G F HG. destruct HM' as [(_ & -> & _)|(_ & -> & _)].
    - exists F. split; [done|]. split; [apply same_signature_refl|]. done.
    - by apply with_crasher_stub_keeps. }
  assert (∀ G, Mod s !! G = None → G ≠ RuntimeCrasherFunctionName →
               M' !! G = None) as Hnew.
  { intros G HG Hne. destruct HM' as [(_ & -> & _)|(_ & -> & _)]; [done|].
    by rewrite with_crasher_stub_ne. }
  split; [|split].
  - intros G F HG. destruct (Hkeep G F HG) as (F' & HG' & Hsig & Hdef & Hne).
    destruct (decide (G = cur)) as [->|Hcur].
    + rewrite HF in HG. injection HG as <-. rewrite (Hdef HD) in HG', Hsig.
      exists (set_blocks Fc bs'). rewrite lookup_insert_eq.
      split; [done|]. split; [apply same_signature_set_blocks|].
      by repeat split.
    + exists F'. rewrite lookup_insert_ne by done.
      split; [done|]. split; [done|].
      split; [by intros ->%Hdef|]. split; [by intros _|by intros _].
  - intros G HG Hne. rewrite lookup_insert_ne; [by apply Hnew|].
    intros <-. by rewrite HF in HG.
  - intros Hk G HG. destruct HM' as [(_ & -> & _)|(Hk' & _)]; [|done].
    rewrite lookup_insert_ne; [done|]. intros <-. by rewrite HF in HG.
Qed.

Lemma X5_witness :
  ∃ s', run (mkOptions "foo" RuntimeCrasher false) "caller" ex_state
        = Returned tt s' ∧
        Mod s' !! "other" = Some ex_other ∧
        Mod s' !! "no such function" = None.
Proof.
  assert (∃ s', run (mkOptions "foo" RuntimeCrasher false) "caller" ex_state
                = Returned tt s') as [s' Hrun]
    by (eexists; vm_compute; reflexivity).
  exists s'. split; [exact Hrun|].
  destruct (X5_functions_are_kept
              (mkOptions "foo" RuntimeCrasher false) "caller" ex_state s'
              Hrun) as (Hkeep & Hnew & _).
  split.
  - destruct (Hkeep "other" ex_other) as (F' & HF' & _ & _ & _ & Heq);
      [vm_compute; reflexivity|].
    rewrite HF'. f_equal. apply Heq; discriminate.
  - apply Hnew; [vm_compute; reflexivity|discriminate].
Defined.

(** X6. The injection keeps the last instruction of every block of the
    function in its place: where the erased call was not itself the last
    instruction of its block, each block ends after the run in the
    instruction it ended in before, with only that instruction's uses of
    the call replaced.  So a block's terminator is never removed or moved. *)
Theorem X6_last_instructions_stay o cur s bi ii Apply :
  FunctionTarget o ≠ "" →
  CausedError s = false →
  erases_call o = true →
  findTargetCall (getBlocks cur s) (FunctionTarget o) = Some (bi, ii, Apply) →
  ∃ s', run o cur s = Returned tt s' ∧
    ∀ bj BB T,
      getBlocks cur s !! bj = Some BB → last BB = Some T →
      (bj = bi → S ii < length BB) →
      ∃ BB', getBlocks cur s' !! bj = Some BB' ∧
             last BB' = Some (undef_uses Apply T).
Proof.
  intros Ht Hf He Hfind.
  destruct (run_erases_state o cur s bi ii Apply Ht Hf He Hfind)
    as (F & pre_bs & pre & post & post_bs & new & M' & d' & HF & HB & <- & <-
        & Hret & _).
  eexists. split; [exact Hret|].
  intros bj BB T HBB HT Hnotlast.
  rewrite (getBlocks_Some _ _ _ HF), HB in HBB.
  unfold getBlocks. simpl. rewrite lookup_insert_eq. simpl.
  destruct (decide (bj = length pre_bs)) as [->|Hne].
  - rewrite list_lookup_middle in HBB by done. injection HBB as <-.
    specialize (Hnotlast eq_refl). rewrite length_app in Hnotlast.
    simpl in Hnotlast.
    rewrite list_lookup_middle by by rewrite length_fmap.
    eexists. split; [done|].
    destruct post as [|P post] using rev_ind; [simpl in Hnotlast; lia|].
    clear IHpost.
    replace (pre ++ Apply :: post ++ [P])
      with ((pre ++ Apply :: post) ++ [P]) in HT
      by by rewrite <- (assoc_L (++)).
    rewrite last_snoc in HT. injection HT as <-.
    rewrite fmap_app. simpl.
    by rewrite !(assoc_L (++)), last_snoc.
  - rewrite (lookup_middle_ne _ _ (lmap (undef_uses Apply) (pre ++ Apply :: post)))
      by by rewrite length_fmap.
    rewrite <- fmap_cons, <- fmap_app, list_lookup_fmap.
    rewrite HBB. simpl. eexists. split; [done|].
    by rewrite fmap_last, HT.
Qed.

Lemma X6_witness :
  ∃ s' BB', run (mkOptions "foo" RuntimeMiscompile false) "caller" ex_state
            = Returned tt s' ∧
            getBlocks "caller" s' !! 0 = Some BB' ∧
            last BB'
            = Some (mkInst 4 (OtherInst "return" [SILUndef ex_Int]) EmptyTupleType).
Proof.
  destruct (X6_last_instructions_stay
              (mkOptions "foo" RuntimeMiscompile false) "caller" ex_state 0 1
              (mkInst 1 (ApplyInst (InstResult 0) [] false) ex_Int))
    as (s' & Hrun & Hlast).
  - discriminate.
  - reflexivity.
  - reflexivity.
  - vm_compute. reflexivity.
  - destruct (Hlast 0 (from_option id [] (fn_blocks ex_caller !! 0))
                (mkInst 4 (OtherInst "return" [InstResult 1]) EmptyTupleType))
      as (BB' & HBB' & HT).
    + vm_compute. reflexivity.
    + reflexivity.
    + intros _. vm_compute. lia.
    + exists s', BB'. split; [exact Hrun|]. split; [exact HBB'|exact HT].
Defined.

(** X7. The debug stream and the stub under each kind.  A run that returns
    has changed nothing; or, under [RuntimeMiscompile], it has written
    nothing to the debug stream and created no function; or, under the
    other kinds, it has written exactly two things, the text
    "Runtime Crasher Func!" and the dump of the stub as it stood before the
    call was replaced, a function with a body, which is the stub of the
    module afterwards when the pass did not run on the stub itself. *)
Theorem X7_debug_stream_and_stub o cur s s' :
  run o cur s = Returned tt s' →
  s' = s ∨
  (TargetFailureKind o = RuntimeMiscompile ∧ dbgs s' = dbgs s ∧
   ∀ G, Mod s !! G = None → Mod s' !! G = None) ∨
  (TargetFailureKind o ≠ RuntimeMiscompile ∧
   ∃ Stub, is_definition Stub = true ∧
     dbgs s' = dbgs s ++ [DbgText "Runtime Crasher Func!
";
                          DbgDump RuntimeCrasherFunctionName (Some Stub)] ∧
     (cur ≠ RuntimeCrasherFunctionName →
      Mod s' !! RuntimeCrasherFunctionName = Some Stub)).
Proof.
  intros Hrun.
  destruct (run_Returned_cases o cur s s' Hrun)
    as [->|(Ht & Hf & _ & He & [[bi ii] Apply] & Hfind)]; [by left|].
  right.
  destruct (run_erases_state o cur s bi ii Apply Ht Hf He Hfind)
    as (Fc & pre_bs & pre & post & post_bs & new & M' & d' & HF & HB & _ & _
        & Hret & HM').
  rewrite Hret in Hrun. injection Hrun as <-. simpl.
  destruct HM' as [(Hk & -> & -> & _)|(Hk & -> & -> & _)].
  - left. split; [done|]. split; [done|]. intros G HG.
    rewrite lookup_insert_ne; [done|]. intros <-. by rewrite HF in HG.
  - right. split; [done|].
    destruct (with_crasher_stub_defined (Mod s)) as (Stub & HS & HD).
    exists Stub. rewrite HS. split; [done|]. split; [done|].
    intros Hne. by rewrite lookup_insert_ne.
Qed.

Lemma X7_witness :
  ∃ s', run (mkOptions "foo" RuntimeMiscompile false) "caller" ex_state
        = Returned tt s' ∧
        dbgs s' = dbgs ex_state.
Proof.
  assert (∃ s', run (mkOptions "foo" RuntimeMiscompile false) "caller" ex_state
                = Returned tt s') as [s' Hrun]
    by (eexists; vm_compute; reflexivity).
  exists s'. split; [exact Hrun|].
  destruct (X7_debug_stream_and_stub
              (mkOptions "foo" RuntimeMiscompile false) "caller" ex_state s'
              Hrun) as [->|[(_ & H & _)|(Hk & _)]].
  - reflexivity.
  - exact H.
  - by destruct Hk.
Defined.

(* ===================================================================== *)
(** ** The other matching calls of the function                           *)
(* ===================================================================== *)

Lemma find_app_case {A} (P : A → bool) l1 l2 :
  List.find P (l1 ++ l2)
  = match List.find P l1 with Some y => Some y | None => List.find P l2 end.
Proof.
  induction l1 as [|y l1 IH]; simpl; [done|]. by destruct (P y).
Qed.

Lemma find_id_undef_uses Apply x L :
  List.find (λ II, bool_decide (inst_id II = x)) (lmap (undef_uses Apply) L)
  = undef_uses Apply <$> List.find (λ II, bool_decide (inst_id II = x)) L.
Proof.
  induction L as [|y L IH]; [done|]. rewrite fmap_cons. simpl.
  by destruct (bool_decide (inst_id y = x)).
Qed.

Lemma find_id_None x (L : list SILInstruction) :
  (∀ J, J ∈ L → inst_id J ≠ x) →
  List.find (λ II, bool_decide (inst_id II = x)) L = None.
Proof.
  induction L as [|y L IH]; intros H; simpl; [done|].
  rewrite bool_decide_eq_false_2 by (apply H; by left).
  apply IH. intros J ?. apply H. by right.
Qed.

(** The defining instruction of the erased call's result, before. *)
Lemma getDefiningInst_unique pre_bs (pre : SILBasicBlock) II post post_bs :
  unique_ids (pre_bs ++ (pre ++ II :: post) :: post_bs) →
  getDefiningInst (pre_bs ++ (pre ++ II :: post) :: post_bs)
    (InstResult (inst_id II)) = Some II.
Proof.
  intros Hu. unfold getDefiningInst. rewrite all_insts_middle.
  rewrite <- (assoc_L (++) pre), (assoc_L (++) (all_insts pre_bs)).
  apply find_middle; [|by apply bool_decide_eq_true].
  intros y Hy. apply bool_decide_eq_false.
  apply (unique_ids_middle _ _ _ _ _ y Hu).
  rewrite all_insts_middle, !elem_of_app. apply elem_of_app in Hy. tauto.
Qed.

Lemma isTargetApply_kind blocks target II :
  isTargetApply blocks target II = true →
  ∃ callee args nt, inst_kind II = ApplyInst callee args nt.
Proof.
  unfold isTargetApply. destruct (inst_kind II); try done. eauto.
Qed.

Lemma dyn_cast_undef_uses_kind Apply (FRI : option SILInstruction) :
  match undef_uses Apply <$> FRI with
  | Some F => match inst_kind F with FunctionRefInst n => Some n | _ => None end
  | None => None
  end
  = match FRI with
    | Some F => match inst_kind F with FunctionRefInst n => Some n | _ => None end
    | None => None
    end.
Proof. destruct FRI as [F|]; [|done]. simpl. by destruct (inst_kind F). Qed.

(** After the injection an instruction calls the target exactly when it did
    before: the replacement of uses neither makes nor unmakes a match, and
    the new instructions [new] get in no one's way. *)
Lemma isTargetApply_after target Apply pre_bs (pre : SILBasicBlock) post post_bs new :
  let bs := pre_bs ++ (pre ++ Apply :: post) :: post_bs in
  let bs' := lmap (lmap (undef_uses Apply)) pre_bs
             ++ (lmap (undef_uses Apply) pre ++ new
                   ++ lmap (undef_uses Apply) post)
             :: lmap (lmap (undef_uses Apply)) post_bs in
  unique_ids bs →
  isTargetApply bs target Apply = true →
  (∀ N, N ∈ new → fresh_id bs ≤ inst_id N ∧
                  ∀ n, inst_kind N = FunctionRefInst n → n ≠ target) →
  ∀ J, isTargetApply bs' target (undef_uses Apply J)
       = isTargetApply bs target J.
Proof.
  intros bs bs' Hu HA Hnew J.
  destruct (isTargetApply_kind _ _ _ HA) as (ca & aa & na & HAk).
  unfold isTargetApply. simpl.
  destruct (inst_kind J) as [callee args nt| | | |]; simpl; try done.
  destruct callee as [x| |]; simpl; try done.
  destruct (decide (x = inst_id Apply)) as [->|Hx]; simpl.
  { unfold dyn_cast_FunctionRefInst.
    unfold bs. rewrite getDefiningInst_unique by done. by rewrite HAk. }
  unfold dyn_cast_FunctionRefInst, getDefiningInst.
  unfold bs', bs. rewrite !all_insts_middle, !all_insts_lmap.
  rewrite !find_app_case. rewrite !find_id_undef_uses.
  set (P := λ II, bool_decide (inst_id II = x)).
  destruct (List.find P (all_insts pre_bs)) as [y|] eqn:E1; simpl.
  { by destruct (inst_kind y). }
  destruct (List.find P pre) as [y|] eqn:E2; simpl.
  { by destruct (inst_kind y). }
  assert (P Apply = false) as -> by by apply bool_decide_eq_false; auto.
  destruct (List.find P new) as [N|] eqn:E3.
  - apply find_some in E3 as [HN HPN]. apply list_elem_of_In in HN.
    apply bool_decide_eq_true in HPN.
    destruct (Hnew N HN) as [Hfresh Hname].
    assert (List.find P post = None) as ->.
    { apply find_id_None. intros K HK.
      assert (inst_id K < fresh_id bs); [|lia].
      apply fresh_id_gt. unfold bs. rewrite all_insts_middle, !elem_of_app.
      right. left. right. by right. }
    assert (List.find P (all_insts post_bs) = None) as ->.
    { apply find_id_None. intros K HK.
      assert (inst_id K < fresh_id bs); [|lia].
      apply fresh_id_gt. unfold bs. rewrite all_insts_middle, !elem_of_app.
      by right; right. }
    destruct (inst_kind N) as [| n | | |] eqn:EN; try done.
    apply String.eqb_neq. by apply Hname.
  - destruct (List.find P post) as [y|] eqn:E4; simpl.
    { by destruct (inst_kind y). }
    apply (f_equal (λ o : option string,
             match o with Some n => String.eqb n target | None => false end)).
    apply dyn_cast_undef_uses_kind.
Qed.

Section sites.
Context (blocks : list SILBasicBlock) (target : string).

Lemma sites_in_block_app b l1 : ∀ i l2,
  sites_in_block blocks target b i (l1 ++ l2)
  = sites_in_block blocks target b i l1
    ++ sites_in_block blocks target b (i + length l1) l2.
Proof.
  induction l1 as [|J l1 IH]; intros i l2; simpl.
  { by rewrite Nat.add_0_r. }
  rewrite IH, <- (assoc_L (++)). by replace (S i + length l1) with (i + S (length l1)) by lia.
Qed.

Lemma sites_in_blocks_app l1 : ∀ b l2,
  sites_in_blocks blocks target b (l1 ++ l2)
  = sites_in_blocks blocks target b l1
    ++ sites_in_blocks blocks target (b + length l1) l2.
Proof.
  induction l1 as [|BB l1 IH]; intros b l2; simpl.
  { by rewrite Nat.add_0_r. }
  rewrite IH, <- (assoc_L (++)). by replace (S b + length l1) with (b + S (length l1)) by lia.
Qed.

Lemma sites_in_block_nil b l : ∀ i,
  (∀ J, J ∈ l → isTargetApply blocks target J = false) →
  sites_in_block blocks target b i l = [].
Proof.
  induction l as [|J l IH]; intros i H; simpl; [done|].
  rewrite (H J) by by left. simpl. apply IH. intros K ?. apply H. by right.
Qed.

Lemma sites_in_blocks_nil l : ∀ b,
  (∀ BB J, BB ∈ l → J ∈ BB → isTargetApply blocks target J = false) →
  sites_in_blocks blocks target b l = [].
Proof.
  induction l as [|BB l IH]; intros b H; simpl; [done|].
  rewrite sites_in_block_nil by (intros J ?; apply (H BB); [by left|done]).
  simpl. apply IH. intros BB' J ? ?. apply (H BB'); [by right|done].
Qed.

(** Where the call sites of a block, and of a run of blocks, are. *)
Lemma sites_in_block_where b l : ∀ i site,
  site ∈ sites_in_block blocks target b i l → site.1.1 = b ∧ i ≤ site.1.2.
Proof.
  induction l as [|J l IH]; intros i site; simpl.
  { by intros ?%elem_of_nil. }
  rewrite elem_of_app. intros [H|H].
  - destruct (isTargetApply blocks target J).
    + apply list_elem_of_singleton in H as ->. simpl. lia.
    + by apply elem_of_nil in H.
  - apply IH in H. lia.
Qed.

Lemma sites_in_blocks_where l : ∀ b site,
  site ∈ sites_in_blocks blocks target b l → b ≤ site.1.1.
Proof.
  induction l as [|BB l IH]; intros b site; simpl.
  { by intros ?%elem_of_nil. }
  rewrite elem_of_app. intros [H|H].
  - apply sites_in_block_where in H. lia.
  - apply IH in H. lia.
Qed.

(** The same block scanned from a later first position. *)
Lemma sites_in_block_shift k b l : ∀ i,
  sites_in_block blocks target b (k + i) l
  = (λ site : CallSite, (site.1.1, k + site.1.2, site.2))
    <$> sites_in_block blocks target b i l.
Proof.
  induction l as [|J l IH]; intros i; simpl; [done|].
  rewrite fmap_app. replace (S (k + i)) with (k + S i) by lia.
  rewrite IH. by destruct (isTargetApply blocks target J).
Qed.
End sites.

Section sites_after.
Context (blocks blocks' : list SILBasicBlock) (target : string).
Context (f : SILInstruction → SILInstruction).
Hypothesis Hf : ∀ J, isTargetApply blocks' target (f J)
                     = isTargetApply blocks target J.

Lemma sites_in_block_fmap b l : ∀ i,
  sites_in_block blocks' target b i (lmap f l)
  = (λ site : CallSite, (site.1.1, site.1.2, f site.2))
    <$> sites_in_block blocks target b i l.
Proof using Hf.
  induction l as [|J l IH]; intros i; [done|].
  rewrite fmap_cons. simpl. rewrite fmap_app, IH, Hf.
  by destruct (isTargetApply blocks target J).
Qed.

Lemma sites_in_blocks_fmap l : ∀ b,
  sites_in_blocks blocks' target b (lmap (lmap f) l)
  = (λ site : CallSite, (site.1.1, site.1.2, f site.2))
    <$> sites_in_blocks blocks target b l.
Proof using Hf.
  induction l as [|BB l IH]; intros b; [done|].
  rewrite fmap_cons. simpl. by rewrite fmap_app, IH, sites_in_block_fmap.
Qed.
End sites_after.

Lemma fmap_ext_elem_of {A B} (f g : A → B) (l : list A) :
  (∀ x, x ∈ l → f x = g x) → f <$> l = g <$> l.
Proof.
  induction l as [|x l IH]; intros H; [done|].
  rewrite !fmap_cons, (H x) by by left.
  f_equal. apply IH. intros y ?. apply H. by right.
Qed.

Section remaining_sites.
Context (target : string) (Apply : SILInstruction).
Context (pre_bs : list SILBasicBlock) (pre post : SILBasicBlock).
Context (post_bs : list SILBasicBlock) (new : list SILInstruction).

Let bs := pre_bs ++ (pre ++ Apply :: post) :: post_bs.
Let bs' := lmap (lmap (undef_uses Apply)) pre_bs
           ++ (lmap (undef_uses Apply) pre ++ new
                 ++ lmap (undef_uses Apply) post)
           :: lmap (lmap (undef_uses Apply)) post_bs.

Hypothesis Hfind :
  findTargetCall bs target = Some (length pre_bs, length pre, Apply).

(** In front of the first call site there is none. *)
Lemma sites_in_front_nil :
  sites_in_blocks bs target 0 pre_bs = [] ∧
  sites_in_block bs target (length pre_bs) 0 pre = [].
Proof using Hfind.
  apply findTargetCall_Some in Hfind as (_ & _ & Hbefore). split.
  - apply sites_in_blocks_nil. intros BB J HBB HJ.
    apply list_elem_of_lookup_1 in HBB as [bj HBB].
    apply list_elem_of_lookup_1 in HJ as [ij HJ].
    apply (Hbefore bj ij).
    + left. by apply lookup_lt_Some in HBB.
    + unfold inst_at, bs. rewrite (lookup_app_l_Some _ _ _ _ HBB). done.
  - apply sites_in_block_nil. intros J HJ.
    apply list_elem_of_lookup_1 in HJ as [ij HJ].
    apply (Hbefore (length pre_bs) ij).
    + right. split; [done|]. by apply lookup_lt_Some in HJ.
    + unfold inst_at, bs. rewrite list_lookup_middle by done. simpl.
      by apply lookup_app_l_Some.
Qed.

Lemma target_sites_first :
  target_sites bs target
  = (length pre_bs, length pre, Apply)
    :: (sites_in_block bs target (length pre_bs) (S (length pre)) post
        ++ sites_in_blocks bs target (S (length pre_bs)) post_bs).
Proof using Hfind.
  destruct sites_in_front_nil as [H1 H2].
  pose proof Hfind as (_ & HA & _)%findTargetCall_Some.
  unfold target_sites. unfold bs at 2.
  rewrite sites_in_blocks_app, H1. simpl.
  rewrite sites_in_block_app, H2. simpl. by rewrite HA.
Qed.

Hypothesis Hafter : ∀ J, isTargetApply bs' target (undef_uses Apply J)
                         = isTargetApply bs target J.
Hypothesis Hnew : ∀ N, N ∈ new → isTargetApply bs' target N = false.

Lemma target_sites_after :
  target_sites bs' target
  = (λ site : CallSite, (site.1.1, site.1.2, undef_uses Apply site.2))
    <$> (sites_in_block bs target (length pre_bs) (length new + length pre) post
         ++ sites_in_blocks bs target (S (length pre_bs)) post_bs).
Proof using Hfind Hafter Hnew.
  destruct sites_in_front_nil as [H1 H2].
  unfold target_sites. unfold bs' at 2.
  rewrite sites_in_blocks_app.
  rewrite (sites_in_blocks_fmap bs bs' target _ Hafter), H1. simpl.
  rewrite length_fmap.
  rewrite !sites_in_block_app.
  rewrite !(sites_in_block_fmap bs bs' target _ Hafter), H2. simpl.
  rewrite (sites_in_block_nil bs' target _ new) by done. simpl.
  rewrite (sites_in_blocks_fmap bs bs' target _ Hafter).
  rewrite length_fmap, fmap_app.
  by replace (length pre + length new) with (length new + length pre) by lia.
Qed.
End remaining_sites.

(** X8. Under [RuntimeMiscompile], in a function whose instructions have
    identifiers of their own, the injection takes exactly the first
    matching call off the list of the function's matching calls: the later
    ones are still matching calls, in the same order, those of the same
    block one place further to the front, with their uses of the erased
    call replaced; and no other instruction has become a matching call. *)
Theorem X8_miscompile_keeps_the_other_matches o cur s bi ii Apply rest :
  TargetFailureKind o = RuntimeMiscompile →
  FunctionTarget o ≠ "" →
  CausedError s = false →
  unique_ids (getBlocks cur s) →
  target_sites (getBlocks cur s) (FunctionTarget o) = (bi, ii, Apply) :: rest →
  ∃ s', run o cur s = Returned tt s' ∧
        target_sites (getBlocks cur s') (FunctionTarget o)
        = moved_site pred bi Apply <$> rest.
Proof.
  intros Hk Ht Hf Hu Hsites.
  assert (findTargetCall (getBlocks cur s) (FunctionTarget o)
          = Some (bi, ii, Apply)) as Hfind
    by by rewrite <- head_target_sites, Hsites.
  assert (erases_call o = true) as He by by unfold erases_call; rewrite Hk.
  destruct (run_erases_state o cur s bi ii Apply Ht Hf He Hfind)
    as (F & pre_bs & pre & post & post_bs & new & M' & d' & HF & HB & <- & <-
        & Hret & [(_ & _ & _ & ->)|(Hk' & _)]); [|done].
  eexists. split; [exact Hret|].
  rewrite (getBlocks_Some _ _ _ HF), HB in Hu, Hfind, Hsites.
  unfold getBlocks at 1. simpl. rewrite lookup_insert_eq. simpl.
  pose proof Hfind as (_ & HA & _)%findTargetCall_Some.
  rewrite (target_sites_first _ _ _ _ _ _ Hfind) in Hsites.
  injection Hsites as <-.
  etrans.
  { apply (target_sites_after _ _ _ _ _ _ [] Hfind).
    - apply isTargetApply_after; [done|done|]. by intros N ?%elem_of_nil.
    - by intros N ?%elem_of_nil. }
  simpl. rewrite !fmap_app. f_equal.
  - rewrite (sites_in_block_shift _ _ 1 _ post (length pre)).
    rewrite <- list_fmap_compose. apply fmap_ext_elem_of.
    intros site [Hb _]%sites_in_block_where.
    unfold moved_site. simpl. by rewrite decide_True.
  - apply fmap_ext_elem_of. intros site Hb%sites_in_blocks_where.
    unfold moved_site. rewrite decide_False by lia. done.
Qed.

Lemma X8_witness :
  ∃ s', run (mkOptions "foo" RuntimeMiscompile false) "caller" ex_state
        = Returned tt s' ∧
        target_sites (getBlocks "caller" s') "foo"
        = [(0, 2, mkInst 3 (ApplyInst (InstResult 0) [SILUndef ex_Int] false)
                    ex_Int)].
Proof.
  destruct (X8_miscompile_keeps_the_other_matches
              (mkOptions "foo" RuntimeMiscompile false) "caller" ex_state 0 1
              (mkInst 1 (ApplyInst (InstResult 0) [] false) ex_Int)
              [(0, 3, mkInst 3 (ApplyInst (InstResult 0) [InstResult 1] false)
                        ex_Int)])
    as (s' & Hrun & Hsites).
  - reflexivity.
  - discriminate.
  - reflexivity.
  - apply (bool_decide_unpack _). vm_compute. exact I.
  - vm_compute. reflexivity.
  - exists s'. split; [exact Hrun|exact Hsites].
Defined.

(** X9. Under [RuntimeCrasher], with a target that is not the stub itself
    and in a function whose instructions have identifiers of their own, the
    injection likewise takes exactly the first matching call off the list
    of the function's matching calls: the later ones are still matching
    calls, in the same order, those of the same block one place further on,
    and neither the new call of the stub nor any other instruction has
    become a matching call. *)
Theorem X9_crasher_keeps_the_other_matches o cur s bi ii Apply rest :
  TargetFailureKind o = RuntimeCrasher →
  FunctionTarget o ≠ "" →
  FunctionTarget o ≠ RuntimeCrasherFunctionName →
  CausedError s = false →
  unique_ids (getBlocks cur s) →
  target_sites (getBlocks cur s) (FunctionTarget o) = (bi, ii, Apply) :: rest →
  ∃ s', run o cur s = Returned tt s' ∧
        target_sites (getBlocks cur s') (FunctionTarget o)
        = moved_site S bi Apply <$> rest.
Proof.
  intros Hk Ht Hstub Hf Hu Hsites.
  assert (findTargetCall (getBlocks cur s) (FunctionTarget o)
          = Some (bi, ii, Apply)) as Hfind
    by by rewrite <- head_target_sites, Hsites.
  assert (erases_call o = true) as He by by unfold erases_call; rewrite Hk.
  destruct (run_erases_state o cur s bi ii Apply Ht Hf He Hfind)
    as (F & pre_bs & pre & post & post_bs & new & M' & d' & HF & HB & <- & <-
        & Hret & [(Hk' & _)|(_ & _ & _ & ->)]); [congruence|].
  eexists. split; [exact Hret|].
  rewrite (getBlocks_Some _ _ _ HF), HB in Hu, Hfind, Hsites.
  unfold getBlocks at 1. simpl. rewrite lookup_insert_eq. simpl.
  pose proof Hfind as (_ & HA & _)%findTargetCall_Some.
  rewrite (target_sites_first _ _ _ _ _ _ Hfind) in Hsites.
  injection Hsites as <-. rewrite HB.
  set (fty := from_option fn_type EmptyTupleType _).
  set (bs := pre_bs ++ (pre ++ Apply :: post) :: post_bs) in *.
  assert (∀ J, isTargetApply
                 (lmap (lmap (undef_uses Apply)) pre_bs
                  ++ (lmap (undef_uses Apply) pre
                      ++ [crasher_ref fty bs; crasher_apply bs]
                      ++ lmap (undef_uses Apply) post)
                  :: lmap (lmap (undef_uses Apply)) post_bs)
                 (FunctionTarget o) (undef_uses Apply J)
               = isTargetApply bs (FunctionTarget o) J) as Hafter.
  { apply isTargetApply_after; [done|done|].
    intros N [->|[->|[]%elem_of_nil]%elem_of_cons]%elem_of_cons;
      unfold crasher_ref, crasher_apply; cbn [inst_id inst_kind].
    - split; [unfold bs; lia|]. by intros n [= <-].
    - split; [unfold bs; lia|]. by intros n. }
  etrans.
  { apply (target_sites_after _ _ _ _ _ _
             [crasher_ref fty bs; crasher_apply bs] Hfind Hafter).
    intros N [->|[->|[]%elem_of_nil]%elem_of_cons]%elem_of_cons; [done|].
    destruct (isTargetApply _ _ (crasher_apply bs)) eqn:E; [|done].
    apply isTargetApply_direct in E
      as (callee & args & nt & FRI & HK & HD & HFRI).
    pose proof (crasher_apply_direct fty Apply pre_bs pre post post_bs)
      as (callee' & args' & nt' & FRI' & HK' & HD' & HFRI').
    fold bs in HK'. rewrite HK in HK'. injection HK' as <- <- <-.
    unfold crasher_blocks_shape in HD'. fold bs in HD'. simpl in HD, HD'.
    rewrite HD in HD'. injection HD' as <-. congruence. }
  simpl. rewrite !fmap_app. f_equal.
  - rewrite (sites_in_block_shift _ _ 2 _ post (length pre)).
    rewrite (sites_in_block_shift _ _ 1 _ post (length pre)).
    rewrite <- !list_fmap_compose. apply fmap_ext_elem_of.
    intros site [Hb _]%sites_in_block_where.
    unfold moved_site. simpl. by rewrite decide_True.
  - apply fmap_ext_elem_of. intros site Hb%sites_in_blocks_where.
    unfold moved_site. rewrite decide_False by lia. done.
Qed.

Lemma X9_witness :
  ∃ s', run (mkOptions "foo" RuntimeCrasher false) "caller" ex_state
        = Returned tt s' ∧
        target_sites (getBlocks "caller" s') "foo"
        = [(0, 4, mkInst 3 (ApplyInst (InstResult 0) [SILUndef ex_Int] false)
                    ex_Int)].
Proof.
  destruct (X9_crasher_keeps_the_other_matches
              (mkOptions "foo" RuntimeCrasher false) "caller" ex_state 0 1
              (mkInst 1 (ApplyInst (InstResult 0) [] false) ex_Int)
              [(0, 3, mkInst 3 (ApplyInst (InstResult 0) [InstResult 1] false)
                        ex_Int)])
    as (s' & Hrun & Hsites).
  - reflexivity.
  - discriminate.
  - discriminate.
  - reflexivity.
  - apply (bool_decide_unpack _). vm_compute. exact I.
  - vm_compute. reflexivity.
  - exists s'. split; [exact Hrun|exact Hsites].
Defined.

(* ===================================================================== *)
(** ** The factory, the option, and whole runs                            *)
(* ===================================================================== *)

(** X10. [getRuntimeCrasherFunction] returns exactly when its assertion
    holds or is compiled out, and aborts with the state untouched
    otherwise.  When it returns, the flag and the debug stream are as they
    were, and under the stub's name the module holds: when it held no
    function of that name, a function of the thin type from nothing to the
    empty tuple, bare, fragile, not transparent, no thunk (lines 71-86),
    with the trap body; when it held a declaration of that type, a function
    of that type with the trap body; when it held a definition of that
    type, that definition, the whole state unchanged. *)
Theorem X10_stub_factory_cases o s :
  ((∃ F s1, getRuntimeCrasherFunction o s = Returned F s1) ↔
   NDEBUG o = true ∨ TargetFailureKind o = RuntimeCrasher) ∧
  (∀ why s1, getRuntimeCrasherFunction o s = Aborted why s1 → s1 = s) ∧
  (∀ F s1, getRuntimeCrasherFunction o s = Returned F s1 →
     CausedError s1 = CausedError s ∧ dbgs s1 = dbgs s ∧
     match Mod s !! RuntimeCrasherFunctionName with
     | None =>
         ∃ F', Mod s1 !! RuntimeCrasherFunctionName = Some F' ∧
               fn_type F' = ThinFunctionType EmptyTupleType ∧
               fn_bare F' = true ∧ fn_transparent F' = false ∧
               fn_fragile F' = true ∧ fn_thunk F' = false ∧
               fn_blocks F'
               = [[mkInst 1 BuiltinTrapInst EmptyTupleType;
                   mkInst 2 UnreachableInst EmptyTupleType]]
     | Some Fn =>
         fn_type Fn = ThinFunctionType EmptyTupleType →
         if is_definition Fn then s1 = s
         else ∃ F', Mod s1 !! RuntimeCrasherFunctionName = Some F' ∧
                    fn_type F' = ThinFunctionType EmptyTupleType ∧
                    fn_blocks F'
                    = [[mkInst 1 BuiltinTrapInst EmptyTupleType;
                        mkInst 2 UnreachableInst EmptyTupleType]]
     end).
Proof.
  assert (NDEBUG o || bool_decide (TargetFailureKind o = RuntimeCrasher) = true
          ↔ NDEBUG o = true ∨ TargetFailureKind o = RuntimeCrasher) as Hiff.
  { rewrite orb_true_iff, bool_decide_eq_true. done. }
  split; [|split].
  - split.
    + intros (F & s1 & H). apply Hiff.
      by eapply getRuntimeCrasherFunction_Returned.
    + intros H%Hiff. eexists _, _. by apply getRuntimeCrasherFunction_eq.
  - intros why s1.
    destruct (NDEBUG o || bool_decide (TargetFailureKind o = RuntimeCrasher))
      eqn:Ha.
    + by rewrite getRuntimeCrasherFunction_eq.
    + unfold getRuntimeCrasherFunction, mbind, Pass_bind, assert_.
      rewrite Ha. by intros [= _ <-].
  - intros F s1 H.
    pose proof (getRuntimeCrasherFunction_Returned _ _ _ _ H) as Ha.
    rewrite getRuntimeCrasherFunction_eq in H by done.
    injection H as <- <-. simpl. split; [done|]. split; [done|].
    unfold with_crasher_stub.
    destruct (Mod s !! RuntimeCrasherFunctionName) as [Fn|] eqn:E.
    + intros Hty. destruct (is_definition Fn) eqn:HD.
      * by rewrite set_Mod_id.
      * eexists. rewrite lookup_insert_eq. split; [done|]. by split.
    + eexists. rewrite lookup_insert_eq. split; [done|]. by repeat split.
Qed.

Lemma X10_witness :
  (∃ F', Mod ex_state_stub !! RuntimeCrasherFunctionName = Some F' ∧
         is_definition F' = true ∧
         getRuntimeCrasherFunction (mkOptions "foo" RuntimeCrasher false)
           ex_state_stub
         = Returned RuntimeCrasherFunctionName ex_state_stub) ∧
  (∃ s1 F',
     Mod ex_state !! RuntimeCrasherFunctionName = None ∧
     getRuntimeCrasherFunction (mkOptions "foo" RuntimeCrasher false) ex_state
     = Returned RuntimeCrasherFunctionName s1 ∧
     Mod s1 !! RuntimeCrasherFunctionName = Some F' ∧
     fn_blocks F' = [[mkInst 1 BuiltinTrapInst EmptyTupleType;
                      mkInst 2 UnreachableInst EmptyTupleType]]).
Proof.
  split.
  - exists ex_user_stub. split; [reflexivity|]. split; [reflexivity|].
    pose proof (X10_stub_factory_cases (mkOptions "foo" RuntimeCrasher false)
                  ex_state_stub) as (_ & _ & H).
    assert (∃ s1, getRuntimeCrasherFunction
                    (mkOptions "foo" RuntimeCrasher false) ex_state_stub
                  = Returned RuntimeCrasherFunctionName s1) as [s1 Hrun]
      by (eexists; vm_compute; reflexivity).
    destruct (H _ _ Hrun) as (_ & _ & Hcase).
    change (Mod ex_state_stub !! RuntimeCrasherFunctionName)
      with (Some ex_user_stub) in Hcase.
    specialize (Hcase eq_refl). simpl in Hcase. rewrite Hcase in Hrun.
    exact Hrun.
  - pose proof (X10_stub_factory_cases (mkOptions "foo" RuntimeCrasher false)
                  ex_state) as (_ & _ & H).
    assert (∃ s1, getRuntimeCrasherFunction
                    (mkOptions "foo" RuntimeCrasher false) ex_state
                  = Returned RuntimeCrasherFunctionName s1) as [s1 Hrun]
      by (eexists; vm_compute; reflexivity).
    destruct (H _ _ Hrun) as (_ & _ & Hcase).
    change (Mod ex_state !! RuntimeCrasherFunctionName)
      with (@None SILFunction) in Hcase.
    destruct Hcase as (F' & HF' & _ & _ & _ & _ & _ & Hbody).
    exists s1, F'. split; [reflexivity|]. split; [exact Hrun|].
    split; [exact HF'|exact Hbody].
Defined.

(** X11. On the command line each failure kind other than [None] has one
    value that selects it, and only that one; no value selects [None],
    which is the kind only when the option is not given; a value that is
    not listed is rejected. *)
Theorem X11_failure_kind_values :
  parse_TargetFailureKind None = Some None_ ∧
  (∀ value, parse_TargetFailureKind (Some value) ≠ Some None_) ∧
  (∀ value kind,
     parse_TargetFailureKind (Some value) = Some kind ↔
     (value, kind) ∈ TargetFailureKind_values) ∧
  (∀ kind, kind ≠ None_ →
     ∃ value, parse_TargetFailureKind (Some value) = Some kind ∧
       ∀ value', parse_TargetFailureKind (Some value') = Some kind →
                 value' = value) ∧
  (∀ value, (∀ kind, (value, kind) ∉ TargetFailureKind_values) →
            parse_TargetFailureKind (Some value) = None).
Proof.
  assert (∀ value kind,
     parse_TargetFailureKind (Some value) = Some kind ↔
     (value, kind) ∈ TargetFailureKind_values) as Hiff.
  { intros value kind. split.
    - unfold parse_TargetFailureKind.
      destruct (List.find _ _) as [[v k]|] eqn:E; [|done].
      intros [= <-]. apply find_some in E as [Hin Heq].
      apply String.eqb_eq in Heq. simpl in Heq. subst v.
      by apply list_elem_of_In.
    - unfold TargetFailureKind_values.
      rewrite !elem_of_cons, elem_of_nil.
      intros [[= -> ->]|[[= -> ->]|[[= -> ->]|[]]]]; reflexivity. }
  split; [done|]. split; [|split; [done|split]].
  - intros value H%Hiff. unfold TargetFailureKind_values in H.
    rewrite !elem_of_cons, elem_of_nil in H.
    by destruct H as [[=]|[[=]|[[=]|[]]]].
  - intros kind Hk.
    assert (∀ v v', (v, kind) ∈ TargetFailureKind_values →
                    (v', kind) ∈ TargetFailureKind_values → v' = v) as Hone.
    { unfold TargetFailureKind_values. intros v v'.
      rewrite !elem_of_cons, !elem_of_nil.
      intros [[= -> ->]|[[= -> ->]|[[= -> ->]|[]]]]
             [[= ->]|[[= ->]|[[= ->]|[]]]]; done. }
    destruct kind; [| | |done].
    + exists "opt-crasher". split; [done|].
      intros v' Hv'%Hiff. apply (Hone "opt-crasher" v'); [by apply Hiff|done].
    + exists "miscompile". split; [done|].
      intros v' Hv'%Hiff. apply (Hone "miscompile" v'); [by apply Hiff|done].
    + exists "runtime-crasher". split; [done|].
      intros v' Hv'%Hiff. apply (Hone "runtime-crasher" v'); [by apply Hiff|done].
  - intros value Hnot.
    destruct (parse_TargetFailureKind (Some value)) as [kind|] eqn:E; [|done].
    apply Hiff in E. by apply Hnot in E.
Qed.

(** X12. When a run over a worklist aborts, the state at the abort is the
    state the run began with: over a whole run, too, no abort follows a
    change. *)
Theorem X12_a_run_aborts_before_any_change o worklist s why s' :
  runOnFunctions o worklist s = Aborted why s' → s' = s.
Proof.
  revert s. induction worklist as [|F rest IH]; intros s; simpl; [done|].
  unfold mbind, Pass_bind.
  destruct (run o F s) as [[] s1|why1 s1] eqn:Hrun.
  - destruct (run_Returned_cases o F s s1 Hrun)
      as [->|(_ & _ & Hflag & _)]; [apply IH|].
    rewrite runOnFunctions_noop; [done|].
    intros G _. by apply run_CausedError.
  - intros [= _ <-]. by eapply run_Aborted_state.
Qed.

Lemma X12_witness :
  runOnFunctions (mkOptions "foo" OptimizerCrasher false)
    ["foo"; "other"; "caller"] ex_state
    = Aborted (LLVMUnreachable "Found the target!") ex_state ∧
  ex_state = ex_state.
Proof.
  split; [vm_compute; reflexivity|].
  apply (X12_a_run_aborts_before_any_change
           (mkOptions "foo" OptimizerCrasher false) ["foo"; "other"; "caller"]
           ex_state (LLVMUnreachable "Found the target!") ex_state).
  vm_compute. reflexivity.
Defined.

(** X13. A run over a worklist that returns has either changed nothing, or
    its outcome is the outcome of the pass on one function of the worklist:
    on the functions in front of it the pass changed nothing, on it the
    pass set the flag, and behind it the pass changed nothing again.  This
    holds under all options and from every state. *)
Theorem X13_a_run_is_at_most_one_invocation o worklist s s' :
  runOnFunctions o worklist s = Returned tt s' →
  s' = s ∨
  ∃ pre F post,
    worklist = pre ++ F :: post ∧
    (∀ G, G ∈ pre → run o G s = Returned tt s) ∧
    run o F s = Returned tt s' ∧
    CausedError s = false ∧ CausedError s' = true ∧
    (∀ G, G ∈ post → run o G s' = Returned tt s').
Proof.
  revert s. induction worklist as [|F rest IH]; intros s; simpl.
  { intros [= <-]. by left. }
  unfold mbind, Pass_bind.
  destruct (run o F s) as [[] s1|why1 s1] eqn:Hrun; [|done].
  destruct (run_Returned_cases o F s s1 Hrun)
    as [->|(_ & Hf & Hflag & _)].
  - intros [Heq|(pre & G & post & -> & Hpre & HG & Hf & Hf' & Hpost)]%IH.
    + by left.
    + right. exists (F :: pre), G, post. split; [done|].
      split; [|done]. intros K [->|?]%elem_of_cons; [done|by apply Hpre].
  - rewrite runOnFunctions_noop by (intros G _; by apply run_CausedError).
    intros [= <-]. right. exists [], F, rest. split; [done|].
    split; [by intros ? ?%elem_of_nil|]. split; [done|].
    split; [done|]. split; [done|]. intros G _. by apply run_CausedError.
Qed.

Lemma X13_witness :
  ∃ s', runOnFunctions (mkOptions "foo" RuntimeMiscompile false)
          ["foo"; "other"; "caller"] ex_state = Returned tt s' ∧
        (s' = ex_state ∨ CausedError s' = true).
Proof.
  assert (∃ s', runOnFunctions (mkOptions "foo" RuntimeMiscompile false)
                  ["foo"; "other"; "caller"] ex_state = Returned tt s')
    as [s' Hrun] by (eexists; vm_compute; reflexivity).
  exists s'. split; [exact Hrun|].
  destruct (X13_a_run_is_at_most_one_invocation
              (mkOptions "foo" RuntimeMiscompile false)
              ["foo"; "other"; "caller"] ex_state s' Hrun)
    as [H|(_ & _ & _ & _ & _ & _ & _ & H & _)].
  - left. exact H.
  - right. exact H.
Defined.

(** A definition the pass does not run on is left as it is. *)
Lemma run_keeps_definitions o cur s s' G F :
  run o cur s = Returned tt s' →
  Mod s !! G = Some F → is_definition F = true → G ≠ cur →
  Mod s' !! G = Some F.
Proof.
  intros Hrun HG HD Hne.
  destruct (run_Returned_cases o cur s s' Hrun)
    as [->|(Ht & Hf & _ & He & [[bi ii] Apply] & Hfind)]; [done|].
  destruct (run_erases_state o cur s bi ii Apply Ht Hf He Hfind)
    as (Fc & pre_bs & pre & post & post_bs & new & M' & d' & _ & _ & _ & _
        & Hret & HM').
  rewrite Hret in Hrun. injection Hrun as <-. simpl.
  rewrite lookup_insert_ne by done.
  destruct HM' as [(_ & -> & _)|(_ & -> & _)]; [done|].
  by apply with_crasher_stub_definition.
Qed.

(** X14. The stub is defined once for all pass objects.  After a crasher
    injection the module holds a definition under the stub's name, and a
    run of a new pass object, its flag unset again, on any other function
    of that module leaves that definition as it is, whether or not it
    injects a second call of it. *)
Theorem X14_one_stub_for_all_pass_objects o F1 F2 s s1 s2 :
  TargetFailureKind o = RuntimeCrasher →
  CausedError s = false →
  run o F1 s = Returned tt s1 →
  CausedError s1 = true →
  F2 ≠ RuntimeCrasherFunctionName →
  run o F2 (createBugReducerTester s1) = Returned tt s2 →
  ∃ Stub, is_definition Stub = true ∧
          Mod s1 !! RuntimeCrasherFunctionName = Some Stub ∧
          Mod s2 !! RuntimeCrasherFunctionName = Some Stub.
Proof.
  intros Hk Hf Hrun1 Hf1 Hne Hrun2.
  assert (∃ Stub, is_definition Stub = true ∧
                  Mod s1 !! RuntimeCrasherFunctionName = Some Stub)
    as (Stub & HD & HS).
  { destruct (run_Returned_cases o F1 s s1 Hrun1)
      as [->|(Ht & _ & _ & He & [[bi ii] Apply] & Hfind)]; [congruence|].
    destruct (run_erases_state o F1 s bi ii Apply Ht Hf He Hfind)
      as (Fc & pre_bs & pre & post & post_bs & new & M' & d' & _ & _ & _ & _
          & Hret & [(Hk' & _)|(_ & -> & _)]); [congruence|].
    rewrite Hret in Hrun1. injection Hrun1 as <-. simpl.
    destruct (decide (F1 = RuntimeCrasherFunctionName)) as [->|HF1].
    - rewrite lookup_insert_eq. eexists. split; [|done].
      unfold is_definition. simpl.
      by destruct (lmap (lmap (undef_uses Apply)) pre_bs).
    - rewrite lookup_insert_ne by done.
      destruct (with_crasher_stub_defined (Mod s)) as (Stub & ? & ?). eauto. }
  exists Stub. split; [done|]. split; [done|].
  by apply (run_keeps_definitions o F2 (createBugReducerTester s1) s2).
Qed.

Lemma X14_witness :
  ∃ s1 s2 Stub,
    run (mkOptions "foo" RuntimeCrasher false) "caller" ex_state
      = Returned tt s1 ∧
    run (mkOptions "foo" RuntimeCrasher false) "other"
        (createBugReducerTester s1) = Returned tt s2 ∧
    Mod s1 !! RuntimeCrasherFunctionName = Some Stub ∧
    Mod s2 !! RuntimeCrasherFunctionName = Some Stub.
Proof.
  assert (∃ s1, run (mkOptions "foo" RuntimeCrasher false) "caller" ex_state
                = Returned tt s1 ∧ CausedError s1 = true ∧
                ∃ s2, run (mkOptions "foo" RuntimeCrasher false) "other"
                        (createBugReducerTester s1) = Returned tt s2)
    as (s1 & Hrun1 & Hf1 & s2 & Hrun2).
  { eexists. split; [vm_compute; reflexivity|]. split; [reflexivity|].
    eexists. vm_compute. reflexivity. }
  destruct (X14_one_stub_for_all_pass_objects
              (mkOptions "foo" RuntimeCrasher false) "caller" "other"
              ex_state s1 s2) as (Stub & _ & HS1 & HS2).
  - reflexivity.
  - reflexivity.
  - exact Hrun1.
  - exact Hf1.
  - discriminate.
  - exact Hrun2.
  - exists s1, s2, Stub. by repeat split.
Defined.

(** X15. Under the failure kinds that delete the call the pass never aborts:
    on every function and from every state it returns, and so does a run
    over any worklist, in a build with assertions as in one without. *)
Theorem X15_deleting_kinds_never_abort o cur worklist s :
  deletes_call (TargetFailureKind o) = true →
  (∃ s', run o cur s = Returned tt s') ∧
  (∃ s', runOnFunctions o worklist s = Returned tt s').
Proof.
  intros Hk.
  assert (∀ G s0, ∃ s', run o G s0 = Returned tt s') as Hrun.
  { intros G s0.
    destruct (run_outcome o G s0)
      as [H|[(_ & _ & Hk' & _)|[(_ & _ & Hk' & _)
          |(_ & _ & _ & site & s1 & _ & H & _)]]]; eauto;
      by rewrite Hk' in Hk. }
  split; [apply Hrun|].
  revert s. induction worklist as [|F rest IH]; intros s; simpl; [by eexists|].
  destruct (Hrun F s) as [s1 H1]. destruct (IH s1) as [s' H'].
  exists s'. by erewrite bind_Returned by exact H1.
Qed.

Lemma X15_witness :
  (∃ s', run (mkOptions "foo" RuntimeCrasher false) "caller" ex_state
         = Returned tt s') ∧
  (∃ s', runOnFunctions (mkOptions "foo" RuntimeCrasher false)
           ["caller"; "other"] ex_state = Returned tt s').
Proof.
  apply (X15_deleting_kinds_never_abort
           (mkOptions "foo" RuntimeCrasher false) "caller" ["caller"; "other"]
           ex_state).
  reflexivity.
Defined.
